(** * ParetoNMF: the topic-count search of [src/paretonmf.py]

    A shallow embedding of class [ParetoNMF] (Python 2, numpy, sklearn) and
    the properties of its stability check, noise estimator, step estimator
    and search loop.

    Modelling conventions.
    - Python and numpy integers are [Z]; Python floats are exact rationals
      [Q] (rounding error of IEEE doubles is not modelled). Where rounding
      can move an integer result, as in [int(total_tokens * n_percent)],
      the theorem about that result assumes that it does not
      ([rounds_below_next_integer]).
    - A matrix is the list of its rows; [sparse.csr_matrix] changes the
      representation only, and [np.unique] applied to a scipy sparse matrix
      wraps it in a one-element object array, so [np.unique(m)[0]] is [m].
    - The instance attributes are the fields of the record [ParetoNMF];
      an attribute that has not been assigned yet is [None] and reading it
      raises [AttributeError].
    - [sklearn.decomposition.NMF] is an external capability, the class
      [Sklearn]; its result may depend on how many factorizations ran before
      (with [random_state=None] it draws from numpy's global generator).
    - [print] calls under [pnmf_verbose] are left out: they touch no
      attribute and cannot fail. *)

From Stdlib Require Import ZArith QArith Qround Qabs Lia Lqa.
From stdpp Require Import gmap list sorting strings.

(** ** Python and numpy primitives *)

Inductive exn : Type :=
  | ZeroDivisionError
  | AttributeError
  | TypeError
  | ValueError
  | SklearnError (code : nat).

Inductive outcome (A : Type) : Type :=
  | Returns (a : A)
  | Raises (e : exn).
Arguments Returns {A} a.
Arguments Raises {A} e.

#[global] Instance Qlt_dec (x y : Q) : Decision (x < y)%Q.
Proof.
  destruct (Qlt_le_dec x y) as [Hlt | Hle].
  - left. exact Hlt.
  - right. intros Hlt. exact (Qle_not_lt _ _ Hle Hlt).
Defined.

#[global] Instance Qeq_decision (x y : Q) : Decision (x == y)%Q := Qeq_dec x y.

(** [int(x)] on a float truncates toward zero. *)
Definition py_int (x : Q) : Z :=
  if Qle_bool 0 x then Qfloor x else Qceiling x.

(** Python 2 [round(x)] rounds half away from zero. *)
Definition py_round (x : Q) : Z :=
  if Qle_bool 0 x then Qfloor (x + (1 # 2)) else Qceiling (x - (1 # 2)).

(** [np.sort] is ascending; [sorted(l, reverse=True)] is descending. *)
Definition np_sort (l : list Z) : list Z := merge_sort Z.le l.
Definition sorted_reverse (l : list Z) : list Z := merge_sort Z.ge l.

Fixpoint cumsum_from (acc : Z) (l : list Z) : list Z :=
  match l with
  | [] => []
  | x :: l' => (acc + x)%Z :: cumsum_from (acc + x)%Z l'
  end.
Definition np_cumsum (l : list Z) : list Z := cumsum_from 0 l.

Definition np_sum (l : list Z) : Z := foldr Z.add 0%Z l.

(** [np.sum(a < t)]: how many entries of [a] are below [t]. *)
Definition count_lt (a : list Z) (t : Z) : Z :=
  Z.of_nat (length (filter (λ c, (c < t)%Z) a)).

(** [np.arange(start, stop, step)] on integers. *)
Definition np_arange (start stop step : Z) : outcome (list Z) :=
  if (step =? 0)%Z then Raises ZeroDivisionError
  else
    let span := (stop - start)%Z in
    let n := (span / step + (if (span mod step =? 0)%Z then 0 else 1))%Z in
    Returns ((λ i : nat, (start + Z.of_nat i * step)%Z) <$> seq 0 (Z.to_nat n)).

(** [np.argmax] of a row: the first position of the maximum. *)
Fixpoint argmax_from (best : Q) (besti i : nat) (row : list Q) : nat :=
  match row with
  | [] => besti
  | x :: row' =>
      if decide (best < x)%Q then argmax_from x i (S i) row'
      else argmax_from best besti (S i) row'
  end.
Definition np_argmax (row : list Q) : outcome nat :=
  match row with
  | [] => Raises ValueError
  | x :: row' => Returns (argmax_from x 0 1 row')
  end.

Fixpoint argmax_rows (W : list (list Q)) : outcome (list nat) :=
  match W with
  | [] => Returns []
  | row :: W' =>
      match np_argmax row with
      | Raises e => Raises e
      | Returns i =>
          match argmax_rows W' with
          | Raises e => Raises e
          | Returns l => Returns (i :: l)
          end
      end
  end.

(** [np.apply_along_axis(func1d=np.argmax, axis=1, arr=W)]; numpy refuses an
    array with no row to iterate over. *)
Definition apply_argmax (W : list (list Q)) : outcome (list nat) :=
  match W with
  | [] => Raises ValueError
  | _ => argmax_rows W
  end.

(** [collections.Counter] over the topic labels. *)
Definition Counter (labels : list nat) : gmap nat nat :=
  foldl (λ m l, <[l := S (default 0%nat (m !! l))]> m) ∅ labels.

(** [Counter.values()], as the integers numpy receives. *)
Definition values (c : gmap nat nat) : list Z :=
  Z.of_nat <$> (map_to_list c).*2.

(** ** Matrices *)

Definition matrix : Type := list (list Q).

Definition shape0 (m : matrix) : Z := Z.of_nat (length m).
Definition shape1 (m : matrix) : Z :=
  match m with
  | [] => 0%Z
  | row :: _ => Z.of_nat (length row)
  end.

(** One row of [np.sum(sparse_matrix > 0, axis=1)]. *)
Definition row_token_count (row : list Q) : Z :=
  Z.of_nat (length (filter (λ x, (0 < x)%Q) row)).

(** ** The sklearn capability *)

(** The keyword arguments handed unchanged to [NMF(...)]. *)
Record nmf_params : Type := {
  init : string;
  solver : string;
  tol : Q;
  max_iter : Z;
  random_state : option Z;
  alpha : Q;
  l1_ratio : Q;
  shuffle : bool;
  nls_max_iter : Z;
  sparseness : option string;
  beta : Q;
  eta : Q;
  verbose : Z
}.

(** What a fit computes: document loadings [W] and topic weights [H]. *)
Record factorization : Type := {
  fact_W : list (list Q);
  fact_H : list (list Q)
}.

(** What a fitted estimator remembers: the matrix it was fitted on, its
    [components_], and (ghost) the position of the fit among all sklearn
    calls of the run. *)
Record fitted : Type := {
  fit_matrix : matrix;
  components_ : list (list Q);
  fit_index : nat
}.

(** An [NMF] estimator object. *)
Record NMF : Type := {
  n_components : Z;
  nmf_hyper : nmf_params;
  nmf_fitted : option fitted
}.

(** [sk_fit i p k m]: the factorization that sklearn computes for matrix
    [m] with [n_components = k] and parameters [p], as the [i]-th
    factorization of the run, or the exception it raises. *)
Class Sklearn : Type := {
  sk_fit : nat → nmf_params → Z → matrix → outcome factorization
}.

(** ** The estimator instance *)

(** A configuration value that may still be the string ['auto']. *)
Inductive setting (A : Type) : Type :=
  | Auto
  | Explicit (a : A).
Arguments Auto {A}.
Arguments Explicit {A} a.

Record ParetoNMF : Type := {
  noise_pct : setting Q;
  step : setting Z;
  start : Z;
  pnmf_verbose : bool;
  max_steps : Z;
  hyper : nmf_params;
  rich_topics : Z;
  corpus_count : option Z;
  rich_content : option Z;
  noise_content : option Z;
  topic_count : option Z;
  nmf : option NMF;
  topic_labels : option (list nat);
  topic_summary : option (gmap nat nat);
  previous_nmf : option NMF
}.

Definition set_noise_pct (v : setting Q) (s : ParetoNMF) : ParetoNMF :=
  {| noise_pct := v; step := step s; start := start s;
     pnmf_verbose := pnmf_verbose s; max_steps := max_steps s;
     hyper := hyper s; rich_topics := rich_topics s;
     corpus_count := corpus_count s; rich_content := rich_content s;
     noise_content := noise_content s; topic_count := topic_count s;
     nmf := nmf s; topic_labels := topic_labels s;
     topic_summary := topic_summary s; previous_nmf := previous_nmf s |}.

Definition set_step (v : setting Z) (s : ParetoNMF) : ParetoNMF :=
  {| noise_pct := noise_pct s; step := v; start := start s;
     pnmf_verbose := pnmf_verbose s; max_steps := max_steps s;
     hyper := hyper s; rich_topics := rich_topics s;
     corpus_count := corpus_count s; rich_content := rich_content s;
     noise_content := noise_content s; topic_count := topic_count s;
     nmf := nmf s; topic_labels := topic_labels s;
     topic_summary := topic_summary s; previous_nmf := previous_nmf s |}.

Definition set_rich_topics (v : Z) (s : ParetoNMF) : ParetoNMF :=
  {| noise_pct := noise_pct s; step := step s; start := start s;
     pnmf_verbose := pnmf_verbose s; max_steps := max_steps s;
     hyper := hyper s; rich_topics := v;
     corpus_count := corpus_count s; rich_content := rich_content s;
     noise_content := noise_content s; topic_count := topic_count s;
     nmf := nmf s; topic_labels := topic_labels s;
     topic_summary := topic_summary s; previous_nmf := previous_nmf s |}.

Definition set_corpus_count (v : Z) (s : ParetoNMF) : ParetoNMF :=
  {| noise_pct := noise_pct s; step := step s; start := start s;
     pnmf_verbose := pnmf_verbose s; max_steps := max_steps s;
     hyper := hyper s; rich_topics := rich_topics s;
     corpus_count := Some v; rich_content := rich_content s;
     noise_content := noise_content s; topic_count := topic_count s;
     nmf := nmf s; topic_labels := topic_labels s;
     topic_summary := topic_summary s; previous_nmf := previous_nmf s |}.

Definition set_rich_content (v : Z) (s : ParetoNMF) : ParetoNMF :=
  {| noise_pct := noise_pct s; step := step s; start := start s;
     pnmf_verbose := pnmf_verbose s; max_steps := max_steps s;
     hyper := hyper s; rich_topics := rich_topics s;
     corpus_count := corpus_count s; rich_content := Some v;
     noise_content := noise_content s; topic_count := topic_count s;
     nmf := nmf s; topic_labels := topic_labels s;
     topic_summary := topic_summary s; previous_nmf := previous_nmf s |}.

Definition set_noise_content (v : Z) (s : ParetoNMF) : ParetoNMF :=
  {| noise_pct := noise_pct s; step := step s; start := start s;
     pnmf_verbose := pnmf_verbose s; max_steps := max_steps s;
     hyper := hyper s; rich_topics := rich_topics s;
     corpus_count := corpus_count s; rich_content := rich_content s;
     noise_content := Some v; topic_count := topic_count s;
     nmf := nmf s; topic_labels := topic_labels s;
     topic_summary := topic_summary s; previous_nmf := previous_nmf s |}.

Definition set_topic_count (v : Z) (s : ParetoNMF) : ParetoNMF :=
  {| noise_pct := noise_pct s; step := step s; start := start s;
     pnmf_verbose := pnmf_verbose s; max_steps := max_steps s;
     hyper := hyper s; rich_topics := rich_topics s;
     corpus_count := corpus_count s; rich_content := rich_content s;
     noise_content := noise_content s; topic_count := Some v;
     nmf := nmf s; topic_labels := topic_labels s;
     topic_summary := topic_summary s; previous_nmf := previous_nmf s |}.

Definition set_nmf (v : NMF) (s : ParetoNMF) : ParetoNMF :=
  {| noise_pct := noise_pct s; step := step s; start := start s;
     pnmf_verbose := pnmf_verbose s; max_steps := max_steps s;
     hyper := hyper s; rich_topics := rich_topics s;
     corpus_count := corpus_count s; rich_content := rich_content s;
     noise_content := noise_content s; topic_count := topic_count s;
     nmf := Some v; topic_labels := topic_labels s;
     topic_summary := topic_summary s; previous_nmf := previous_nmf s |}.

Definition set_topic_labels (v : list nat) (s : ParetoNMF) : ParetoNMF :=
  {| noise_pct := noise_pct s; step := step s; start := start s;
     pnmf_verbose := pnmf_verbose s; max_steps := max_steps s;
     hyper := hyper s; rich_topics := rich_topics s;
     corpus_count := corpus_count s; rich_content := rich_content s;
     noise_content := noise_content s; topic_count := topic_count s;
     nmf := nmf s; topic_labels := Some v;
     topic_summary := topic_summary s; previous_nmf := previous_nmf s |}.

Definition set_topic_summary (v : gmap nat nat) (s : ParetoNMF) : ParetoNMF :=
  {| noise_pct := noise_pct s; step := step s; start := start s;
     pnmf_verbose := pnmf_verbose s; max_steps := max_steps s;
     hyper := hyper s; rich_topics := rich_topics s;
     corpus_count := corpus_count s; rich_content := rich_content s;
     noise_content := noise_content s; topic_count := topic_count s;
     nmf := nmf s; topic_labels := topic_labels s;
     topic_summary := Some v; previous_nmf := previous_nmf s |}.

Definition set_previous_nmf (v : NMF) (s : ParetoNMF) : ParetoNMF :=
  {| noise_pct := noise_pct s; step := step s; start := start s;
     pnmf_verbose := pnmf_verbose s; max_steps := max_steps s;
     hyper := hyper s; rich_topics := rich_topics s;
     corpus_count := corpus_count s; rich_content := rich_content s;
     noise_content := noise_content s; topic_count := topic_count s;
     nmf := nmf s; topic_labels := topic_labels s;
     topic_summary := topic_summary s; previous_nmf := Some v |}.

(** [ParetoNMF.__init__]; the attributes assigned later do not exist yet. *)
Definition __init__ (noise_pct : setting Q) (step : setting Z) (start : Z)
    (pnmf_verbose : bool) (max_steps : Z) (hyper : nmf_params) : ParetoNMF :=
  {| noise_pct := noise_pct; step := step; start := start;
     pnmf_verbose := pnmf_verbose; max_steps := max_steps;
     hyper := hyper; rich_topics := 0;
     corpus_count := None; rich_content := None; noise_content := None;
     topic_count := None; nmf := None; topic_labels := None;
     topic_summary := None; previous_nmf := None |}.

(** The default keyword arguments of [__init__]. *)
Definition default_hyper : nmf_params :=
  {| init := "nndsvdar"; solver := "cd"; tol := 1 # 10000; max_iter := 200;
     random_state := None; alpha := 0; l1_ratio := 0; shuffle := false;
     nls_max_iter := 2000; sparseness := None; beta := 1; eta := 1 # 10;
     verbose := 0 |}.
Definition default_ParetoNMF : ParetoNMF :=
  __init__ (Explicit (2 # 10)) (Explicit 2%Z) 2 false 100 default_hyper.

(** ** State and exceptions *)

(** One call into sklearn: [nmf.fit_transform(matrix)] of the loop (line
    225) or [nmf.fit(matrix)] of the back-off (line 244), with the
    [n_components] of the estimator. *)
Inductive sk_call : Type :=
  | FitTransform (k : Z)
  | Fit (k : Z).

(** The estimator instance together with the (ghost) history of sklearn
    calls, oldest first. *)
Record world : Type := {
  self : ParetoNMF;
  sk_calls : list sk_call
}.

Definition M (A : Type) : Type := world → outcome A * world.

Definition ret {A} (a : A) : M A := λ w, (Returns a, w).
Definition raise {A} (e : exn) : M A := λ w, (Raises e, w).
Definition bind {A B} (c : M A) (f : A → M B) : M B :=
  λ w, match c w with
       | (Returns a, w') => f a w'
       | (Raises e, w') => (Raises e, w')
       end.
Definition lift {A} (o : outcome A) : M A := λ w, (o, w).

Declare Scope py_scope.
Delimit Scope py_scope with py.
Notation "'let*' x := c 'in' k" := (bind c (λ x, k))
  (at level 10, x name, c at level 100, k at level 200) : py_scope.
Notation "c >> k" := (bind c (λ _, k))
  (at level 100, k at level 200, right associativity) : py_scope.
Open Scope py_scope.

(** Read an attribute of [self]. *)
Definition attr {A} (f : ParetoNMF → A) : M A := λ w, (Returns (f (self w)), w).
(** Read an attribute that may not have been assigned. *)
Definition attr_opt {A} (f : ParetoNMF → option A) : M A :=
  λ w, match f (self w) with
       | Some a => (Returns a, w)
       | None => (Raises AttributeError, w)
       end.
(** Assign an attribute of [self]. *)
Definition assign (f : ParetoNMF → ParetoNMF) : M unit :=
  λ w, (Returns tt, {| self := f (self w); sk_calls := sk_calls w |}).

(** A [for] loop whose body may [return]: [Some v] leaves the function
    with [v]; falling off the end is Python's implicit [return None]. *)
Fixpoint for_each {A R} (body : A → M (option R)) (l : list A) : M (option R) :=
  match l with
  | [] => ret None
  | x :: l' =>
      let* r := body x in
      match r with
      | Some v => ret (Some v)
      | None => for_each body l'
      end
  end.

(** ** The methods of [ParetoNMF] *)

(** Line 257-261: the topics, largest first, whose running total of
    documents stays below [rich_content]. *)
Definition topics_with_rich_content (summary : gmap nat nat) (rc : Z) : Z :=
  let sorted_topics := reverse (np_sort (values summary)) in
  let cum_sum := np_cumsum sorted_topics in
  count_lt cum_sum rc.

(** Lines 292-300: [token_count], [total_tokens], [majority_information]
    and [majority_docs] of the noise estimator. *)
Definition token_count (m : matrix) : list Z :=
  let sparse_matrix : list (list Q) := m in
  row_token_count <$> sparse_matrix.
Definition majority_information (m : matrix) (n_percent : Q) : Z :=
  let total_tokens := np_sum (token_count m) in
  py_int (inject_Z total_tokens * n_percent)%Q.
Definition majority_docs (m : matrix) (n_percent : Q) : Z :=
  let sorted_token_count := sorted_reverse (token_count m) in
  count_lt (np_cumsum sorted_token_count) (majority_information m n_percent).

(** Line 315: [int(round(float(matrix.shape[1])/matrix.shape[0]))]. *)
Definition auto_step (m : matrix) : Z :=
  py_round (inject_Z (shape1 m) / inject_Z (shape0 m))%Q.

Section Methods.
Context `{Sklearn}.

(** [NMF(n_components=k, init=self.init, ...)]: a fresh, unfitted
    estimator carrying the pass-through parameters. *)
Definition NMF_new (k : Z) : M NMF :=
  let* p := attr hyper in
  ret {| n_components := k; nmf_hyper := p; nmf_fitted := None |}.

(** The sklearn call behind [fit_transform] and [fit]: it is appended to
    the history and either raises or yields the fitted estimator and [W]. *)
Definition sk_run (call : Z → sk_call) (est : NMF) (m : matrix)
    : M (NMF * list (list Q)) :=
  λ w,
    let i := length (sk_calls w) in
    let w' := {| self := self w;
                 sk_calls := sk_calls w ++ [call (n_components est)] |} in
    match sk_fit i (nmf_hyper est) (n_components est) m with
    | Raises e => (Raises e, w')
    | Returns f =>
        (Returns ({| n_components := n_components est;
                     nmf_hyper := nmf_hyper est;
                     nmf_fitted := Some {| fit_matrix := m;
                                           components_ := fact_H f;
                                           fit_index := i |} |},
                  fact_W f), w')
    end.

(** [W = nmf.fit_transform(matrix)] *)
Definition fit_transform (est : NMF) (m : matrix) : M (NMF * list (list Q)) :=
  sk_run FitTransform est m.

(** [nmf.fit(matrix)] *)
Definition fit (est : NMF) (m : matrix) : M NMF :=
  let* r := sk_run Fit est m in ret (fst r).

(** [ParetoNMF._stopping_condition] (lines 250-272). *)
Definition _stopping_condition : M bool :=
  let* summary := attr_opt topic_summary in
  let* rc := attr_opt rich_content in
  let* rt := attr rich_topics in
  if (topics_with_rich_content summary rc =? rt)%Z then ret true
  else
    assign (set_rich_topics (topics_with_rich_content summary rc)) >>
    ret false.

(** [ParetoNMF._pareto_corpus_content] (lines 274-301). *)
Definition _pareto_corpus_content (m : matrix) (n_percent : Q) : M unit :=
  let total_documents := shape0 m in
  if (total_documents =? 0)%Z then raise ZeroDivisionError
  else
    assign (set_noise_pct
              (Explicit (1 - inject_Z (majority_docs m n_percent)
                               / inject_Z total_documents)%Q)).

(** [ParetoNMF._determine_auto_step_size] (lines 303-317). *)
Definition _determine_auto_step_size (m : matrix) : M unit :=
  if (shape0 m =? 0)%Z then raise ZeroDivisionError
  else
    assign (set_step (Explicit (auto_step m))) >>
    let* s := attr step in
    match s with
    | Explicit 0%Z => assign (set_step (Explicit 1%Z))
    | _ => ret tt
    end.

(** Lines 203-213 of [evaluate]: resolve the ['auto'] settings, derive
    the thresholds and build [topic_array]. *)
Definition evaluate_setup (m : matrix) : M (list Z) :=
  let* np := attr noise_pct in
  match np with
  | Auto => _pareto_corpus_content m (8 # 10)
  | Explicit _ => ret tt
  end >>
  let* st := attr step in
  match st with
  | Auto => _determine_auto_step_size m
  | Explicit _ => ret tt
  end >>
  assign (set_corpus_count (shape0 m)) >>
  let* cc := attr_opt corpus_count in
  let* np := attr noise_pct in
  match np with
  | Auto => raise TypeError
  | Explicit np =>
      assign (set_rich_content (py_int (inject_Z cc * (1 - np))%Q)) >>
      let* rc := attr_opt rich_content in
      assign (set_noise_content (cc - rc)) >>
      let* st := attr step in
      match st with
      | Auto => raise TypeError
      | Explicit st =>
          let* s0 := attr start in
          let* ms := attr max_steps in
          lift (np_arange s0 (ms * st + s0) st)
      end
  end.

(** Lines 215-230 of the loop body: factorize at [topic_count_i], label
    the documents, count the topics and ask the stability check. Yields
    the estimator just fitted and the answer of the check. *)
Definition probe (m : matrix) (topic_count_i : Z) : M (NMF * bool) :=
  assign (set_topic_count topic_count_i) >>
  let* k := attr_opt topic_count in
  let* est := NMF_new k in
  let* fitted_W := fit_transform est m in
  let nmf_i := fst fitted_W in
  assign (set_nmf nmf_i) >>
  let* labels := lift (apply_argmax (snd fitted_W)) in
  assign (set_topic_labels labels) >>
  let* labels' := attr_opt topic_labels in
  assign (set_topic_summary (Counter labels')) >>
  let* stop := _stopping_condition in
  ret (nmf_i, stop).

(** Lines 231-246: the stable branch. *)
Definition back_off (m : matrix) : M (option Z) :=
  let* k := attr_opt topic_count in
  let* st := attr step in
  match st with
  | Auto => raise TypeError
  | Explicit st =>
      assign (set_topic_count (k - st)) >>
      let* k' := attr_opt topic_count in
      let* est' := NMF_new k' in
      fit est' m >>
      let* prev := attr_opt previous_nmf in
      assign (set_nmf prev) >>
      let* result := attr_opt topic_count in
      ret (Some result)
  end.

(** The body of the [for] loop of [evaluate] (lines 215-248). *)
Definition iteration (m : matrix) (topic_count_i : Z) : M (option Z) :=
  let* r := probe m topic_count_i in
  if snd r then back_off m
  else
    assign (set_previous_nmf (fst r)) >>
    ret None.

(** [ParetoNMF.evaluate] (lines 193-248). The result [None] is Python's
    [None], returned when the loop ends without a [return]. *)
Definition evaluate (m : matrix) : M (option Z) :=
  let* topic_array := evaluate_setup m in
  for_each (iteration m) topic_array.

End Methods.

(** ** Reading the sklearn history *)

(** The topic counts the loop tried: the [fit_transform] calls, in order. *)
Definition tried (calls : list sk_call) : list Z :=
  omap (λ c, match c with FitTransform k => Some k | Fit _ => None end) calls.

(** The calls that a run from [w] to [w'] added. *)
Definition new_calls (w w' : world) : list sk_call :=
  drop (length (sk_calls w)) (sk_calls w').

(** A newly constructed estimator, before any sklearn call. *)
Definition fresh (s : ParetoNMF) : world := {| self := s; sk_calls := [] |}.

(** ** A small stand-in for sklearn, to run the model on examples *)

(** Document [i] loads on topic [i mod k] only. Like sklearn it rejects
    [n_components <= 0] and a matrix without rows. *)
Definition round_robin_row (k i : nat) : list Q :=
  (λ j : nat, if decide (j = i mod k)%nat then 1%Q else 0%Q) <$> seq 0 k.

Definition round_robin_fit (i : nat) (p : nmf_params) (k : Z) (m : matrix)
    : outcome factorization :=
  if (k <=? 0)%Z then Raises ValueError
  else
    match m with
    | [] => Raises ValueError
    | _ =>
        Returns {| fact_W := round_robin_row (Z.to_nat k) <$> seq 0 (length m);
                   fact_H := replicate (Z.to_nat k)
                               (replicate (Z.to_nat (shape1 m)) 0%Q) |}
    end.

Definition round_robin : Sklearn := {| sk_fit := round_robin_fit |}.

(** [docs n]: [n] documents over two terms, each using the first term. *)
Definition docs (n : nat) : matrix := replicate n [1%Q; 0%Q].

(** ** Observations of a run *)

(** [keeps f]: the run leaves the observation [f] of the world as it was. *)
Definition keeps {B} (f : world → B) : relation world := λ w w', f w' = f w.

(** [preserves R c]: every run of [c], normal or exceptional, relates the
    world before to the world after. *)
Definition preserves {A} (R : relation world) (c : M A) : Prop :=
  ∀ w, R w (snd (c w)).

(** ** The specification's wording of the two counts *)

(** "The number of leading topics whose cumulative sum is strictly less
    than the threshold": walk the counts in the given order, adding them
    up, and stop at the first running total that reaches [t]. *)
Fixpoint leading_below (acc : Z) (counts : list Z) (t : Z) : nat :=
  match counts with
  | [] => 0
  | x :: counts' =>
      if decide (acc + x < t)%Z then S (leading_below (acc + x) counts' t)
      else 0
  end.

(** "Its nonzero-term count", per document. *)
Definition nonzero_count (row : list Q) : Z :=
  Z.of_nat (length (filter (λ x, ¬ (x == 0)%Q) row)).

(** Every entry of the matrix is non-negative (the data model's invariant,
    required by the factorization). *)
Definition nonneg_matrix (m : matrix) : Prop :=
  Forall (Forall (λ x, (0 <= x)%Q)) m.

(** The product [total_tokens * n_percent] of line 298 is a double: the
    exact product [x] rounded to 53 bits. For a count up to [2^53] and a
    fraction between 0 and 1 that double is not below [floor x], which is
    an integer and so a double itself, and not above [x (1 + 2^-53)]. *)
Definition unit_roundoff : Q := 1 # 9007199254740992.
Definition double_of_product (x v : Q) : Prop :=
  (inject_Z (Qfloor x) <= v)%Q ∧ (v <= x * (1 + unit_roundoff))%Q.

(** The rounded product cannot reach the integer above the exact one. *)
Definition rounds_below_next_integer (total_tokens : Z) (n_percent : Q)
    : Prop :=
  let x := (inject_Z total_tokens * n_percent)%Q in
  (total_tokens ≤ 2 ^ 53)%Z ∧ (0 <= n_percent)%Q ∧ (n_percent <= 1)%Q ∧
  (x * (1 + unit_roundoff) < inject_Z (Qfloor x + 1))%Q.

(** The double [.8] that [evaluate] passes to the noise estimator. *)
Definition double_0_8 : Q := 3602879701896397 # 4503599627370496.

(** ** Example inputs *)

(** The stability check on given counts, threshold and previous count. *)
Definition checking (summary : gmap nat nat) (rc previous : Z) : world :=
  fresh (set_topic_summary summary
           (set_rich_content rc (set_rich_topics previous default_ParetoNMF))).

(** Three topics holding 10, 8 and 2 documents. *)
Definition summary_10_8_2 : gmap nat nat :=
  {[ 0%nat := 10%nat; 1%nat := 8%nat; 2%nat := 2%nat ]}.

(** Two topics holding 5 documents each. *)
Definition summary_5_5 : gmap nat nat := {[ 0%nat := 5%nat; 1%nat := 5%nat ]}.

(** The default settings with [step] and [max_steps] chosen by the caller. *)
Definition ParetoNMF_with (step max_steps : Z) : ParetoNMF :=
  __init__ (Explicit (2 # 10)) (Explicit step) 2 false max_steps default_hyper.

(** Both settings left to the estimators. *)
Definition auto_ParetoNMF : ParetoNMF :=
  __init__ Auto Auto 2 false 100 default_hyper.

(** Three documents over six terms: one uses all terms, two use one. *)
Definition skewed_docs : matrix :=
  [[1; 1; 1; 1; 1; 1]; [1; 0; 0; 0; 0; 0]; [0; 1; 0; 0; 0; 0]]%Q.

(** An estimator after one search that ended without a [return]. *)
Definition used_once : world :=
  snd (@evaluate round_robin (docs 4) (fresh (ParetoNMF_with 1 1))).

(** An estimator constructed with both settings ['auto'], after a search
    on four documents. *)
Definition auto_used_once : world :=
  snd (@evaluate round_robin (docs 4) (fresh auto_ParetoNMF)).

(** A world whose [noise_pct] has been assigned by the noise estimator. *)
Definition with_noise (q : Q) (w : world) : world :=
  {| self := set_noise_pct (Explicit q) (self w); sk_calls := sk_calls w |}.

(** A world whose [step] has been assigned by the step estimator. *)
Definition with_step (st : Z) (w : world) : world :=
  {| self := set_step (Explicit st) (self w); sk_calls := sk_calls w |}.

(** The counts [a], [a + st], ..., [a + (n - 1) st]. *)
Definition progression (a st : Z) (n : nat) : list Z :=
  (λ i : nat, (a + Z.of_nat i * st)%Z) <$> seq 0 n.

(** An estimator with [k] components that has been fitted on [m]. *)
Definition fitted_at (m : matrix) (k : Z) (est : NMF) : Prop :=
  n_components est = k ∧ ∃ fp, nmf_fitted est = Some fp ∧ fit_matrix fp = m.

(** ** Text processing ([src/tweet_text_processor.py])

    Modelling conventions.
    - A Python 2 [str] is a sequence of bytes; [lower] and [isspace] are
      those of the C locale.
    - The order in which a [set] is iterated, and what [re.findall] does
      with a pattern that starts with a metacharacter, are left to the
      class [PythonRuntime]; the patterns of the [twokenize] package are
      the class [Twokenize], and [multiprocessing] is [Multiprocessing],
      with [Pool.map] the results of the calls in order.
    - The [while] loop of [split_list] takes fuel; its floats are exact
      rationals, as they are in the code when the number of groups divides
      the number of documents. *)

(** A Python 2 [str] is a sequence of bytes. *)
Definition str : Type := list Ascii.ascii.

(** A literal. *)
Definition lit (s : string) : str := String.list_ascii_of_string s.

(** [c.isspace()] in the C locale: space, tab, newline, vertical tab, form
    feed and carriage return. *)
Definition py_isspace (c : Ascii.ascii) : bool :=
  match Ascii.nat_of_ascii c with
  | 32 | 9 | 10 | 11 | 12 | 13 => true
  | _ => false
  end.

(** [s.split()]: the maximal runs of non-whitespace bytes, in order; [cur]
    is the run being read. *)
Fixpoint py_split_from (cur : str) (s : str) : list str :=
  match s with
  | [] => match cur with [] => [] | _ => [cur] end
  | c :: s' =>
      if py_isspace c then
        match cur with
        | [] => py_split_from [] s'
        | _ => cur :: py_split_from [] s'
        end
      else py_split_from (cur ++ [c]) s'
  end.
Definition py_split (s : str) : list str := py_split_from [] s.

(** [sep.join(l)] *)
Fixpoint py_join (sep : str) (l : list str) : str :=
  match l with
  | [] => []
  | [x] => x
  | x :: l' => x ++ sep ++ py_join sep l'
  end.

(** [collections.Counter] over words. *)
Definition word_Counter (words : list str) : gmap str nat :=
  foldl (λ m x, <[x := S (default 0%nat (m !! x))]> m) ∅ words.

(** [replace_infrequent_words_with_tkn] (lines 139-162); the parameter
    [n_words] is not read. *)
Definition replace_infrequent_words_with_tkn (tokenized_tweets : list str)
    (n_words : Z) : list str :=
  let string_tweets := py_join (lit " ") tokenized_tweets in
  let word_count_dict := word_Counter (py_split string_tweets) in
  let infreq_word_dict :=
    filter (λ kv : str * nat, kv.2 ≤ 4) word_count_dict in
  let infreq_words : gset str := dom infreq_word_dict in
  (λ tweet,
     py_join (lit " ")
       ((λ token, if decide (token ∈ infreq_words) then lit "_tkn_" else token)
          <$> py_split tweet))
    <$> tokenized_tweets.

(** How often a word occurs in a list of words. *)
Definition occurrences (word : str) (words : list str) : nat :=
  length (filter (λ x, x = word) words).

(** All words of all tweets, in order. *)
Definition corpus (tweets : list str) : list str :=
  concat (py_split <$> tweets).

(** A word: not empty and free of whitespace. *)
Definition is_word (t : str) : Prop :=
  t ≠ [] ∧ Forall (λ c, py_isspace c = false) t.

(** What becomes of a word, given all words of the input: it is kept when
    it occurs more than four times there. *)
Definition keep_or_tkn (words : list str) (word : str) : str :=
  if decide (occurrences word words ≤ 4) then lit "_tkn_" else word.

(** *** Strings *)

(** [c.lower()] on a byte: the ASCII capitals only. *)
Definition lower_byte (c : Ascii.ascii) : Ascii.ascii :=
  let n := Ascii.nat_of_ascii c in
  if (65 <=? n)%nat && (n <=? 90)%nat then Ascii.ascii_of_nat (n + 32) else c.

(** [s.lower()] *)
Definition py_lower (s : str) : str := lower_byte <$> s.

(** [s.startswith(p)] *)
Fixpoint py_starts_with (p s : str) : bool :=
  match p, s with
  | [], _ => true
  | _ :: _, [] => false
  | a :: p', b :: s' => if decide (a = b) then py_starts_with p' s' else false
  end.

(** [s.replace(old, new)] for a non-empty [old]: scan from the left,
    replace each occurrence found and go on behind it; [skip] bytes of an
    occurrence just replaced are still to be passed over. *)
Fixpoint py_replace_from (skip : nat) (old new s : str) : str :=
  match s with
  | [] => []
  | c :: s' =>
      match skip with
      | S k => py_replace_from k old new s'
      | 0 =>
          if py_starts_with old s
          then new ++ py_replace_from (length old - 1) old new s'
          else c :: py_replace_from 0 old new s'
      end
  end.

(** [s.replace(old, new)]; an empty [old] matches before every byte and at
    the end. *)
Definition py_replace (old new s : str) : str :=
  match old with
  | [] => new ++ flat_map (λ c, c :: new) s
  | _ => py_replace_from 0 old new s
  end.

(** The maximal runs of equal bytes of a string, with their lengths. *)
Fixpoint runs (s : str) : list (Ascii.ascii * nat) :=
  match s with
  | [] => []
  | c :: s' =>
      match runs s' with
      | (c', n) :: g => if decide (c = c') then (c, S n) :: g
                        else (c, 1) :: (c', n) :: g
      | [] => [(c, 1)]
      end
  end.

(** The string made of the given runs. *)
Definition unruns (g : list (Ascii.ascii * nat)) : str :=
  flat_map (λ cn, replicate cn.2 cn.1) g.

(** *** The [re] and [set] of the Python runtime *)

(** The bytes with a meaning of their own in a regular expression. *)
Definition re_special (c : Ascii.ascii) : bool :=
  bool_decide (c ∈ lit ".^$*+?{}[]\|()").

(** [re.findall(letter + '{3,}', word)] for a byte that stands for itself
    in a pattern: the maximal runs of at least three [letter], from the
    left. *)
Definition findall_runs (letter : Ascii.ascii) (word : str) : list str :=
  omap (λ cn : Ascii.ascii * nat,
          if decide (cn.1 = letter ∧ 3 ≤ cn.2) then Some (replicate cn.2 cn.1)
          else None)
       (runs word).

(** What the source leaves to the runtime: the order in which a [set] of
    bytes is iterated (each element once), and what [re.findall] does with
    a pattern [letter + '{3,}'] whose first byte is special. *)
Class PythonRuntime : Type := {
  set_iter : str → list Ascii.ascii;
  set_iter_NoDup : ∀ s, NoDup (set_iter s);
  set_iter_elem : ∀ s c, c ∈ set_iter s ↔ c ∈ s;
  re_findall_special : Ascii.ascii → str → outcome (list str)
}.

(** [l.sort(key=len, reverse=True)]: longest first, equal lengths in their
    original order. *)
Fixpoint insert_by_len (x : str) (l : list str) : list str :=
  match l with
  | [] => [x]
  | y :: l' =>
      if decide (length x ≤ length y) then y :: insert_by_len x l'
      else x :: y :: l'
  end.
Definition sort_by_len_reverse (l : list str) : list str :=
  foldl (λ acc x, insert_by_len x acc) [] l.

Section TextMethods.
Context `{PythonRuntime}.

(** [re.findall(letter + '{3,}', word)] *)
Definition re_findall_repeat (letter : Ascii.ascii) (word : str)
    : outcome (list str) :=
  if re_special letter then re_findall_special letter word
  else Returns (findall_runs letter word).

(** The body of the loop over [letters] (lines 27-31). *)
Definition collapse_letter (letter : Ascii.ascii) (word : str) : outcome str :=
  match re_findall_repeat letter word with
  | Raises e => Raises e
  | Returns strings =>
      Returns (foldl (λ word char, py_replace char [letter; letter] word)
                 word (sort_by_len_reverse strings))
  end.

(** [fix_the_sequence_of_repeated_characters] (lines 15-32). *)
Definition fix_the_sequence_of_repeated_characters (word : str) : outcome str :=
  let word := py_lower word in
  let letters := set_iter word in
  foldl (λ acc letter,
           match acc with
           | Raises e => Raises e
           | Returns word => collapse_letter letter word
           end)
        (Returns word) letters.

End TextMethods.

(** Runs as [runs] produces them: none empty, neighbours of different
    bytes. *)
Fixpoint canonical (g : list (Ascii.ascii * nat)) : Prop :=
  match g with
  | [] => True
  | cn :: g' =>
      0 < cn.2 ∧
      match g' with [] => True | cn' :: _ => cn.1 ≠ cn'.1 end ∧
      canonical g'
  end.

(** A run of three or more, cut down to two. *)
Definition cap_run (cn : Ascii.ascii * nat) : Ascii.ascii * nat :=
  (cn.1, if decide (3 ≤ cn.2) then 2 else cn.2).

(** The same for the runs of one byte only. *)
Definition cap_run_of (letter : Ascii.ascii) (cn : Ascii.ascii * nat)
    : Ascii.ascii * nat :=
  if decide (cn.1 = letter) then cap_run cn else cn.

(** The iteration order that takes the bytes as they first occur. *)
Definition first_occurrence : PythonRuntime := {|
  set_iter := remove_dups;
  set_iter_NoDup := NoDup_remove_dups;
  set_iter_elem := λ s c, elem_of_remove_dups s c;
  re_findall_special := λ _ _, Raises ValueError
|}.

(** A run of exactly [L] bytes [c], cut down to two. *)
Definition collapse_exact (c : Ascii.ascii) (L : nat) (cn : Ascii.ascii * nat)
    : Ascii.ascii * nat :=
  if decide (cn.1 = c ∧ cn.2 = L) then (c, 2) else cn.

(** Longest first. *)
Definition longer_first : relation str := λ a b, length b ≤ length a.

(** *** Splitting a list ([split_list], lines 92-108) *)

(** Where a slice bound [i] falls in a list of [len] items: a negative
    bound counts from the end, and both kinds are clipped to the list. *)
Definition py_slice_bound (len i : Z) : Z :=
  if (i <? 0)%Z then Z.max 0 (i + len) else Z.min i len.

(** [l[i:j]] *)
Definition py_slice {A : Type} (l : list A) (i j : Z) : list A :=
  let len := Z.of_nat (length l) in
  let a := py_slice_bound len i in
  let b := py_slice_bound len j in
  take (Z.to_nat (b - a)) (drop (Z.to_nat a) l).

(** The [while] loop of [split_list] (lines 105-107). [fuel] bounds the
    number of iterations; [None] says that it did not suffice. *)
Fixpoint split_list_loop {A : Type} (fuel : nat) (doc_list : list A)
    (avg last : Q) (split_lists : list (list A)) : option (list (list A)) :=
  match fuel with
  | 0 => None
  | S fuel' =>
      if decide (last < inject_Z (Z.of_nat (length doc_list)))%Q
      then split_list_loop fuel' doc_list avg (last + avg)%Q
             (split_lists
                ++ [py_slice doc_list (py_int last) (py_int (last + avg))])
      else Some split_lists
  end.

(** [split_list] (lines 92-108); dividing by [float(0)] raises. *)
Definition split_list {A : Type} (fuel : nat) (doc_list : list A)
    (n_groups : Z) : option (outcome (list (list A))) :=
  if decide (n_groups = 0)%Z then Some (Raises ZeroDivisionError)
  else
    let avg := (inject_Z (Z.of_nat (length doc_list)) / inject_Z n_groups)%Q in
    Returns <$> split_list_loop fuel doc_list avg 0 [].

(** The [i]-th of the consecutive pieces of [q] items each. *)
Definition chunk {A : Type} (q : nat) (l : list A) (i : nat) : list A :=
  take q (drop (i * q) l).

(** *** The tokens of a tweet ([tokenize_tweet], lines 35-89) *)

(** How a call ends here: beside the exceptions of [exn], indexing an
    empty string raises [IndexError]. *)
Inductive answer (A : Type) : Type :=
  | Gives (a : A)
  | RaisesIndexError
  | RaisesOther (e : exn).
Arguments Gives {A} a.
Arguments RaisesIndexError {A}.
Arguments RaisesOther {A} e.

(** A list comprehension, and [Pool.map], over a function that may raise:
    the results in order, or the first exception. *)
Fixpoint answer_map {A B : Type} (f : A → answer B) (l : list A)
    : answer (list B) :=
  match l with
  | [] => Gives []
  | x :: l' =>
      match f x with
      | Gives y =>
          match answer_map f l' with
          | Gives ys => Gives (y :: ys)
          | RaisesIndexError => RaisesIndexError
          | RaisesOther e => RaisesOther e
          end
      | RaisesIndexError => RaisesIndexError
      | RaisesOther e => RaisesOther e
      end
  end.

(** [string.punctuation] *)
Definition string_punctuation : str :=
  lit "!" ++ [Ascii.ascii_of_nat 34] ++ lit "#$%&'()*+,-./:;<=>?@[\]^_`{|}~".

(** [string.maketrans(frm, to)]: the table that sends each byte of [frm]
    to the byte of [to] at the same place (the last place, where a byte
    occurs twice) and every other byte to itself. *)
Definition string_maketrans (frm to : str)
    : outcome (Ascii.ascii → Ascii.ascii) :=
  if decide (length frm = length to)
  then Returns (λ c, foldl (λ (acc : Ascii.ascii) (ft : Ascii.ascii * Ascii.ascii),
                              if decide (c = ft.1) then ft.2 else acc)
                           c (zip frm to))
  else Raises ValueError.

(** [s.translate(table)] *)
Definition py_translate (table : Ascii.ascii → Ascii.ascii) (s : str) : str :=
  table <$> s.

(** [s * n] *)
Definition py_repeat (s : str) (n : nat) : str := concat (replicate n s).

(** [type(token) == int] for a token that is a [str]. *)
Definition type_is_int (token : str) : bool := false.

(** The patterns and the emoticon analysis of the [twokenize] package;
    [X_search token] says whether [tw.X.search(token)] finds a match. *)
Class Twokenize : Type := {
  Url_RE_search : str → bool;
  Entity_RE_search : str → bool;
  Time_RE_search : str → bool;
  NumNum_RE_search : str → bool;
  NumberWithCommas_RE_search : str → bool;
  Separators_RE_search : str → bool;
  Emoticon_RE_search : str → bool;
  analyze_tweet : str → str
}.

(** [multiprocessing]: the number of processors. *)
Class Multiprocessing : Type := {
  cpu_count : nat;
  cpu_count_pos : 0 < cpu_count
}.

Section Tokenize.
Context `{PythonRuntime} `{Twokenize}.

(** The body of the loop over the tokens (lines 50-88): what is appended
    to [token_list], if anything. *)
Definition tokenize_token (token : str) : answer (option str) :=
  let url := Url_RE_search token in
  let mentions := Entity_RE_search token in
  let time := Time_RE_search token in
  let numnum := NumNum_RE_search token in
  let numcomma := NumberWithCommas_RE_search token in
  let separators := Separators_RE_search token in
  let emoticon := Emoticon_RE_search token in
  if url then Gives (Some (lit "_url_"))
  else
    match token with
    | [] => RaisesIndexError
    | first :: _ =>
        if decide ([first] = lit "#") then Gives (Some (lit "_hash_"))
        else if time then Gives None
        else if separators then Gives None
        else if numcomma then Gives None
        else if numnum then Gives None
        else if decide ([first] = lit "@") then Gives (Some (lit "_user_"))
        else if mentions then Gives (Some (lit "_user_"))
        else if decide (token = lit "RT") then Gives None
        else if decide (token = lit "Retweeted") then Gives None
        else if type_is_int token then Gives (Some (lit "_number_"))
        else if emoticon then Gives (Some (py_lower (analyze_tweet token)))
        else
          match string_maketrans string_punctuation
                  (py_repeat (lit " ") (length string_punctuation)) with
          | Raises e => RaisesOther e
          | Returns replace_punctuation =>
              let token := py_translate replace_punctuation token in
              match fix_the_sequence_of_repeated_characters token with
              | Raises e => RaisesOther e
              | Returns token => Gives (Some token)
              end
          end
    end.

(** The loop over the tokens (line 49). *)
Fixpoint tokenize_tokens (tokens : list str) (token_list : list str)
    : answer (list str) :=
  match tokens with
  | [] => Gives token_list
  | token :: tokens' =>
      match tokenize_token token with
      | Gives (Some piece) => tokenize_tokens tokens' (token_list ++ [piece])
      | Gives None => tokenize_tokens tokens' token_list
      | RaisesIndexError => RaisesIndexError
      | RaisesOther e => RaisesOther e
      end
  end.

(** [tokenize_tweet] (lines 35-89) *)
Definition tokenize_tweet (text : str) : answer str :=
  let text := py_replace [Ascii.ascii_of_nat 10] (lit " ") text in
  match tokenize_tokens (py_split text) [] with
  | Gives token_list => Gives (py_join (lit " ") token_list)
  | RaisesIndexError => RaisesIndexError
  | RaisesOther e => RaisesOther e
  end.

(** [tokenize_tweet_list] (lines 127-136) *)
Definition tokenize_tweet_list (split_docs : list str) : answer (list str) :=
  answer_map tokenize_tweet split_docs.

(** [multiprocess_tokenize_tweet] (lines 111-124); [None] says that the
    [fuel] given to [split_list] did not suffice. *)
Definition multiprocess_tokenize_tweet `{Multiprocessing} (fuel : nat)
    (documents : list str) : option (answer (list str)) :=
  let n_processes := Z.of_nat cpu_count in
  match split_list fuel documents n_processes with
  | None => None
  | Some (Raises e) => Some (RaisesOther e)
  | Some (Returns split_docs) =>
      Some match answer_map tokenize_tweet_list split_docs with
           | Gives tokenized_tweets => Gives (concat tokenized_tweets)
           | RaisesIndexError => RaisesIndexError
           | RaisesOther e => RaisesOther e
           end
  end.

End Tokenize.

(** A piece of the result of [tokenize_tweet]: a marker, an emoticon
    analysis in lower case, or a token with neither punctuation nor
    capitals nor a byte three times in a row. *)
Definition marker (piece : str) : Prop :=
  piece ∈ [lit "_url_"; lit "_hash_"; lit "_user_"].
Definition cleaned (piece : str) : Prop :=
  Forall (λ c, (c ∉ string_punctuation) ∧ lower_byte c = c) piece ∧
  ∀ p c t, piece ≠ p ++ c :: c :: c :: t.
Definition piece_ok `{Twokenize} (piece : str) : Prop :=
  marker piece ∨ (∃ token, piece = py_lower (analyze_tweet token)) ∨
  cleaned piece.

(** A [twokenize] that finds nothing but the URLs starting with [http],
    and two processors. *)
Definition http_only : Twokenize := {|
  Url_RE_search := λ token, py_starts_with (lit "http") token;
  Entity_RE_search := λ _, false;
  Time_RE_search := λ _, false;
  NumNum_RE_search := λ _, false;
  NumberWithCommas_RE_search := λ _, false;
  Separators_RE_search := λ _, false;
  Emoticon_RE_search := λ _, false;
  analyze_tweet := λ _, lit "NA"
|}.
Definition two_processors : Multiprocessing :=
  {| cpu_count := 2; cpu_count_pos := Nat.lt_0_2 |}.

(** * Properties *)

(** ** Sorting, running sums and counting *)

Lemma cumsum_from_lower_bound (l : list Z) (acc : Z) :
  Forall (λ x, (0 ≤ x)%Z) l → Forall (λ c, (acc ≤ c)%Z) (cumsum_from acc l).
Proof.
  intros Hl. revert acc.
  induction Hl as [| x l Hx _ IH]; intros acc; simpl; constructor.
  - lia.
  - eapply Forall_impl; [apply IH |]. simpl. intros c Hc. lia.
Qed.

Lemma filter_none_above (t : Z) (l : list Z) :
  Forall (λ c, (t ≤ c)%Z) l → filter (λ c, (c < t)%Z) l = [].
Proof.
  induction 1 as [| c l Hc _ IH]; [done |].
  rewrite filter_cons. destruct (decide (c < t)%Z); [lia | exact IH].
Qed.

(** On non-negative counts the running totals never decrease, so the
    totals below [t] are exactly the leading ones. *)
Lemma count_lt_leading (l : list Z) (acc t : Z) :
  Forall (λ x, (0 ≤ x)%Z) l →
  count_lt (cumsum_from acc l) t = Z.of_nat (leading_below acc l t).
Proof.
  unfold count_lt. intros Hl. revert acc.
  induction Hl as [| x l Hx Hl IH]; intros acc; [done |].
  simpl. rewrite filter_cons.
  destruct (decide (acc + x < t)%Z) as [Hlt | Hge].
  - simpl. f_equal. f_equal. specialize (IH (acc + x)%Z). lia.
  - rewrite filter_none_above; [done |].
    eapply Forall_impl; [apply (cumsum_from_lower_bound l (acc + x)%Z Hl) |].
    simpl. intros c Hc. lia.
Qed.

Lemma values_nonneg (summary : gmap nat nat) :
  Forall (λ x, (0 ≤ x)%Z) (values summary).
Proof.
  unfold values. apply Forall_fmap, Forall_forall. intros n _. simpl. lia.
Qed.

#[local] Instance Zge_trans : Transitive Z.ge.
Proof. intros x y z. lia. Qed.
#[local] Instance Zge_antisymm : AntiSymm eq Z.ge.
Proof. intros x y. lia. Qed.
#[local] Instance Zge_total : Total Z.ge.
Proof. intros x y. lia. Qed.

(** [np.sort(...)[::-1]] is the descending arrangement of its input. *)
Lemma np_sort_reversed_desc (l : list Z) :
  Sorted Z.ge (reverse (np_sort l)) ∧ reverse (np_sort l) ≡ₚ l.
Proof.
  split.
  - assert (Hs : Sorted (flip Z.le) (reverse (np_sort l))).
    { apply Sorted_reverse, Sorted_merge_sort. intros x y. lia. }
    rewrite <- (list_fmap_id (reverse (np_sort l))).
    eapply Sorted_fmap; [| exact Hs]. unfold flip. simpl. intros x y. lia.
  - rewrite reverse_Permutation. apply merge_sort_Permutation.
Qed.

Lemma sorted_reverse_desc (l : list Z) :
  Sorted Z.ge (sorted_reverse l) ∧ sorted_reverse l ≡ₚ l.
Proof.
  split.
  - apply Sorted_merge_sort, _.
  - apply merge_sort_Permutation.
Qed.

(** Two descending arrangements of the same counts are the same list. *)
Lemma desc_unique (l1 l2 l : list Z) :
  Sorted Z.ge l1 → l1 ≡ₚ l → Sorted Z.ge l2 → l2 ≡ₚ l → l1 = l2.
Proof.
  intros Hs1 Hp1 Hs2 Hp2.
  apply (Sorted_unique Z.ge); [done | done |]. by rewrite Hp1, Hp2.
Qed.

(** The count of the stability check, in the specification's words. *)
Lemma topics_with_rich_content_leading (summary : gmap nat nat) (rc : Z)
    (desc : list Z) :
  desc ≡ₚ values summary → Sorted Z.ge desc →
  topics_with_rich_content summary rc = Z.of_nat (leading_below 0 desc rc).
Proof.
  intros Hp Hs. unfold topics_with_rich_content, np_cumsum.
  destruct (np_sort_reversed_desc (values summary)) as [Hs' Hp'].
  rewrite (desc_unique _ desc (values summary) Hs' Hp' Hs Hp).
  apply count_lt_leading. rewrite Hp. apply values_nonneg.
Qed.

(** ** The stability check *)

(** C1. For every topic-size distribution, every integer threshold
    [rich_content] and every integer previous count [rich_topics], the
    stability check computes the number of leading topics, in descending
    order of size, whose running total is strictly below the threshold;
    it answers "stable" exactly when that number equals the previous
    count, and otherwise stores the number as the new previous count. *)
Theorem stopping_condition_spec (w : world) (summary : gmap nat nat) (rc : Z) :
  topic_summary (self w) = Some summary →
  rich_content (self w) = Some rc →
  let t := topics_with_rich_content summary rc in
  (∀ desc : list Z,
     desc ≡ₚ values summary → Sorted Z.ge desc →
     t = Z.of_nat (leading_below 0 desc rc)) ∧
  (t = rich_topics (self w) → _stopping_condition w = (Returns true, w)) ∧
  (t ≠ rich_topics (self w) →
   _stopping_condition w =
     (Returns false,
      {| self := set_rich_topics t (self w); sk_calls := sk_calls w |})).
Proof.
  intros Hsum Hrc t. split; [| split].
  - intros desc Hp Hs. by apply topics_with_rich_content_leading.
  - intros Heq. unfold _stopping_condition, bind, attr_opt, attr, ret.
    rewrite Hsum, Hrc. fold t. by rewrite (proj2 (Z.eqb_eq _ _) Heq).
  - intros Hne. unfold _stopping_condition, bind, attr_opt, attr, ret, assign.
    rewrite Hsum, Hrc. fold t. by rewrite (proj2 (Z.eqb_neq _ _) Hne).
Qed.

(** C1 at two topics of five documents, threshold 8 and previous count 0:
    one running total is below 8, so the check is not stable and stores 1. *)
Lemma stopping_condition_spec_witness :
  topic_summary (self (checking summary_5_5 8 0)) = Some summary_5_5 ∧
  rich_content (self (checking summary_5_5 8 0)) = Some 8%Z ∧
  topics_with_rich_content summary_5_5 8 = Z.of_nat (leading_below 0 [5; 5]%Z 8) ∧
  _stopping_condition (checking summary_5_5 8 0) =
    (Returns false, checking summary_5_5 8 1).
Proof.
  pose proof (stopping_condition_spec (checking summary_5_5 8 0)
                summary_5_5 8 eq_refl eq_refl) as [Hlead [_ Hne]].
  split; [reflexivity |]. split; [reflexivity |]. split.
  - apply Hlead.
    + vm_compute. reflexivity.
    + repeat constructor. lia.
  - rewrite Hne; [reflexivity |]. vm_compute. discriminate.
Defined.

(** The claim C5 as written fails: on counts 10, 8, 2 with threshold 15
    the check does not find two topics and does not answer "stable". *)
Lemma stopping_condition_10_8_2_not_stable :
  ¬ (topics_with_rich_content summary_10_8_2 15 = 2%Z ∧
     fst (_stopping_condition (checking summary_10_8_2 15 2)) = Returns true).
Proof. vm_compute. intros [Hcount _]. discriminate Hcount. Qed.

(** C5 (amended). On counts 10, 8, 2 with threshold 15 and previous count 2
    the running totals are 10, 18, 20; only the first is below 15, so the
    check computes 1, answers "not stable" and stores 1 as the new previous
    count. *)
Theorem stopping_condition_10_8_2 :
  np_cumsum (reverse (np_sort (values summary_10_8_2))) = [10; 18; 20]%Z ∧
  topics_with_rich_content summary_10_8_2 15 = 1%Z ∧
  _stopping_condition (checking summary_10_8_2 15 2) =
    (Returns false, checking summary_10_8_2 15 1).
Proof. split; [| split]; vm_compute; reflexivity. Qed.

(** ** Reasoning about runs *)

Section Preserves.
Context {B : Type} (f : world → B).

Lemma preserves_ret {A} (a : A) : preserves (keeps f) (ret a).
Proof. intros w. reflexivity. Qed.

Lemma preserves_raise {A} (e : exn) : preserves (keeps f) (raise (A := A) e).
Proof. intros w. reflexivity. Qed.

Lemma preserves_lift {A} (o : outcome A) : preserves (keeps f) (lift o).
Proof. intros w. reflexivity. Qed.

Lemma preserves_attr {A} (g : ParetoNMF → A) : preserves (keeps f) (attr g).
Proof. intros w. reflexivity. Qed.

Lemma preserves_attr_opt {A} (g : ParetoNMF → option A) :
  preserves (keeps f) (attr_opt g).
Proof. intros w. unfold attr_opt. destruct (g (self w)); reflexivity. Qed.

Lemma preserves_bind {A A'} (c : M A) (k : A → M A') :
  preserves (keeps f) c → (∀ a, preserves (keeps f) (k a)) →
  preserves (keeps f) (bind c k).
Proof.
  intros Hc Hk w. unfold bind. specialize (Hc w).
  destruct (c w) as [[a | e] w1]; simpl in *; [| exact Hc].
  unfold keeps in *. rewrite <- Hc. apply Hk.
Qed.

Lemma preserves_for_each {A A'} (body : A → M (option A')) (l : list A) :
  (∀ x, preserves (keeps f) (body x)) → preserves (keeps f) (for_each body l).
Proof.
  intros Hbody. induction l as [| x l IH]; simpl.
  - apply preserves_ret.
  - apply preserves_bind; [apply Hbody |].
    intros [v |]; [apply preserves_ret | exact IH].
Qed.
End Preserves.

Lemma preserves_assign {B} (f : world → B) (g : ParetoNMF → ParetoNMF) :
  (∀ w, f {| self := g (self w); sk_calls := sk_calls w |} = f w) →
  preserves (keeps f) (assign g).
Proof. intros Hg w. apply Hg. Qed.

(** Attribute reads, assignments that do not touch the observed field and
    control flow are discharged structurally. *)
Ltac frame_step :=
  lazymatch goal with
  | |- preserves _ (bind _ _) => apply preserves_bind; [| intros ?]
  | |- preserves _ (ret _) => apply preserves_ret
  | |- preserves _ (raise _) => apply preserves_raise
  | |- preserves _ (lift _) => apply preserves_lift
  | |- preserves _ (attr _) => apply preserves_attr
  | |- preserves _ (attr_opt _) => apply preserves_attr_opt
  | |- preserves _ (assign _) => apply preserves_assign; intros ?; reflexivity
  | |- preserves _ (for_each _ _) => apply preserves_for_each; intros ?
  | |- preserves _ (match ?x with _ => _ end) => destruct x
  end.
Ltac frame := repeat frame_step.

Section Frames.
Context `{Sklearn}.

(** A sklearn call changes no attribute of the instance. *)
Lemma sk_run_self (call : Z → sk_call) (est : NMF) (m : matrix) :
  preserves (keeps self) (sk_run call est m).
Proof.
  intros w. unfold keeps, sk_run.
  destruct (sk_fit _ _ _ _); reflexivity.
Qed.

Lemma sk_run_keeps {B} (f : ParetoNMF → B) (call : Z → sk_call) (est : NMF)
    (m : matrix) :
  preserves (keeps (λ w, f (self w))) (sk_run call est m).
Proof. intros w. unfold keeps. f_equal. apply sk_run_self. Qed.

(** The settings of the search are never written by the stability check,
    the loop body or the loop. *)
Lemma stopping_condition_keeps {B} (f : ParetoNMF → B) :
  (∀ v s, f (set_rich_topics v s) = f s) →
  preserves (keeps (λ w, f (self w))) _stopping_condition.
Proof.
  intros Hf. unfold _stopping_condition. frame.
  apply preserves_assign. intros w. apply Hf.
Qed.

Lemma probe_keeps {B} (f : ParetoNMF → B) (m : matrix) (k : Z) :
  (∀ v s, f (set_rich_topics v s) = f s) →
  (∀ v s, f (set_topic_count v s) = f s) →
  (∀ v s, f (set_nmf v s) = f s) →
  (∀ v s, f (set_topic_labels v s) = f s) →
  (∀ v s, f (set_topic_summary v s) = f s) →
  preserves (keeps (λ w, f (self w))) (probe m k).
Proof.
  intros Hrt Htc Hnmf Hlab Hsum.
  assert (Hassign : ∀ g, (∀ s, f (g s) = f s) →
            preserves (keeps (λ w, f (self w))) (assign g)).
  { intros g Hg. apply preserves_assign. intros w. apply Hg. }
  unfold probe, NMF_new, fit_transform.
  repeat first
    [ apply sk_run_keeps
    | apply stopping_condition_keeps; exact Hrt
    | apply Hassign; first [ apply Htc | apply Hnmf | apply Hlab | apply Hsum ]
    | frame_step ].
Qed.

Lemma back_off_keeps {B} (f : ParetoNMF → B) (m : matrix) :
  (∀ v s, f (set_topic_count v s) = f s) →
  (∀ v s, f (set_nmf v s) = f s) →
  preserves (keeps (λ w, f (self w))) (back_off m).
Proof.
  intros Htc Hnmf.
  assert (Hassign : ∀ g, (∀ s, f (g s) = f s) →
            preserves (keeps (λ w, f (self w))) (assign g)).
  { intros g Hg. apply preserves_assign. intros w. apply Hg. }
  unfold back_off, NMF_new, fit.
  repeat first
    [ apply sk_run_keeps
    | apply Hassign; first [ apply Htc | apply Hnmf ]
    | frame_step ].
Qed.

Lemma iteration_keeps {B} (f : ParetoNMF → B) (m : matrix) (k : Z) :
  (∀ v s, f (set_rich_topics v s) = f s) →
  (∀ v s, f (set_topic_count v s) = f s) →
  (∀ v s, f (set_nmf v s) = f s) →
  (∀ v s, f (set_topic_labels v s) = f s) →
  (∀ v s, f (set_topic_summary v s) = f s) →
  (∀ v s, f (set_previous_nmf v s) = f s) →
  preserves (keeps (λ w, f (self w))) (iteration m k).
Proof.
  intros Hrt Htc Hnmf Hlab Hsum Hprev. unfold iteration.
  apply preserves_bind; [by apply probe_keeps |].
  intros [est [|]]; simpl; [by apply back_off_keeps |].
  apply preserves_bind; [| intros ?; apply preserves_ret].
  apply preserves_assign. intros w. apply Hprev.
Qed.

(** The set-up of [evaluate] makes no sklearn call and writes neither
    [rich_topics] nor [previous_nmf], [start] or [max_steps]. *)
Lemma evaluate_setup_keeps {B} (f : world → B) (m : matrix) :
  (∀ v w, f {| self := set_noise_pct v (self w); sk_calls := sk_calls w |} = f w) →
  (∀ v w, f {| self := set_step v (self w); sk_calls := sk_calls w |} = f w) →
  (∀ v w, f {| self := set_corpus_count v (self w); sk_calls := sk_calls w |} = f w) →
  (∀ v w, f {| self := set_rich_content v (self w); sk_calls := sk_calls w |} = f w) →
  (∀ v w, f {| self := set_noise_content v (self w); sk_calls := sk_calls w |} = f w) →
  preserves (keeps f) (evaluate_setup m).
Proof.
  intros Hnp Hst Hcc Hrc Hnc.
  unfold evaluate_setup, _pareto_corpus_content, _determine_auto_step_size.
  repeat first
    [ apply preserves_assign;
      first [ apply Hnp | apply Hst | apply Hcc | apply Hrc | apply Hnc ]
    | frame_step ].
Qed.
End Frames.

(** ** The sklearn calls of a search *)

Ltac run_monad :=
  unfold bind, assign, attr, attr_opt, ret, raise, lift; simpl.

Section Calls.
Context `{Sklearn}.

Lemma stopping_condition_calls (w : world) :
  sk_calls (snd (_stopping_condition w)) = sk_calls w.
Proof.
  revert w. change (preserves (keeps sk_calls) _stopping_condition).
  unfold _stopping_condition. frame.
Qed.

(** The first half of an iteration makes exactly one call:
    [fit_transform] at the topic count of the iteration. *)
Lemma probe_calls (m : matrix) (k : Z) (w : world) :
  sk_calls (snd (probe m k w)) = sk_calls w ++ [FitTransform k].
Proof.
  unfold probe, NMF_new, fit_transform, sk_run. run_monad.
  destruct (sk_fit _ _ _ _) as [fct | e]; simpl; [| done].
  destruct (apply_argmax _) as [labels | e]; simpl; [| done].
  match goal with
  | |- context [_stopping_condition ?w0] =>
      pose proof (stopping_condition_calls w0) as Hsc;
      destruct (_stopping_condition w0) as [[b | e] w1]
  end; simpl in *; exact Hsc.
Qed.

(** The stable branch makes at most one call, a [fit]. *)
Lemma back_off_calls (m : matrix) (w : world) :
  ∃ tl, sk_calls (snd (back_off m w)) = sk_calls w ++ tl ∧
        (tl = [] ∨ ∃ k', tl = [Fit k']).
Proof.
  unfold back_off, NMF_new, fit, sk_run. run_monad.
  destruct (topic_count (self w)) as [k |]; simpl;
    [| exists []; rewrite app_nil_r; auto].
  destruct (step (self w)) as [| st]; simpl;
    [exists []; rewrite app_nil_r; auto |].
  exists [Fit (k - st)%Z]. split; [| eauto].
  destruct (sk_fit _ _ _ _) as [fct | e]; simpl; [| done].
  destruct (previous_nmf (self w)); simpl; done.
Qed.

Lemma iteration_calls (m : matrix) (k : Z) (w : world) :
  ∃ tl, sk_calls (snd (iteration m k w)) = sk_calls w ++ FitTransform k :: tl ∧
        (tl = [] ∨ ∃ k', tl = [Fit k']) ∧
        (fst (iteration m k w) = Returns None → tl = []).
Proof.
  unfold iteration, bind. pose proof (probe_calls m k w) as Hp.
  destruct (probe m k w) as [[[est stop] | e] w1]; simpl in *.
  - destruct stop.
    + destruct (back_off_calls m w1) as (tl & Hb & Htl).
      exists tl. rewrite Hb, Hp, <- app_assoc. split; [done |]. split; [done |].
      intros Hnone. revert Hnone. clear.
      unfold back_off, NMF_new, fit, sk_run. run_monad.
      repeat (case_match; simpl; try done).
    + exists []. run_monad. rewrite Hp. auto.
  - exists []. rewrite Hp. auto.
Qed.

(** The loop tries the entries of [topic_array] in order, stops at some
    point, and makes at most one further call. *)
Lemma for_each_calls (m : matrix) (l : list Z) (w : world) :
  ∃ n tl, n ≤ length l ∧
    sk_calls (snd (for_each (iteration m) l w)) =
      sk_calls w ++ (FitTransform <$> take n l) ++ tl ∧
    (tl = [] ∨ ∃ k', tl = [Fit k']).
Proof.
  revert w. induction l as [| k l IH]; intros w.
  - exists 0, []. simpl. rewrite app_nil_r. auto with lia.
  - simpl. unfold bind.
    destruct (iteration_calls m k w) as (tl & Hc & Htl & Hnone).
    destruct (iteration m k w) as [[[v |] | e] w1]; simpl in *.
    + exists 1, tl. rewrite Hc. simpl. auto with lia.
    + rewrite (Hnone eq_refl) in Hc.
      destruct (IH w1) as (n & tl' & Hn & Hc' & Htl').
      exists (S n), tl'. rewrite Hc', Hc, <- app_assoc. simpl.
      auto with lia.
    + exists 1, tl. rewrite Hc. simpl. auto with lia.
Qed.
End Calls.

(** ** The topic counts of the search *)

(** [np.arange(start, max_steps * step + start, step)] holds [max_steps]
    counts: [start], [start + step], [start + 2 step], ... *)
Lemma np_arange_progression (s0 ms st : Z) :
  st ≠ 0%Z →
  np_arange s0 (ms * st + s0) st =
    Returns ((λ i : nat, (s0 + Z.of_nat i * st)%Z) <$> seq 0 (Z.to_nat ms)).
Proof.
  intros Hst. unfold np_arange.
  rewrite (proj2 (Z.eqb_neq _ _) Hst).
  replace (ms * st + s0 - s0)%Z with (ms * st)%Z by lia.
  rewrite Z.mod_mul, Z.div_mul by done. simpl.
  by rewrite Z.add_0_r.
Qed.

Section Setup.
Context `{Sklearn}.

(** When the set-up returns, both settings are numbers and [topic_array]
    is the [np.arange] of the resolved step. *)
Lemma evaluate_setup_returns (m : matrix) (w w0 : world) (ta : list Z) :
  evaluate_setup m w = (Returns ta, w0) →
  ∃ np st,
    noise_pct (self w0) = Explicit np ∧
    step (self w0) = Explicit st ∧
    np_arange (start (self w)) (max_steps (self w) * st + start (self w)) st
      = Returns ta.
Proof.
  unfold evaluate_setup, _pareto_corpus_content, _determine_auto_step_size.
  run_monad.
  repeat (case_match; simpl in *; simplify_eq; try done);
    intros; simplify_eq; simpl; eauto.
Qed.
End Setup.

Lemma tried_fit_transform (l : list Z) : tried (FitTransform <$> l) = l.
Proof.
  induction l as [| k l IH]; [done |].
  change (tried (FitTransform <$> k :: l))
    with (k :: tried (FitTransform <$> l)).
  by rewrite IH.
Qed.

Lemma tried_app (l1 l2 : list sk_call) : tried (l1 ++ l2) = tried l1 ++ tried l2.
Proof. apply omap_app. Qed.

Lemma new_calls_app (w w' : world) (l : list sk_call) :
  sk_calls w' = sk_calls w ++ l → new_calls w w' = l.
Proof. intros Hc. unfold new_calls. rewrite Hc. apply drop_app_length. Qed.

Section Search.
Context `{Sklearn}.

Lemma for_each_iteration_keeps {B} (f : ParetoNMF → B) (m : matrix)
    (l : list Z) :
  (∀ v s, f (set_rich_topics v s) = f s) →
  (∀ v s, f (set_topic_count v s) = f s) →
  (∀ v s, f (set_nmf v s) = f s) →
  (∀ v s, f (set_topic_labels v s) = f s) →
  (∀ v s, f (set_topic_summary v s) = f s) →
  (∀ v s, f (set_previous_nmf v s) = f s) →
  preserves (keeps (λ w, f (self w))) (for_each (iteration m) l).
Proof.
  intros. apply preserves_for_each. intros k. by apply iteration_keeps.
Qed.

(** C8. With a positive resolved step, the loop of [evaluate] tries the
    topic counts [start], [start + step], [start + 2 step], ... in this
    order, runs at most [max_steps] iterations, and [evaluate] makes at
    most one further sklearn call; the loop is a recursion over the finite
    [topic_array], so [evaluate] returns or raises once each of these
    calls has. *)
Theorem search_tries_progression (m : matrix) (w : world) (st : Z) :
  let w' := snd (evaluate m w) in
  step (self w') = Explicit st → (0 < st)%Z →
  ∃ n : nat,
    n ≤ Z.to_nat (max_steps (self w)) ∧
    tried (new_calls w w') =
      (λ i : nat, (start (self w) + Z.of_nat i * st)%Z) <$> seq 0 n ∧
    length (new_calls w w') ≤ n + 1.
Proof.
  intros w' Hstep Hpos. subst w'. revert Hstep. unfold evaluate, bind.
  pose proof (evaluate_setup_keeps sk_calls m
                (λ _ _, eq_refl) (λ _ _, eq_refl) (λ _ _, eq_refl)
                (λ _ _, eq_refl) (λ _ _, eq_refl) w) as Hcalls0.
  destruct (evaluate_setup m w) as [[ta | e] w0] eqn:Hsetup;
    unfold keeps in Hcalls0; simpl in *.
  - destruct (evaluate_setup_returns m w w0 ta Hsetup)
      as (np & st0 & _ & Hst0 & Hta).
    pose proof (for_each_iteration_keeps step m ta
                  (λ _ _, eq_refl) (λ _ _, eq_refl) (λ _ _, eq_refl)
                  (λ _ _, eq_refl) (λ _ _, eq_refl) (λ _ _, eq_refl) w0)
      as Hkeep.
    unfold keeps in Hkeep. intros Hstep.
    rewrite Hkeep, Hst0 in Hstep. simplify_eq.
    rewrite np_arange_progression in Hta by lia. simplify_eq.
    destruct (for_each_calls m
                ((λ i : nat, (start (self w) + Z.of_nat i * st)%Z)
                   <$> seq 0 (Z.to_nat (max_steps (self w)))) w0)
      as (n & tl & Hn & Hc & Htl).
    rewrite length_fmap, length_seq in Hn.
    exists n. split; [done |].
    rewrite Hcalls0 in Hc.
    rewrite (new_calls_app _ _ _ Hc).
    rewrite tried_app, tried_fit_transform, <- fmap_take, take_seq.
    rewrite Nat.min_l by done.
    rewrite length_app, length_fmap, length_fmap, length_seq.
    destruct Htl as [-> | [k' ->]]; simpl; rewrite app_nil_r; auto with lia.
  - intros _. exists 0.
    rewrite (new_calls_app w w0 []) by (by rewrite app_nil_r).
    simpl. auto with lia.
Qed.
End Search.

(** ** Stability after the first iteration *)

Lemma for_each_app {A R} (body : A → M (option R)) (l1 l2 : list A) (w : world) :
  for_each body (l1 ++ l2) w =
    match for_each body l1 w with
    | (Returns None, w1) => for_each body l2 w1
    | r => r
    end.
Proof.
  revert w. induction l1 as [| x l1 IH]; intros w; [done |].
  simpl. unfold bind. destruct (body x w) as [[[v |] | e] w1]; simpl; [done | | done].
  apply IH.
Qed.

(** The counts of an arithmetic progression: the entry before [k] is
    [k - st]. *)
Lemma progression_previous (s0 st k : Z) (n : nat) (ks rest : list Z) :
  (λ i : nat, (s0 + Z.of_nat i * st)%Z) <$> seq 0 n = ks ++ k :: rest →
  ks ≠ [] → last ks = Some (k - st)%Z.
Proof.
  intros Hta Hks.
  assert (Hk : (ks ++ k :: rest) !! length ks = Some k).
  { by rewrite list_lookup_middle. }
  rewrite last_lookup.
  destruct (length ks) as [| j] eqn:Hlen;
    [by apply length_zero_iff_nil in Hlen |].
  assert (Hprev : (ks ++ k :: rest) !! j = ks !! j).
  { apply lookup_app_l. lia. }
  simpl. rewrite <- Hprev. rewrite <- Hta in *.
  rewrite list_lookup_fmap in Hk. rewrite list_lookup_fmap.
  destruct (seq 0 n !! S j) as [i |] eqn:Hi; [| done].
  apply lookup_seq in Hi as [-> Hlt]. simpl in Hk. simplify_eq.
  rewrite (lookup_seq_lt 0 n j) by lia. simpl.
  f_equal. lia.
Qed.

Section Stable.
Context `{Sklearn}.

(** What the first half of an iteration leaves behind when it returns. *)
Lemma probe_returns (m : matrix) (k : Z) (w w' : world) (est : NMF) (b : bool) :
  probe m k w = (Returns (est, b), w') →
  topic_count (self w') = Some k ∧ nmf (self w') = Some est ∧
  n_components est = k ∧
  ∃ fp, nmf_fitted est = Some fp ∧ fit_matrix fp = m.
Proof.
  unfold probe, NMF_new, fit_transform, sk_run, _stopping_condition.
  run_monad.
  repeat (case_match; simpl in *; simplify_eq; try done);
    intros; simplify_eq; simpl; eauto 10.
Qed.

(** The stable branch never ends in Python's [None]. *)
Lemma back_off_not_none (m : matrix) (w : world) :
  fst (back_off m w) ≠ Returns None.
Proof.
  unfold back_off, NMF_new, fit, sk_run. run_monad.
  repeat (case_match; simpl; try done).
Qed.

(** An iteration that lets the loop go on has stored its estimator as
    the previous one. *)
Lemma iteration_none (m : matrix) (k : Z) (w w' : world) :
  iteration m k w = (Returns None, w') →
  ∃ est fp, previous_nmf (self w') = Some est ∧ n_components est = k ∧
            nmf_fitted est = Some fp ∧ fit_matrix fp = m.
Proof.
  unfold iteration, bind.
  destruct (probe m k w) as [[[est stop] | e] w1] eqn:Hprobe; simpl; [| done].
  destruct stop.
  - intros Hb. pose proof (back_off_not_none m w1) as Hnn.
    rewrite Hb in Hnn. done.
  - run_monad. intros ?. simplify_eq. simpl.
    destruct (probe_returns _ _ _ _ _ _ Hprobe) as (_ & _ & Hk & fp & Hfp & Hm).
    eauto 10.
Qed.

Lemma for_each_none_previous (m : matrix) (ks : list Z) (w0 w1 : world) :
  ks ≠ [] →
  for_each (iteration m) ks w0 = (Returns None, w1) →
  ∃ est fp, previous_nmf (self w1) = Some est ∧
            last ks = Some (n_components est) ∧
            nmf_fitted est = Some fp ∧ fit_matrix fp = m.
Proof.
  destruct ks as [| k0 ks0 _] using rev_ind; [done |]. intros _.
  rewrite for_each_app.
  destruct (for_each (iteration m) ks0 w0) as [[[v |] | e] wa]; [done | | done].
  simpl. unfold bind.
  destruct (iteration m k0 wa) as [[[v |] | e] wb] eqn:Hit; simpl; [done | | done].
  unfold ret. intros ?. simplify_eq.
  destruct (iteration_none _ _ _ _ Hit) as (est & fp & Hprev & Hk & Hfp & Hm).
  exists est, fp. rewrite last_snoc. subst k0. done.
Qed.

(** C2. When the stability check first answers "stable" at a topic count
    [k] that is not the first one tried (and the back-off factorization
    at [k - step] returns), [evaluate] returns [k - step], the count tried
    just before; the estimator it leaves in [self.nmf] is the one cached
    from that previous iteration, fitted on the matrix with
    [k - step] components, and not the estimator fitted at [k]. *)
Theorem evaluate_returns_previous_count (m : matrix) (w w0 w1 w2 : world)
    (ta ks rest : list Z) (k st : Z) (est : NMF) (fct : factorization) :
  evaluate_setup m w = (Returns ta, w0) →
  step (self w0) = Explicit st →
  ta = ks ++ k :: rest → ks ≠ [] →
  for_each (iteration m) ks w0 = (Returns None, w1) →
  probe m k w1 = (Returns (est, true), w2) →
  sk_fit (length (sk_calls w2)) (hyper (self w2)) (k - st)%Z m = Returns fct →
  ∃ w3 prev fp,
    evaluate m w = (Returns (Some (k - st)%Z), w3) ∧
    last ks = Some (k - st)%Z ∧
    topic_count (self w3) = Some (k - st)%Z ∧
    nmf (self w3) = Some prev ∧
    previous_nmf (self w1) = Some prev ∧
    n_components prev = (k - st)%Z ∧
    nmf_fitted prev = Some fp ∧ fit_matrix fp = m ∧
    n_components est = k ∧ prev ≠ est.
Proof.
  intros Hsetup Hst Hta Hks Hloop Hprobe Hfit.
  destruct (evaluate_setup_returns m w w0 ta Hsetup)
    as (np & st0 & _ & Hst0 & Harange).
  rewrite Hst in Hst0. simplify_eq.
  assert (Hne : st0 ≠ 0%Z).
  { intros ->. unfold np_arange in Harange. simpl in Harange. done. }
  rewrite np_arange_progression in Harange by done. simplify_eq.
  pose proof (progression_previous _ _ _ _ _ _ Harange Hks) as Hlast.
  destruct (for_each_none_previous m ks w0 w1 Hks Hloop)
    as (prev & fp & Hprev & Hlast' & Hfp & Hm).
  rewrite Hlast in Hlast'. injection Hlast' as Hlast'.
  destruct (probe_returns _ _ _ _ _ _ Hprobe) as (Htc & Hnmf & Hk & _).
  pose proof (for_each_iteration_keeps step m ks
                (λ _ _, eq_refl) (λ _ _, eq_refl) (λ _ _, eq_refl)
                (λ _ _, eq_refl) (λ _ _, eq_refl) (λ _ _, eq_refl) w0) as Hst1.
  pose proof (probe_keeps step m k
                (λ _ _, eq_refl) (λ _ _, eq_refl) (λ _ _, eq_refl)
                (λ _ _, eq_refl) (λ _ _, eq_refl) w1) as Hst2.
  pose proof (probe_keeps previous_nmf m k
                (λ _ _, eq_refl) (λ _ _, eq_refl) (λ _ _, eq_refl)
                (λ _ _, eq_refl) (λ _ _, eq_refl) w1) as Hprev2.
  unfold keeps in *. rewrite Hloop in Hst1. rewrite Hprobe in Hst2, Hprev2.
  simpl in *. rewrite Hst1, Hst in Hst2. rewrite Hprev in Hprev2.
  eexists _, prev, fp.
  split; [| repeat split; try done].
  - unfold evaluate, bind. rewrite Hsetup, for_each_app, Hloop.
    simpl. unfold bind, iteration, bind. rewrite Hprobe. simpl.
    unfold back_off, NMF_new, fit, sk_run. run_monad.
    rewrite Htc, Hst2. simpl. rewrite Hfit. simpl. rewrite Hprev2.
    reflexivity.
  - simpl. reflexivity.
  - simpl. reflexivity.
  - intros ->. lia.
Qed.
End Stable.

(** C8 on four documents with the default settings: the counts tried are
    2, 4, 6, the first three of the hundred in [topic_array]. *)
Lemma search_tries_progression_witness :
  step (self (snd (@evaluate round_robin (docs 4) (fresh default_ParetoNMF))))
    = Explicit 2%Z ∧
  (0 < 2)%Z ∧
  ∃ n : nat,
    n ≤ 100 ∧
    tried (new_calls (fresh default_ParetoNMF)
             (snd (@evaluate round_robin (docs 4) (fresh default_ParetoNMF))))
      = (λ i : nat, (2 + Z.of_nat i * 2)%Z) <$> seq 0 n ∧
    length (new_calls (fresh default_ParetoNMF)
              (snd (@evaluate round_robin (docs 4) (fresh default_ParetoNMF))))
      ≤ n + 1.
Proof.
  split; [vm_compute; reflexivity |]. split; [lia |].
  apply (@search_tries_progression round_robin (docs 4)
           (fresh default_ParetoNMF) 2).
  - vm_compute. reflexivity.
  - lia.
Defined.

(** C2 on four documents with the default settings: the check is stable
    at 6 topics, [evaluate] returns 4 and [self.nmf] has 4 components. *)
Lemma evaluate_returns_previous_count_witness :
  ∃ w3 prev fp,
    @evaluate round_robin (docs 4) (fresh default_ParetoNMF)
      = (Returns (Some 4%Z), w3) ∧
    nmf (self w3) = Some prev ∧
    n_components prev = 4%Z ∧
    nmf_fitted prev = Some fp ∧ fit_matrix fp = docs 4.
Proof.
  pose (m := docs 4).
  pose (w := fresh default_ParetoNMF).
  pose (ta := (λ i : nat, (2 + Z.of_nat i * 2)%Z) <$> seq 0 100).
  pose (rest := (λ i : nat, (2 + Z.of_nat i * 2)%Z) <$> seq 3 97).
  pose (w0 := snd (evaluate_setup m w)).
  pose (w1 := snd (for_each (@iteration round_robin m) [2; 4]%Z w0)).
  pose (r := @probe round_robin m 6 w1).
  pose (est := match fst r with
               | Returns (e, _) => e
               | Raises _ => {| n_components := 0; nmf_hyper := default_hyper;
                                nmf_fitted := None |}
               end).
  pose (fct := {| fact_W := round_robin_row 4 <$> seq 0 4;
                  fact_H := replicate 4 (replicate 2 0%Q) |}).
  destruct (@evaluate_returns_previous_count round_robin m w w0 w1 (snd r)
              ta [2; 4]%Z rest 6 2 est fct)
    as (w3 & prev & fp & Hev & _ & _ & Hnmf & _ & Hk & Hfp & Hm & _).
  - vm_compute. reflexivity.
  - vm_compute. reflexivity.
  - vm_compute. reflexivity.
  - discriminate.
  - vm_compute. reflexivity.
  - vm_compute. reflexivity.
  - vm_compute. reflexivity.
  - exists w3, prev, fp. repeat split; assumption.
Defined.

(** ** The ends of a search that does not back off *)

(** C3 (the code departs from the claim). With [max_steps = 2] on four
    documents the check answers "not stable" at 2 and at 4 topics; the
    loop ends and [evaluate] falls off its end: it returns Python's [None],
    not an inconclusive result, although the last attempted count 4 is
    still in [self.topic_count]. *)
Theorem evaluate_exhausted_returns_None :
  let r := @evaluate round_robin (docs 4) (fresh (ParetoNMF_with 2 2)) in
  fst r = Returns None ∧
  sk_calls (snd r) = [FitTransform 2; FitTransform 4] ∧
  topic_count (self (snd r)) = Some 4%Z.
Proof. vm_compute. repeat split; reflexivity. Qed.

Section FirstIteration.
Context `{Sklearn}.

(** C4 (amended). When the stability check answers "stable" in the very
    first iteration and no previous factorization is stored, as on a new
    estimator, [evaluate] returns no topic count. It has no error of its
    own for this case: it overwrites [topic_count] with [start - step],
    and then the back-off factorization at that count raises, or else
    reading [self.previous_nmf], which was never assigned, raises
    [AttributeError]. *)
Theorem first_iteration_stable_raises (m : matrix) (w w0 w2 : world)
    (ta rest : list Z) (k : Z) (est : NMF) :
  previous_nmf (self w) = None →
  evaluate_setup m w = (Returns ta, w0) →
  ta = k :: rest →
  probe m k w0 = (Returns (est, true), w2) →
  k = start (self w) ∧
  ∃ st e w3,
    step (self w0) = Explicit st ∧
    evaluate m w = (Raises e, w3) ∧
    topic_count (self w3) = Some (k - st)%Z ∧
    (e = AttributeError ∨
     sk_fit (length (sk_calls w2)) (hyper (self w2)) (k - st)%Z m = Raises e).
Proof.
  intros Hnone Hsetup Hta Hprobe.
  destruct (evaluate_setup_returns m w w0 ta Hsetup)
    as (np & st & _ & Hst & Harange).
  assert (Hne : st ≠ 0%Z).
  { intros ->. unfold np_arange in Harange. simpl in Harange. done. }
  rewrite np_arange_progression in Harange by done.
  assert (Hk : k = start (self w)).
  { destruct (Z.to_nat (max_steps (self w))); simplify_eq; simpl in *;
      simplify_eq. lia. }
  split; [exact Hk |].
  destruct (probe_returns _ _ _ _ _ _ Hprobe) as (Htc & _ & _ & _).
  pose proof (evaluate_setup_keeps (λ w, previous_nmf (self w)) m
                (λ _ _, eq_refl) (λ _ _, eq_refl) (λ _ _, eq_refl)
                (λ _ _, eq_refl) (λ _ _, eq_refl) w) as Hprev0.
  pose proof (probe_keeps previous_nmf m k
                (λ _ _, eq_refl) (λ _ _, eq_refl) (λ _ _, eq_refl)
                (λ _ _, eq_refl) (λ _ _, eq_refl) w0) as Hprev2.
  pose proof (probe_keeps step m k
                (λ _ _, eq_refl) (λ _ _, eq_refl) (λ _ _, eq_refl)
                (λ _ _, eq_refl) (λ _ _, eq_refl) w0) as Hst2.
  unfold keeps in *. rewrite Hsetup in Hprev0. rewrite Hprobe in Hprev2, Hst2.
  simpl in *. rewrite Hprev0, Hnone in Hprev2. rewrite Hst in Hst2.
  unfold evaluate, bind. rewrite Hsetup, Hta. simpl.
  unfold bind, iteration, bind. rewrite Hprobe. simpl.
  unfold back_off, NMF_new, fit, sk_run. run_monad.
  rewrite Htc, Hst2. simpl.
  destruct (sk_fit (length (sk_calls w2)) (hyper (self w2)) (k - st)%Z m)
    as [fct | e] eqn:Hfit; simpl.
  - rewrite Hprev2. exists st, AttributeError. eexists.
    split; [exact Hst |]. split; [reflexivity |]. split; [reflexivity |].
    by left.
  - exists st, e. eexists.
    split; [exact Hst |]. split; [reflexivity |]. split; [reflexivity |].
    by right.
Qed.
End FirstIteration.

(** C4 (amended) on a single document with [step = 1]: the threshold is 0,
    the first check is stable, the back-off at one topic is fitted,
    [topic_count] is left at 1 and the missing [previous_nmf] raises
    [AttributeError]. *)
Lemma first_iteration_stable_raises_witness :
  2%Z = start (ParetoNMF_with 1 100) ∧
  ∃ e w3,
    @evaluate round_robin (docs 1) (fresh (ParetoNMF_with 1 100))
      = (Raises e, w3) ∧
    topic_count (self w3) = Some 1%Z ∧
    e = AttributeError.
Proof.
  pose (m := docs 1).
  pose (w := fresh (ParetoNMF_with 1 100)).
  pose (ta := (λ i : nat, (2 + Z.of_nat i * 1)%Z) <$> seq 0 100).
  pose (rest := (λ i : nat, (2 + Z.of_nat i * 1)%Z) <$> seq 1 99).
  pose (w0 := snd (evaluate_setup m w)).
  pose (r := @probe round_robin m 2 w0).
  pose (est := match fst r with
               | Returns (e, _) => e
               | Raises _ => {| n_components := 0; nmf_hyper := default_hyper;
                                nmf_fitted := None |}
               end).
  destruct (@first_iteration_stable_raises round_robin m w w0 (snd r)
              ta rest 2 est)
    as (Hk & st & e & w3 & Hst & Hev & Htc & He).
  - reflexivity.
  - vm_compute. reflexivity.
  - vm_compute. reflexivity.
  - vm_compute. reflexivity.
  - split; [exact Hk |]. exists e, w3. split; [exact Hev |].
    vm_compute in Hst. injection Hst as <-.
    split; [exact Htc |].
    destruct He as [He | Hfit]; [exact He |].
    vm_compute in Hfit. discriminate Hfit.
Defined.

(** The claim C4 as written fails: a very first iteration need not be one
    without a previous factorization. On an estimator that has searched
    before, [previous_nmf] and [rich_topics] are those the first search
    left; the check of the very first iteration of the second search is
    stable, and [evaluate] raises nothing: it returns [start - step = 1]. *)
Lemma first_iteration_stable_returns :
  let w0 := snd (evaluate_setup (docs 4) used_once) in
  previous_nmf (self used_once) ≠ None ∧
  fst (evaluate_setup (docs 4) used_once) = Returns [2%Z] ∧
  match fst (@probe round_robin (docs 4) 2 w0) with
  | Returns (_, stable) => stable = true
  | Raises _ => False
  end ∧
  fst (@evaluate round_robin (docs 4) used_once) = Returns (Some 1%Z).
Proof. vm_compute. repeat split; try reflexivity. discriminate. Qed.

(** ** What a search starts from and what it leaves behind *)

Section Reuse.
Context `{Sklearn}.

(** After the set-up, [evaluate] only runs the loop. *)
Lemma evaluate_after_setup {B} (f : ParetoNMF → B) (m : matrix) (w : world) :
  (∀ v s, f (set_rich_topics v s) = f s) →
  (∀ v s, f (set_topic_count v s) = f s) →
  (∀ v s, f (set_nmf v s) = f s) →
  (∀ v s, f (set_topic_labels v s) = f s) →
  (∀ v s, f (set_topic_summary v s) = f s) →
  (∀ v s, f (set_previous_nmf v s) = f s) →
  f (self (snd (evaluate m w))) = f (self (snd (evaluate_setup m w))).
Proof.
  intros Hrt Htc Hnmf Hlab Hsum Hprev. unfold evaluate, bind.
  destruct (evaluate_setup m w) as [[ta | e] w0]; simpl; [| done].
  by apply (for_each_iteration_keeps f m ta).
Qed.

(** On a matrix with at least one row the set-up turns each ['auto']
    into the number its estimator derives from the matrix, and leaves a
    number as it is. *)
Lemma evaluate_setup_settings (m : matrix) (w : world) :
  m ≠ [] →
  noise_pct (self (snd (evaluate_setup m w))) =
    match noise_pct (self w) with
    | Auto => Explicit (1 - inject_Z (majority_docs m (8 # 10))
                            / inject_Z (shape0 m))%Q
    | Explicit np => Explicit np
    end ∧
  step (self (snd (evaluate_setup m w))) =
    match step (self w) with
    | Auto => Explicit match auto_step m with 0%Z => 1%Z | z => z end
    | Explicit st => Explicit st
    end.
Proof.
  intros Hm. destruct m as [| row m']; [done |].
  unfold evaluate_setup, _pareto_corpus_content, _determine_auto_step_size.
  run_monad.
  destruct (noise_pct (self w)) as [| np] eqn:Hnp; simpl;
    destruct (step (self w)) as [| st] eqn:Hst; simpl;
    rewrite ?Hnp, ?Hst; simpl;
    try destruct (auto_step (row :: m')) as [| p | p] eqn:Hauto; simpl;
    rewrite ?Hnp, ?Hst; simpl;
    repeat (case_match; simpl in *; simplify_eq; try done);
    try (split; first [reflexivity | assumption]).
Qed.

(** C9 (amended). The set-up of [evaluate] writes neither [rich_topics]
    nor [previous_nmf]; a newly constructed estimator therefore starts its
    first search with [rich_topics = 0] and no previous estimator, both as
    [__init__] left them. *)
Theorem search_state_at_start (m : matrix) (w : world)
    (np : setting Q) (st : setting Z) (s0 : Z) (v : bool) (ms : Z)
    (hy : nmf_params) :
  let w' := snd (evaluate_setup m w) in
  let new := snd (evaluate_setup m (fresh (__init__ np st s0 v ms hy))) in
  rich_topics (self w') = rich_topics (self w) ∧
  previous_nmf (self w') = previous_nmf (self w) ∧
  rich_topics (self new) = 0%Z ∧
  previous_nmf (self new) = None.
Proof.
  assert (Hrt : ∀ w, rich_topics (self (snd (evaluate_setup m w)))
                     = rich_topics (self w)).
  { apply (evaluate_setup_keeps (λ w, rich_topics (self w))); done. }
  assert (Hprev : ∀ w, previous_nmf (self (snd (evaluate_setup m w)))
                       = previous_nmf (self w)).
  { apply (evaluate_setup_keeps (λ w, previous_nmf (self w))); done. }
  simpl. rewrite !Hrt, !Hprev. done.
Qed.

(** C10. On a matrix with at least one row, [evaluate] replaces an
    ['auto'] in [noise_pct] or [step] by the number derived from that
    matrix; afterwards neither setting is ['auto'], and a later
    [evaluate] on the same instance, on whatever matrix, keeps both
    numbers: the estimators are not run again. *)
Theorem auto_settings_overwritten (m : matrix) (w : world) :
  m ≠ [] →
  let w1 := snd (evaluate m w) in
  (noise_pct (self w) = Auto →
   noise_pct (self w1) =
     Explicit (1 - inject_Z (majority_docs m (8 # 10)) / inject_Z (shape0 m))%Q) ∧
  (step (self w) = Auto →
   step (self w1) = Explicit match auto_step m with 0%Z => 1%Z | z => z end) ∧
  noise_pct (self w1) ≠ Auto ∧
  step (self w1) ≠ Auto ∧
  ∀ m2 : matrix,
    let w2 := snd (evaluate m2 w1) in
    noise_pct (self w2) = noise_pct (self w1) ∧
    step (self w2) = step (self w1).
Proof.
  intros Hm w1.
  assert (Hnp1 : noise_pct (self w1) = noise_pct (self (snd (evaluate_setup m w)))).
  { by apply (evaluate_after_setup noise_pct). }
  assert (Hst1 : step (self w1) = step (self (snd (evaluate_setup m w)))).
  { by apply (evaluate_after_setup step). }
  destruct (evaluate_setup_settings m w Hm) as [Hnp Hst].
  rewrite Hnp in Hnp1. rewrite Hst in Hst1.
  split; [by intros Hauto; rewrite Hnp1, Hauto |].
  split; [by intros Hauto; rewrite Hst1, Hauto |].
  assert (Hnp_num : ∃ a, noise_pct (self w1) = Explicit a).
  { rewrite Hnp1. destruct (noise_pct (self w)); eauto. }
  assert (Hst_num : ∃ b, step (self w1) = Explicit b).
  { rewrite Hst1. destruct (step (self w)); eauto. }
  destruct Hnp_num as [a Ha], Hst_num as [b Hb].
  split; [by rewrite Ha |]. split; [by rewrite Hb |].
  intros m2 w2.
  assert (Hnp2 : noise_pct (self w2) = noise_pct (self (snd (evaluate_setup m2 w1)))).
  { by apply (evaluate_after_setup noise_pct). }
  assert (Hst2 : step (self w2) = step (self (snd (evaluate_setup m2 w1)))).
  { by apply (evaluate_after_setup step). }
  rewrite Hnp2, Hst2. clear Hnp2 Hst2 w2.
  unfold evaluate_setup. run_monad. rewrite Ha, Hb. simpl.
  repeat (case_match; simpl in *; simplify_eq; try done).
Qed.
End Reuse.

(** The claim C9 as written fails: the second search on an instance does
    not start from [rich_topics = 0] and an empty previous estimator. *)
Lemma second_search_starts_stale :
  ¬ (rich_topics (self (snd (evaluate_setup (docs 4) used_once))) = 0%Z ∧
     previous_nmf (self (snd (evaluate_setup (docs 4) used_once))) = None).
Proof. vm_compute. intros [Hrt _]. discriminate Hrt. Qed.

(** What the stale state does: the second search on the same four
    documents finds its first count "stable" against the count left by the
    first search, returns [start - step = 1], and leaves in [self.nmf] the
    two-topic estimator fitted during the first search. *)
Lemma second_search_uses_stale_state :
  rich_topics (self used_once) = 1%Z ∧
  n_components <$> previous_nmf (self used_once) = Some 2%Z ∧
  fst (@evaluate round_robin (docs 4) used_once) = Returns (Some 1%Z) ∧
  n_components <$> nmf (self (snd (@evaluate round_robin (docs 4) used_once)))
    = Some 2%Z.
Proof. vm_compute. repeat split; reflexivity. Qed.

(** C10 on an estimator constructed with both settings ['auto'] and a
    first search on four documents. *)
Lemma auto_settings_overwritten_witness :
  docs 4 ≠ [] ∧
  let w1 := snd (@evaluate round_robin (docs 4) (fresh auto_ParetoNMF)) in
  (noise_pct (self (fresh auto_ParetoNMF)) = Auto →
   noise_pct (self w1) =
     Explicit (1 - inject_Z (majority_docs (docs 4) (8 # 10))
                   / inject_Z (shape0 (docs 4)))%Q) ∧
  (step (self (fresh auto_ParetoNMF)) = Auto →
   step (self w1) =
     Explicit match auto_step (docs 4) with 0%Z => 1%Z | z => z end) ∧
  noise_pct (self w1) ≠ Auto ∧
  step (self w1) ≠ Auto ∧
  ∀ m2 : matrix,
    let w2 := snd (@evaluate round_robin m2 w1) in
    noise_pct (self w2) = noise_pct (self w1) ∧
    step (self w2) = step (self w1).
Proof.
  split; [discriminate |].
  apply (@auto_settings_overwritten round_robin (docs 4) (fresh auto_ParetoNMF)).
  discriminate.
Defined.

(** The numbers behind it: the first search derives noise 1/2 and step 1
    from four one-term documents; a second search on [skewed_docs] keeps
    them, where a new estimator would derive noise 1 and step 2. *)
Lemma auto_settings_reused_on_other_matrix :
  noise_pct (self auto_used_once) = Explicit (2 # 4) ∧
  step (self auto_used_once) = Explicit 1%Z ∧
  noise_pct (self (snd (@evaluate round_robin skewed_docs auto_used_once)))
    = Explicit (2 # 4) ∧
  step (self (snd (@evaluate round_robin skewed_docs auto_used_once)))
    = Explicit 1%Z ∧
  noise_pct (self (snd (@evaluate round_robin skewed_docs (fresh auto_ParetoNMF))))
    = Explicit (3 # 3) ∧
  step (self (snd (@evaluate round_robin skewed_docs (fresh auto_ParetoNMF))))
    = Explicit 2%Z.
Proof. vm_compute. repeat split; reflexivity. Qed.

(** ** The noise estimator *)

Lemma py_int_comp (x y : Q) : (x == y)%Q → py_int x = py_int y.
Proof.
  intros Hxy. unfold py_int.
  rewrite (Qfloor_comp x y Hxy), (Qceiling_comp x y Hxy).
  by rewrite (Qleb_comp 0%Q 0%Q (Qeq_refl 0%Q) x y Hxy).
Qed.

Lemma py_int_nonneg (x : Q) : (0 <= x)%Q → py_int x = Qfloor x.
Proof.
  intros Hx. unfold py_int. by rewrite (proj2 (Qle_bool_iff 0 x) Hx).
Qed.

(** A negative product truncates to a threshold that is not positive,
    and so does its floor. *)
Lemma py_int_negative (x : Q) : (x < 0)%Q → (py_int x ≤ 0)%Z ∧ (Qfloor x ≤ 0)%Z.
Proof.
  intros Hx. split.
  - unfold py_int. destruct (Qle_bool 0 x) eqn:Hle.
    + apply Qle_bool_iff in Hle. by apply Qle_not_lt in Hle.
    + pose proof (Qceiling_lt x) as Hc.
      assert (Hlt : (inject_Z (Qceiling x - 1) < inject_Z 0)%Q).
      { eapply Qlt_trans; [exact Hc | exact Hx]. }
      rewrite <- Zlt_Qlt in Hlt. lia.
  - pose proof (Qfloor_le x) as Hf.
    assert (Hlt : (inject_Z (Qfloor x) < inject_Z 0)%Q).
    { eapply Qle_lt_trans; [exact Hf | exact Hx]. }
    rewrite <- Zlt_Qlt in Hlt. lia.
Qed.

Lemma leading_below_nonpos (l : list Z) (acc t : Z) :
  Forall (λ x, (0 ≤ x)%Z) l → (0 ≤ acc)%Z → (t ≤ 0)%Z →
  leading_below acc l t = 0.
Proof.
  intros Hl Hacc Ht. destruct Hl as [| x l Hx _]; [done |].
  simpl. destruct (decide (acc + x < t)%Z); [lia | done].
Qed.

Lemma row_token_count_nonzero (row : list Q) :
  Forall (λ x, (0 <= x)%Q) row → row_token_count row = nonzero_count row.
Proof.
  unfold row_token_count, nonzero_count.
  induction 1 as [| x row Hx _ IH]; [done |].
  rewrite !filter_cons.
  destruct (decide (0 < x)%Q) as [Hpos | Hnpos],
           (decide (¬ (x == 0)%Q)) as [Hnz | Hz]; simpl.
  - f_equal. lia.
  - exfalso. apply Hz. intros Heq. rewrite Heq in Hpos.
    by apply Qlt_irrefl in Hpos.
  - exfalso. apply Hnpos. apply Qle_lteq in Hx as [Hlt | Heq]; [done |].
    exfalso. apply Hnz. by symmetry.
  - exact IH.
Qed.

Lemma token_count_nonzero (m : matrix) :
  nonneg_matrix m → token_count m = nonzero_count <$> m.
Proof.
  unfold token_count, nonneg_matrix.
  induction 1 as [| row m Hrow _ IH]; [done |].
  rewrite !fmap_cons. f_equal; [by apply row_token_count_nonzero | exact IH].
Qed.

Lemma token_count_nonneg (m : matrix) : Forall (λ x, (0 ≤ x)%Z) (token_count m).
Proof.
  unfold token_count. apply Forall_fmap, Forall_forall. intros row _.
  unfold row_token_count. simpl. lia.
Qed.

(** The count of the noise estimator, in the specification's words. *)
Lemma majority_docs_leading (m : matrix) (n_percent : Q) (desc : list Z) :
  nonneg_matrix m →
  desc ≡ₚ nonzero_count <$> m → Sorted Z.ge desc →
  majority_docs m n_percent =
    Z.of_nat (leading_below 0 desc
                (Qfloor (inject_Z (np_sum (nonzero_count <$> m)) * n_percent))).
Proof.
  intros Hm Hp Hs. unfold majority_docs, majority_information, np_cumsum.
  rewrite <- (token_count_nonzero m Hm) in *.
  destruct (sorted_reverse_desc (token_count m)) as [Hs' Hp'].
  rewrite (desc_unique _ desc (token_count m) Hs' Hp' Hs Hp).
  assert (Hnn : Forall (λ x, (0 ≤ x)%Z) desc).
  { rewrite Hp. apply token_count_nonneg. }
  rewrite count_lt_leading by done. f_equal.
  set (x := (inject_Z (np_sum (token_count m)) * n_percent)%Q).
  destruct (Qlt_le_dec x 0) as [Hneg | Hpos].
  - destruct (py_int_negative x Hneg) as [Hint Hfloor].
    by rewrite !leading_below_nonpos.
  - by rewrite py_int_nonneg.
Qed.

(** Counting along equal counts [c]: the walk stops after [j] documents,
    the last running total below [t] and the next one not. *)
Lemma leading_uniform (c t : Z) (d : nat) (acc : Z) :
  let j := leading_below acc (replicate d c) t in
  j ≤ d ∧
  (0 < j → (acc + Z.of_nat j * c < t)%Z) ∧
  (j < d → (t ≤ acc + (Z.of_nat j + 1) * c)%Z).
Proof.
  revert acc. induction d as [| d IH]; intros acc; simpl.
  - split; [lia |]. split; lia.
  - destruct (decide (acc + c < t)%Z) as [Hlt | Hge].
    + destruct (IH (acc + c)%Z) as (Hle & Hpos & Hsmall).
      split; [lia |]. split.
      * intros _.
        destruct (leading_below (acc + c) (replicate d c) t) as [| j'] eqn:Hj.
        -- lia.
        -- specialize (Hpos ltac:(lia)). lia.
      * intros Hjd. specialize (Hsmall ltac:(lia)). lia.
    + split; [lia |]. split; [lia |]. intros _. lia.
Qed.

Lemma np_sum_replicate (d : nat) (c : Z) :
  np_sum (replicate d c) = (Z.of_nat d * c)%Z.
Proof. unfold np_sum. induction d as [| d IH]; simpl; [done | lia]. Qed.

Lemma sorted_reverse_replicate (d : nat) (c : Z) :
  sorted_reverse (replicate d c) = replicate d c.
Proof.
  destruct (sorted_reverse_desc (replicate d c)) as [Hs Hp].
  apply (desc_unique _ _ (replicate d c) Hs Hp); [| done].
  clear Hs Hp. induction d as [| d IH]; simpl; [constructor |].
  constructor; [exact IH |]. destruct d; simpl; constructor. lia.
Qed.

Lemma uniform_lower (j d c M : Z) (n : Q) :
  (0 < c)%Z → (0 < d)%Z → (0 ≤ j)%Z → (0 <= n)%Q →
  (inject_Z M <= inject_Z (d * c) * n)%Q →
  ((0 < j)%Z → (j * c < M)%Z) →
  (inject_Z j <= inject_Z d * n)%Q.
Proof.
  intros Hc Hd Hj Hn HM Hjc.
  destruct (decide (j = 0%Z)) as [-> | Hj0].
  - apply Qmult_le_0_compat; [| done].
    change 0%Q with (inject_Z 0). rewrite <- Zle_Qle. lia.
  - specialize (Hjc ltac:(lia)).
    rewrite Zlt_Qlt in Hjc. rewrite inject_Z_mult in Hjc, HM.
    rewrite Zlt_Qlt in Hc. change (inject_Z 0) with 0%Q in Hc.
    apply Qlt_le_weak.
    apply (Qmult_lt_r _ _ (inject_Z c)); [done |].
    eapply Qlt_le_trans; [exact Hjc |].
    eapply Qle_trans; [exact HM |].
    apply Qle_lteq. right. ring.
Qed.

Lemma uniform_upper (j d c M : Z) (n : Q) :
  (0 < c)%Z → (0 < d)%Z → (0 ≤ j ≤ d)%Z → (n <= 1)%Q →
  (inject_Z (d * c) * n < inject_Z (M + 1))%Q →
  ((j < d)%Z → (M ≤ (j + 1) * c)%Z) →
  (inject_Z d * n < inject_Z j + 2)%Q.
Proof.
  intros Hc Hd Hj Hn HM Hjc.
  destruct (decide (j = d)) as [-> | Hjd].
  - apply Qle_lt_trans with (inject_Z d * 1)%Q.
    + apply Qmult_le_l; [| done].
      change 0%Q with (inject_Z 0). rewrite <- Zlt_Qlt. lia.
    + lra.
  - specialize (Hjc ltac:(lia)).
    assert (Hz : (M + 1 ≤ (j + 2) * c)%Z) by nia.
    rewrite Zle_Qle in Hz. rewrite inject_Z_mult in Hz, HM.
    rewrite Zlt_Qlt in Hc. change (inject_Z 0) with 0%Q in Hc.
    apply (Qmult_lt_r _ _ (inject_Z c)); [done |].
    apply Qlt_le_trans with (inject_Z (M + 1)).
    + eapply Qle_lt_trans; [| exact HM]. apply Qle_lteq. right. ring.
    + eapply Qle_trans; [exact Hz |]. rewrite inject_Z_plus.
      apply Qle_lteq. right. ring.
Qed.

Lemma fmap_constant {A} (f : A → Z) (c : Z) (l : list A) :
  Forall (λ x, f x = c) l → f <$> l = replicate (length l) c.
Proof.
  induction 1 as [| x l Hx _ IH]; [done |].
  rewrite fmap_cons, Hx, IH. done.
Qed.

Lemma pareto_corpus_content_returns (m : matrix) (n_percent : Q) (w : world) :
  m ≠ [] →
  _pareto_corpus_content m n_percent w =
    (Returns tt,
     with_noise (1 - inject_Z (majority_docs m n_percent) / inject_Z (shape0 m)) w).
Proof.
  intros Hm. destruct m as [| row m']; [done |].
  unfold _pareto_corpus_content. reflexivity.
Qed.

(** With equal counts [c] per document and a fraction between 0 and 1 the
    estimate misses [1 - n_percent] from above, by less than two
    documents' share. *)
Lemma uniform_noise_bounds (m : matrix) (n_percent : Q) (c : Z) :
  m ≠ [] → nonneg_matrix m →
  (0 < c)%Z → Forall (λ row, nonzero_count row = c) m →
  (0 <= n_percent)%Q → (n_percent <= 1)%Q →
  let noise := (1 - inject_Z (majority_docs m n_percent) / inject_Z (shape0 m))%Q in
  (1 - n_percent <= noise)%Q ∧
  (noise < 1 - n_percent + 2 / inject_Z (shape0 m))%Q.
Proof.
  intros Hm Hnn Hc Hall Hn0 Hn1.
  assert (Hd : (0 < shape0 m)%Z).
  { unfold shape0. destruct m; [done |]. simpl. lia. }
  assert (Htc : token_count m = replicate (length m) c).
  { rewrite (token_count_nonzero m Hnn). by apply fmap_constant. }
  assert (Hx0 : (0 <= inject_Z (shape0 m * c) * n_percent)%Q).
  { apply Qmult_le_0_compat; [| done].
    change 0%Q with (inject_Z 0). rewrite <- Zle_Qle. unfold shape0 in *. nia. }
  assert (Hmaj : majority_docs m n_percent =
            Z.of_nat (leading_below 0 (replicate (length m) c)
                        (Qfloor (inject_Z (shape0 m * c) * n_percent)))).
  { unfold majority_docs, majority_information, np_cumsum.
    rewrite Htc, sorted_reverse_replicate, np_sum_replicate.
    fold (shape0 m). rewrite py_int_nonneg by done.
    apply count_lt_leading. apply Forall_replicate. lia. }
  pose proof (leading_uniform c (Qfloor (inject_Z (shape0 m * c) * n_percent))
                (length m) 0) as (Hjd & Hpos & Hsmall).
  set (j := leading_below 0 (replicate (length m) c)
              (Qfloor (inject_Z (shape0 m * c) * n_percent))) in *.
  set (M := Qfloor (inject_Z (shape0 m * c) * n_percent)) in *.
  assert (Hlow : (inject_Z (Z.of_nat j) <= inject_Z (shape0 m) * n_percent)%Q).
  { apply (uniform_lower _ _ c M); try done; [lia | apply Qfloor_le |].
    intros Hj. specialize (Hpos ltac:(lia)). lia. }
  assert (Hupp : (inject_Z (shape0 m) * n_percent < inject_Z (Z.of_nat j) + 2)%Q).
  { apply (uniform_upper _ _ c M); try done;
      [unfold shape0; lia | apply Qlt_floor |].
    intros Hj. unfold shape0 in Hj. specialize (Hsmall ltac:(lia)). lia. }
  rewrite Hmaj. simpl.
  assert (HD : (0 < inject_Z (shape0 m))%Q).
  { change 0%Q with (inject_Z 0). by rewrite <- Zlt_Qlt. }
  assert (HX : (inject_Z (Z.of_nat j) / inject_Z (shape0 m) <= n_percent)%Q).
  { apply Qle_shift_div_r; [done |]. by rewrite Qmult_comm. }
  assert (HY : (n_percent < inject_Z (Z.of_nat j) / inject_Z (shape0 m)
                            + 2 / inject_Z (shape0 m))%Q).
  { assert (Hsum : ((inject_Z (Z.of_nat j) + 2) / inject_Z (shape0 m) ==
                    inject_Z (Z.of_nat j) / inject_Z (shape0 m)
                    + 2 / inject_Z (shape0 m))%Q).
    { unfold Qdiv. ring. }
    rewrite <- Hsum. apply Qlt_shift_div_l; [done |]. by rewrite Qmult_comm. }
  revert HX HY.
  generalize (inject_Z (Z.of_nat j) / inject_Z (shape0 m))%Q.
  generalize (2 / inject_Z (shape0 m))%Q.
  intros Y X HX HY. split; lra.
Qed.

(** The claim C6 as written fails in its second half: five documents with
    one term each and [n_percent = 0.8] give the noise fraction 2/5, which
    is not within 1/10 of [1 - 0.8 = 1/5]. *)
Lemma uniform_noise_not_close :
  Forall (λ row, nonzero_count row = 1%Z) (docs 5) ∧
  ∃ q,
    _pareto_corpus_content (docs 5) (8 # 10) (fresh default_ParetoNMF)
      = (Returns tt, with_noise q (fresh default_ParetoNMF)) ∧
    (q == 2 # 5)%Q ∧
    ¬ (Qabs (q - (1 - (8 # 10))) <= 1 # 10)%Q.
Proof.
  split; [repeat constructor |].
  exists (1 - inject_Z (majority_docs (docs 5) (8 # 10))
              / inject_Z (shape0 (docs 5)))%Q.
  split; [reflexivity |]. split; [vm_compute; reflexivity |].
  vm_compute. intros Hle. apply Hle. reflexivity.
Qed.

(** An integer at or below [x] that is less than 1 away is its floor. *)
Lemma Qfloor_unique (x : Q) (z : Z) :
  (inject_Z z <= x)%Q → (x < inject_Z (z + 1))%Q → Qfloor x = z.
Proof.
  intros Hle Hlt.
  assert (Hlow : (z ≤ Qfloor x)%Z).
  { rewrite <- (Qfloor_Z z). by apply Qfloor_resp_le. }
  assert (Hup : (Qfloor x < z + 1)%Z).
  { rewrite Zlt_Qlt. eapply Qle_lt_trans; [apply Qfloor_le | exact Hlt]. }
  lia.
Qed.

(** Where the rounded product cannot reach the next integer, [int] of any
    double it can be is the threshold of the exact product. *)
Lemma majority_information_double (m : matrix) (n_percent : Q) (v : Q) :
  let x := (inject_Z (np_sum (token_count m)) * n_percent)%Q in
  (0 <= x)%Q →
  (x * (1 + unit_roundoff) < inject_Z (Qfloor x + 1))%Q →
  double_of_product x v →
  py_int v = majority_information m n_percent ∧ py_int v = Qfloor x.
Proof.
  intros x Hx Hsafe [Hlow Hup].
  assert (H0 : (0 ≤ Qfloor x)%Z).
  { rewrite <- (Qfloor_Z 0). by apply Qfloor_resp_le. }
  assert (Hv : (0 <= v)%Q).
  { eapply Qle_trans; [| exact Hlow]. by rewrite <- (Zle_Qle 0). }
  assert (Hfloor : py_int v = Qfloor x).
  { rewrite py_int_nonneg by done. apply Qfloor_unique; [done |].
    eapply Qle_lt_trans; [exact Hup | exact Hsafe]. }
  split; [| done]. rewrite Hfloor. unfold majority_information.
  fold x. by rewrite py_int_nonneg.
Qed.

(** The products with the double [.8] cannot reach the next integer, and
    their threshold is that of the exact four fifths: [4 total_tokens / 5]
    rounded down. *)
Lemma rounds_below_next_integer_0_8 (total_tokens : Z) :
  (0 ≤ total_tokens < 2 ^ 50)%Z →
  rounds_below_next_integer total_tokens double_0_8 ∧
  Qfloor (inject_Z total_tokens * double_0_8) = (4 * total_tokens / 5)%Z ∧
  Qfloor (inject_Z total_tokens * (8 # 10)) = (4 * total_tokens / 5)%Z.
Proof.
  intros [H0 Hmax].
  pose proof (Z.div_mod (4 * total_tokens) 5 ltac:(lia)) as Hdiv.
  pose proof (Z.mod_pos_bound (4 * total_tokens) 5 ltac:(lia)) as Hmod.
  set (q := (4 * total_tokens / 5)%Z) in *.
  set (r := ((4 * total_tokens) mod 5)%Z) in *.
  assert (Ht0 : (0 <= inject_Z total_tokens)%Q) by (rewrite <- (Zle_Qle 0); lia).
  assert (Htmax : (inject_Z total_tokens < inject_Z (2 ^ 50))%Q)
    by (rewrite <- Zlt_Qlt; lia).
  assert (Hr0 : (0 <= inject_Z r)%Q) by (rewrite <- (Zle_Qle 0); lia).
  assert (Hr4 : (inject_Z r <= inject_Z 4)%Q) by (rewrite <- Zle_Qle; lia).
  assert (Heq : (inject_Z 4 * inject_Z total_tokens
                 == inject_Z 5 * inject_Z q + inject_Z r)%Q).
  { rewrite <- !inject_Z_mult, <- inject_Z_plus. by rewrite Hdiv. }
  assert (Hq1 : (inject_Z (q + 1) == inject_Z q + 1)%Q)
    by (by rewrite inject_Z_plus).
  change (inject_Z 4) with 4%Q in *. change (inject_Z 5) with 5%Q in *.
  change (inject_Z (2 ^ 50)) with 1125899906842624%Q in *.
  assert (Hd : Qfloor (inject_Z total_tokens * double_0_8) = q).
  { apply Qfloor_unique; unfold double_0_8; [lra | rewrite Hq1; lra]. }
  assert (He : Qfloor (inject_Z total_tokens * (8 # 10)) = q).
  { apply Qfloor_unique; [lra | rewrite Hq1; lra]. }
  split; [| by split].
  unfold rounds_below_next_integer. cbv zeta. rewrite Hd.
  split; [lia |]. split; [unfold double_0_8; lra |].
  split; [unfold double_0_8; lra |].
  rewrite Hq1. unfold double_0_8, unit_roundoff. lra.
Qed.

(** C6 (amended). Take a non-negative matrix with at least one document
    and a fraction [n_percent] whose product with [total_tokens] cannot be
    rounded up to the next integer. Then [int] of the double product is
    [floor(total_tokens * n_percent)], and the noise estimator stores
    [1 - majority_docs / total_documents], where [majority_docs] is the
    number of leading documents, by descending nonzero-term count, whose
    running token total is strictly below that threshold. When every
    document has the same positive count, the result is at least
    [1 - n_percent] and less than [1 - n_percent + 2 / total_documents]. *)
Theorem pareto_corpus_content_spec (m : matrix) (n_percent : Q) (w : world) :
  m ≠ [] → nonneg_matrix m →
  rounds_below_next_integer (np_sum (nonzero_count <$> m)) n_percent →
  let total_documents := shape0 m in
  let total_tokens := np_sum (nonzero_count <$> m) in
  let x := (inject_Z total_tokens * n_percent)%Q in
  let noise :=
    (1 - inject_Z (majority_docs m n_percent) / inject_Z total_documents)%Q in
  (∀ v : Q,
     double_of_product x v →
     py_int v = majority_information m n_percent ∧ py_int v = Qfloor x) ∧
  _pareto_corpus_content m n_percent w = (Returns tt, with_noise noise w) ∧
  (∀ desc : list Z,
     desc ≡ₚ nonzero_count <$> m → Sorted Z.ge desc →
     majority_docs m n_percent = Z.of_nat (leading_below 0 desc (Qfloor x))) ∧
  (∀ c : Z,
     (0 < c)%Z → Forall (λ row, nonzero_count row = c) m →
     (1 - n_percent <= noise)%Q ∧
     (noise < 1 - n_percent + 2 / inject_Z total_documents)%Q).
Proof.
  intros Hm Hnn (Hmax & Hn0 & Hn1 & Hsafe). cbv zeta in Hsafe. simpl.
  assert (Htokens : (0 ≤ np_sum (nonzero_count <$> m))%Z).
  { rewrite <- (token_count_nonzero m Hnn).
    pose proof (token_count_nonneg m) as Hall.
    induction Hall as [| t l Ht _ IH]; simpl; lia. }
  assert (Hx : (0 <= inject_Z (np_sum (nonzero_count <$> m)) * n_percent)%Q).
  { apply Qmult_le_0_compat; [| done]. by rewrite <- (Zle_Qle 0). }
  split; [| split; [| split]].
  - intros v Hv.
    pose proof (majority_information_double m n_percent v) as Hdouble.
    cbv zeta in Hdouble. rewrite (token_count_nonzero m Hnn) in Hdouble.
    by apply Hdouble.
  - by apply pareto_corpus_content_returns.
  - intros desc Hp Hs. by apply majority_docs_leading.
  - intros c Hc Hall. by apply (uniform_noise_bounds m n_percent c).
Qed.

(** C6 (amended) on five documents with one term each and the double
    [.8]: the product is the double 4, the threshold 4, three documents
    stay below it and the noise fraction is 2/5. *)
Lemma pareto_corpus_content_spec_witness :
  docs 5 ≠ [] ∧ nonneg_matrix (docs 5) ∧
  rounds_below_next_integer (np_sum (nonzero_count <$> docs 5)) double_0_8 ∧
  py_int 4 = majority_information (docs 5) double_0_8 ∧
  _pareto_corpus_content (docs 5) double_0_8 (fresh default_ParetoNMF)
    = (Returns tt,
       with_noise (1 - inject_Z (majority_docs (docs 5) double_0_8)
                       / inject_Z (shape0 (docs 5)))
         (fresh default_ParetoNMF)) ∧
  majority_docs (docs 5) double_0_8 =
    Z.of_nat (leading_below 0 [1; 1; 1; 1; 1]%Z
                (Qfloor (inject_Z 5 * double_0_8))) ∧
  (1 - double_0_8 <= 1 - inject_Z (majority_docs (docs 5) double_0_8)
                         / inject_Z (shape0 (docs 5)))%Q ∧
  (1 - inject_Z (majority_docs (docs 5) double_0_8) / inject_Z (shape0 (docs 5))
   < 1 - double_0_8 + 2 / inject_Z (shape0 (docs 5)))%Q.
Proof.
  assert (Hm : docs 5 ≠ []) by discriminate.
  assert (Hnn : nonneg_matrix (docs 5)).
  { repeat constructor; discriminate. }
  assert (Hsafe : rounds_below_next_integer
                    (np_sum (nonzero_count <$> docs 5)) double_0_8).
  { vm_compute. repeat split; discriminate. }
  destruct (pareto_corpus_content_spec (docs 5) double_0_8
              (fresh default_ParetoNMF) Hm Hnn Hsafe)
    as (Hint & Hrun & Hlead & Hbound).
  split; [exact Hm |]. split; [exact Hnn |]. split; [exact Hsafe |].
  split; [apply (Hint 4%Q); vm_compute; split; discriminate |].
  split; [exact Hrun |]. split.
  - apply (Hlead [1; 1; 1; 1; 1]%Z).
    + vm_compute. reflexivity.
    + repeat constructor; lia.
  - apply (Hbound 1%Z); [lia | repeat constructor].
Defined.

(** ** The noise estimator on degenerate matrices *)

(** Without any term occurrence no running total is below the threshold. *)
Lemma majority_docs_no_tokens (m : matrix) (n_percent : Q) :
  np_sum (token_count m) = 0%Z → majority_docs m n_percent = 0%Z.
Proof.
  intros Hsum. unfold majority_docs, majority_information, np_cumsum.
  rewrite Hsum.
  rewrite (py_int_comp (inject_Z 0 * n_percent) 0) by ring.
  change (py_int 0) with 0%Z.
  destruct (sorted_reverse_desc (token_count m)) as [_ Hp].
  rewrite count_lt_leading.
  - rewrite leading_below_nonpos; [done | | lia | lia].
    rewrite Hp. apply token_count_nonneg.
  - rewrite Hp. apply token_count_nonneg.
Qed.

(** The claim C7 as written fails: on a matrix with one document and no
    term occurrence the noise estimator raises nothing. *)
Lemma pareto_corpus_content_all_zero_returns :
  np_sum (token_count [[0%Q]]) = 0%Z ∧
  ¬ (∃ e w', _pareto_corpus_content [[0%Q]] (8 # 10) (fresh auto_ParetoNMF)
               = (Raises e, w')).
Proof.
  split; [reflexivity |]. intros (e & w' & Hraise).
  rewrite pareto_corpus_content_returns in Hraise by discriminate.
  discriminate Hraise.
Qed.

Section Degenerate.
Context `{Sklearn}.

(** C7 (amended). On a matrix without documents the noise estimator
    fails with the division by zero of its last line, a
    [ZeroDivisionError], and so does [evaluate] when [noise_pct] is
    ['auto']; the instance is left untouched. On a matrix that has
    documents but no term occurrence the noise estimator does not fail:
    it returns and sets [noise_pct] to 1. *)
Theorem pareto_corpus_content_degenerate (m : matrix) (n_percent : Q)
    (w : world) :
  _pareto_corpus_content [] n_percent w = (Raises ZeroDivisionError, w) ∧
  (noise_pct (self w) = Auto →
   evaluate [] w = (Raises ZeroDivisionError, w)) ∧
  (m ≠ [] → np_sum (token_count m) = 0%Z →
   ∃ q, (q == 1)%Q ∧
        _pareto_corpus_content m n_percent w = (Returns tt, with_noise q w)).
Proof.
  split; [reflexivity |]. split.
  - intros Hauto. unfold evaluate, evaluate_setup. run_monad.
    rewrite Hauto. reflexivity.
  - intros Hm Hsum. eexists. split; [| by apply pareto_corpus_content_returns].
    rewrite majority_docs_no_tokens by done.
    unfold Qdiv. ring.
Qed.
End Degenerate.

(** C7 (amended) on the matrix without rows and on two documents without
    any term. *)
Lemma pareto_corpus_content_degenerate_witness :
  noise_pct (self (fresh auto_ParetoNMF)) = Auto ∧
  @evaluate round_robin [] (fresh auto_ParetoNMF)
    = (Raises ZeroDivisionError, fresh auto_ParetoNMF) ∧
  [[0%Q]; [0%Q]] ≠ [] ∧
  np_sum (token_count [[0%Q]; [0%Q]]) = 0%Z ∧
  ∃ q, (q == 1)%Q ∧
       _pareto_corpus_content [[0%Q]; [0%Q]] (8 # 10) (fresh auto_ParetoNMF)
         = (Returns tt, with_noise q (fresh auto_ParetoNMF)).
Proof.
  assert (Hm : [[0%Q]; [0%Q]] ≠ ([] : matrix)) by discriminate.
  destruct (@pareto_corpus_content_degenerate round_robin [[0%Q]; [0%Q]]
              (8 # 10) (fresh auto_ParetoNMF)) as (_ & Hev & Hzero).
  split; [reflexivity |]. split; [exact (Hev eq_refl) |].
  split; [exact Hm |]. split; [reflexivity |].
  exact (Hzero Hm eq_refl).
Defined.

(** * Further properties of [ParetoNMF] *)

(** ** The step estimator *)

Lemma py_round_ratio (c d : Z) :
  (0 ≤ c)%Z → (0 < d)%Z →
  py_round (inject_Z c / inject_Z d) = ((2 * c + d) / (2 * d))%Z.
Proof.
  intros Hc Hd. unfold py_round.
  assert (HD : (0 < inject_Z d)%Q).
  { change 0%Q with (inject_Z 0). by rewrite <- Zlt_Qlt. }
  assert (Hnn : (0 <= inject_Z c / inject_Z d)%Q).
  { apply Qle_shift_div_l; [done |]. rewrite Qmult_0_l.
    change 0%Q with (inject_Z 0). by rewrite <- Zle_Qle. }
  rewrite (proj2 (Qle_bool_iff _ _) Hnn).
  rewrite Zdiv_Qdiv. apply Qfloor_comp.
  rewrite inject_Z_plus, !inject_Z_mult.
  change (inject_Z 2) with 2%Q.
  field. intros Hz. rewrite Hz in HD. by apply Qlt_irrefl in HD.
Qed.

(** X1. On a matrix without rows the step estimator fails with the
    [ZeroDivisionError] of its division and leaves the instance as it was.
    On any other matrix it sets [step] to the ratio of columns to rows,
    rounded half up, and to 1 where that is 0: the step is at least 1. *)
Theorem determine_auto_step_size_spec (m : matrix) (w : world) :
  _determine_auto_step_size [] w = (Raises ZeroDivisionError, w) ∧
  (m ≠ [] →
   let s := Z.max 1 ((2 * shape1 m + shape0 m) / (2 * shape0 m)) in
   _determine_auto_step_size m w = (Returns tt, with_step s w) ∧ (1 ≤ s)%Z).
Proof.
  split; [reflexivity |]. intros Hm s.
  split; [| subst s; lia].
  assert (Hd : (0 < shape0 m)%Z).
  { unfold shape0. destruct m; [done |]. simpl. lia. }
  assert (Hc : (0 ≤ shape1 m)%Z).
  { unfold shape1. destruct m; lia. }
  assert (Hq : (0 ≤ (2 * shape1 m + shape0 m) / (2 * shape0 m))%Z).
  { apply Z.div_pos; lia. }
  unfold _determine_auto_step_size.
  rewrite (proj2 (Z.eqb_neq _ _)) by lia.
  unfold auto_step. rewrite (py_round_ratio _ _ Hc Hd).
  run_monad. subst s.
  destruct ((2 * shape1 m + shape0 m) / (2 * shape0 m))%Z as [| q | q] eqn:Hquot.
  - reflexivity.
  - unfold with_step. rewrite Z.max_r by lia. reflexivity.
  - lia.
Qed.

(** X1 at 50 documents over 100 terms, where the step is 2. *)
Lemma determine_auto_step_size_spec_witness :
  replicate 50 (replicate 100 1%Q) ≠ [] ∧
  _determine_auto_step_size (replicate 50 (replicate 100 1%Q))
      (fresh auto_ParetoNMF)
    = (Returns tt, with_step 2 (fresh auto_ParetoNMF)).
Proof.
  assert (Hm : replicate 50 (replicate 100 1%Q) ≠ ([] : matrix)) by discriminate.
  destruct (determine_auto_step_size_spec (replicate 50 (replicate 100 1%Q))
              (fresh auto_ParetoNMF)) as [_ Hstep].
  split; [exact Hm |]. exact (proj1 (Hstep Hm)).
Defined.

(** ** The range of the noise fraction and of the threshold *)

Lemma length_cumsum_from (l : list Z) (acc : Z) :
  length (cumsum_from acc l) = length l.
Proof. revert acc. induction l as [| x l IH]; intros acc; simpl; [done | by rewrite IH]. Qed.

Lemma count_lt_bounds (a : list Z) (t : Z) :
  (0 ≤ count_lt a t ≤ Z.of_nat (length a))%Z.
Proof.
  unfold count_lt. pose proof (length_filter (λ c, (c < t)%Z) a). lia.
Qed.

Lemma majority_docs_bounds (m : matrix) (n_percent : Q) :
  (0 ≤ majority_docs m n_percent ≤ shape0 m)%Z.
Proof.
  unfold majority_docs, np_cumsum, shape0.
  pose proof (count_lt_bounds
                (cumsum_from 0 (sorted_reverse (token_count m)))
                (majority_information m n_percent)) as Hb.
  rewrite length_cumsum_from in Hb.
  destruct (sorted_reverse_desc (token_count m)) as [_ Hp].
  rewrite (Permutation_length Hp) in Hb.
  unfold token_count in Hb. rewrite length_fmap in Hb.
  exact Hb.
Qed.

Lemma noise_fraction_bounds (m : matrix) (n_percent : Q) :
  m ≠ [] →
  let q := (1 - inject_Z (majority_docs m n_percent) / inject_Z (shape0 m))%Q in
  (0 <= q)%Q ∧ (q <= 1)%Q.
Proof.
  intros Hm.
  assert (Hd : (0 < shape0 m)%Z).
  { unfold shape0. destruct m; [done |]. simpl. lia. }
  destruct (majority_docs_bounds m n_percent) as [Hlo Hhi].
  assert (HD : (0 < inject_Z (shape0 m))%Q).
  { change 0%Q with (inject_Z 0). by rewrite <- Zlt_Qlt. }
  assert (H0 : (0 <= inject_Z (majority_docs m n_percent) / inject_Z (shape0 m))%Q).
  { apply Qle_shift_div_l; [done |]. rewrite Qmult_0_l.
    change 0%Q with (inject_Z 0). by rewrite <- Zle_Qle. }
  assert (H1 : (inject_Z (majority_docs m n_percent) / inject_Z (shape0 m) <= 1)%Q).
  { apply Qle_shift_div_r; [done |]. rewrite Qmult_1_l. by rewrite <- Zle_Qle. }
  revert H0 H1. simpl.
  generalize (inject_Z (majority_docs m n_percent) / inject_Z (shape0 m))%Q.
  intros X H0 H1. split; lra.
Qed.

(** X2. Whatever the content fraction asked for, on a matrix with at least
    one document the noise estimator returns and the noise fraction it
    stores lies between 0 and 1. *)
Theorem pareto_noise_in_unit_interval (m : matrix) (n_percent : Q) (w : world) :
  m ≠ [] →
  ∃ q, _pareto_corpus_content m n_percent w = (Returns tt, with_noise q w) ∧
       (0 <= q)%Q ∧ (q <= 1)%Q.
Proof.
  intros Hm. eexists. split; [by apply pareto_corpus_content_returns |].
  by apply noise_fraction_bounds.
Qed.

(** X2 on the three documents of [skewed_docs], at any fraction. *)
Lemma pareto_noise_in_unit_interval_witness :
  skewed_docs ≠ [] ∧
  ∃ q, _pareto_corpus_content skewed_docs (3 # 2) (fresh auto_ParetoNMF)
         = (Returns tt, with_noise q (fresh auto_ParetoNMF)) ∧
       (0 <= q)%Q ∧ (q <= 1)%Q.
Proof.
  assert (Hm : skewed_docs ≠ []) by discriminate.
  split; [exact Hm |].
  exact (pareto_noise_in_unit_interval skewed_docs (3 # 2)
           (fresh auto_ParetoNMF) Hm).
Defined.

(** [int] of a share of [d] documents stays between 0 and [d]. *)
Lemma py_int_share (d : Z) (np : Q) :
  (0 ≤ d)%Z → (0 <= np)%Q → (np <= 1)%Q →
  (0 ≤ py_int (inject_Z d * (1 - np)) ≤ d)%Z.
Proof.
  intros Hd H0 H1.
  assert (HD : (0 <= inject_Z d)%Q).
  { change 0%Q with (inject_Z 0). by rewrite <- Zle_Qle. }
  assert (Hlo : (0 <= inject_Z d * (1 - np))%Q).
  { apply Qmult_le_0_compat; [done | lra]. }
  assert (Hhi : (inject_Z d * (1 - np) <= inject_Z d)%Q).
  { rewrite <- (Qmult_1_r (inject_Z d)) at 2.
    destruct (Qle_lt_or_eq _ _ HD) as [Hpos | Hzero].
    - apply Qmult_le_l; [done | lra].
    - rewrite <- Hzero. rewrite !Qmult_0_l. apply Qle_refl. }
  rewrite py_int_nonneg by done. split.
  - rewrite <- (Qfloor_Z 0). by apply Qfloor_resp_le.
  - rewrite <- (Qfloor_Z d) at 2. by apply Qfloor_resp_le.
Qed.

(** The attributes the set-up of [evaluate] has assigned when it returns. *)
Lemma evaluate_setup_state (m : matrix) (w w0 : world) (ta : list Z) :
  evaluate_setup m w = (Returns ta, w0) →
  ∃ np,
    noise_pct (self w0) = Explicit np ∧
    corpus_count (self w0) = Some (shape0 m) ∧
    rich_content (self w0) = Some (py_int (inject_Z (shape0 m) * (1 - np))) ∧
    noise_content (self w0) =
      Some (shape0 m - py_int (inject_Z (shape0 m) * (1 - np)))%Z ∧
    (noise_pct (self w) = Auto →
     m ≠ [] ∧
     np = (1 - inject_Z (majority_docs m (8 # 10)) / inject_Z (shape0 m))%Q) ∧
    (∀ np0, noise_pct (self w) = Explicit np0 → np = np0).
Proof.
  unfold evaluate_setup, _pareto_corpus_content, _determine_auto_step_size.
  run_monad.
  destruct (noise_pct (self w)) as [| np0] eqn:Hnp; simpl.
  - destruct m as [| row m']; simpl; [done |].
    repeat (case_match; simpl in *; simplify_eq; try done);
      intros; simplify_eq; simpl;
      (eexists; repeat split; try reflexivity; try done; congruence).
  - repeat (case_match; simpl in *; simplify_eq; try done);
      intros; simplify_eq; simpl;
      (eexists; repeat split; try reflexivity; try done; congruence).
Qed.

(** X3. When the set-up of [evaluate] returns, [corpus_count] is the number
    of rows and [noise_content] is what [rich_content] leaves of it; with a
    noise fraction between 0 and 1, and always when the fraction was
    ['auto'], [rich_content] lies between 0 and the number of rows. *)
Theorem evaluate_setup_thresholds (m : matrix) (w w0 : world) (ta : list Z) :
  evaluate_setup m w = (Returns ta, w0) →
  ∃ np rc,
    noise_pct (self w0) = Explicit np ∧
    corpus_count (self w0) = Some (shape0 m) ∧
    rich_content (self w0) = Some rc ∧
    noise_content (self w0) = Some (shape0 m - rc)%Z ∧
    ((0 <= np)%Q → (np <= 1)%Q → (0 ≤ rc ≤ shape0 m)%Z) ∧
    (noise_pct (self w) = Auto → (0 ≤ rc ≤ shape0 m)%Z).
Proof.
  intros Hsetup.
  destruct (evaluate_setup_state m w w0 ta Hsetup)
    as (np & Hnp & Hcc & Hrc & Hnc & Hauto & _).
  exists np, (py_int (inject_Z (shape0 m) * (1 - np))).
  assert (Hd : (0 ≤ shape0 m)%Z) by (unfold shape0; lia).
  repeat split; try done.
  - by apply py_int_share.
  - by apply py_int_share.
  - destruct (Hauto H) as [Hm ->].
    destruct (noise_fraction_bounds m (8 # 10) Hm) as [H0 H1].
    by apply py_int_share.
  - destruct (Hauto H) as [Hm ->].
    destruct (noise_fraction_bounds m (8 # 10) Hm) as [H0 H1].
    by apply py_int_share.
Qed.

(** X3 on an estimator with both settings ['auto'] and [skewed_docs]. *)
Lemma evaluate_setup_thresholds_witness :
  ∃ np rc,
    noise_pct (self (snd (evaluate_setup skewed_docs (fresh auto_ParetoNMF))))
      = Explicit np ∧
    rich_content (self (snd (evaluate_setup skewed_docs (fresh auto_ParetoNMF))))
      = Some rc ∧
    (0 ≤ rc ≤ 3)%Z.
Proof.
  destruct (evaluate_setup_thresholds skewed_docs (fresh auto_ParetoNMF)
              (snd (evaluate_setup skewed_docs (fresh auto_ParetoNMF)))
              (progression 2 2 100))
    as (np & rc & Hnp & _ & Hrc & _ & _ & Hauto).
  - vm_compute. reflexivity.
  - exists np, rc. split; [exact Hnp |]. split; [exact Hrc |].
    exact (Hauto eq_refl).
Defined.

(** ** The estimator a search leaves behind *)

Lemma progression_cons (a st : Z) (n : nat) :
  progression a st (S n) = a :: progression (a + st) st n.
Proof.
  unfold progression. simpl. f_equal; [lia |].
  rewrite <- fmap_S_seq, <- list_fmap_compose.
  apply list_fmap_ext. intros _ i _. simpl. lia.
Qed.

Section Outcome.
Context `{Sklearn}.

(** An iteration that returns a count has backed off to the previous
    estimator, which must exist. *)
Lemma iteration_returns_some (m : matrix) (k r : Z) (w w' : world) :
  iteration m k w = (Returns (Some r), w') →
  ∃ e st,
    previous_nmf (self w) = Some e ∧ step (self w) = Explicit st ∧
    r = (k - st)%Z ∧
    topic_count (self w') = Some r ∧ nmf (self w') = Some e ∧
    previous_nmf (self w') = Some e ∧
    sk_calls w' = sk_calls w ++ [FitTransform k; Fit r].
Proof.
  unfold iteration, bind.
  pose proof (probe_calls m k w) as Hcalls.
  pose proof (probe_keeps step m k
                (λ _ _, eq_refl) (λ _ _, eq_refl) (λ _ _, eq_refl)
                (λ _ _, eq_refl) (λ _ _, eq_refl) w) as Hst.
  pose proof (probe_keeps previous_nmf m k
                (λ _ _, eq_refl) (λ _ _, eq_refl) (λ _ _, eq_refl)
                (λ _ _, eq_refl) (λ _ _, eq_refl) w) as Hprev.
  unfold keeps in *.
  destruct (probe m k w) as [[[est stop] | e] w1] eqn:Hprobe; simpl in *; [| done].
  destruct (probe_returns _ _ _ _ _ _ Hprobe) as (Htc & _ & _ & _).
  destruct stop; [| run_monad; done].
  unfold back_off, NMF_new, fit, sk_run. run_monad.
  rewrite Htc. simpl. rewrite Hst.
  destruct (step (self w)) as [| st]; simpl; [done |].
  destruct (sk_fit _ _ _ _) as [fct | e]; simpl; [| done].
  rewrite Hprev.
  destruct (previous_nmf (self w)) as [e |]; simpl; [| done].
  intros ?. simplify_eq. simpl.
  exists e, st. rewrite Hcalls, <- app_assoc. simpl. done.
Qed.

(** An iteration that lets the loop go on leaves its own estimator both as
    the current and as the previous one. *)
Lemma iteration_returns_none (m : matrix) (k : Z) (w w' : world) :
  iteration m k w = (Returns None, w') →
  ∃ est,
    fitted_at m k est ∧
    previous_nmf (self w') = Some est ∧ nmf (self w') = Some est ∧
    topic_count (self w') = Some k ∧ step (self w') = step (self w) ∧
    sk_calls w' = sk_calls w ++ [FitTransform k].
Proof.
  unfold iteration, bind.
  pose proof (probe_calls m k w) as Hcalls.
  pose proof (probe_keeps step m k
                (λ _ _, eq_refl) (λ _ _, eq_refl) (λ _ _, eq_refl)
                (λ _ _, eq_refl) (λ _ _, eq_refl) w) as Hst.
  unfold keeps in *.
  destruct (probe m k w) as [[[est stop] | e] w1] eqn:Hprobe; simpl in *; [| done].
  destruct (probe_returns _ _ _ _ _ _ Hprobe) as (Htc & Hnmf & Hk & Hfit).
  destruct stop.
  - intros Hb. pose proof (back_off_not_none m w1) as Hnn.
    rewrite Hb in Hnn. done.
  - run_monad. intros ?. simplify_eq. simpl.
    exists est. unfold fitted_at. done.
Qed.

(** Along a progression from [a], if the previous estimator (when there is
    one) belongs to the count before [a], a returned count is a count of
    the progression moved back one step, and the estimator left in
    [self.nmf] has that many components. *)
Lemma for_each_returns_some (m : matrix) (st : Z) (n : nat) :
  ∀ (a : Z) (w w' : world) (r : Z),
    step (self w) = Explicit st →
    (∀ e, previous_nmf (self w) = Some e → fitted_at m (a - st) e) →
    for_each (iteration m) (progression a st n) w = (Returns (Some r), w') →
    ∃ (i : nat) (e : NMF),
      i < n ∧ r = (a + Z.of_nat i * st - st)%Z ∧
      (previous_nmf (self w) = None → 0 < i) ∧
      topic_count (self w') = Some r ∧ nmf (self w') = Some e ∧
      fitted_at m r e.
Proof.
  induction n as [| n IH]; intros a w w' r Hst Hprev; [done |].
  rewrite progression_cons. simpl. unfold bind.
  destruct (iteration m a w) as [[[v |] | e] w1] eqn:Hit; simpl; [| | done].
  - unfold ret. intros ?. simplify_eq.
    destruct (iteration_returns_some _ _ _ _ _ Hit)
      as (e & st' & Hp & Hst' & -> & Htc & Hnmf & _).
    rewrite Hst in Hst'. simplify_eq.
    exists 0, e. rewrite Hp.
    split; [lia |]. split; [lia |]. split; [done |].
    split; [done |]. split; [done |]. by apply Hprev.
  - intros Hrest.
    destruct (iteration_returns_none _ _ _ _ Hit)
      as (est & Hfit & Hp1 & _ & _ & Hst1 & _).
    destruct (IH (a + st)%Z w1 w' r) as (i & e & Hi & Hr & _ & Htc & Hnmf & Hfe).
    + by rewrite Hst1.
    + intros e He. rewrite Hp1 in He. simplify_eq.
      by replace (a + st - st)%Z with a by lia.
    + exact Hrest.
    + exists (S i), e.
      split; [lia |]. split; [lia |]. split; [intros _; lia |]. done.
Qed.

(** Along a progression, a loop that ends without a [return] has tried
    every count and leaves the last one in [self.topic_count] and its
    estimator in [self.nmf]. *)
Lemma for_each_returns_none (m : matrix) (st : Z) (n : nat) :
  ∀ (a : Z) (w w' : world),
    for_each (iteration m) (progression a st n) w = (Returns None, w') →
    sk_calls w' = sk_calls w ++ (FitTransform <$> progression a st n) ∧
    match n with
    | 0 => w' = w
    | S n' =>
        ∃ est, fitted_at m (a + Z.of_nat n' * st)%Z est ∧
               nmf (self w') = Some est ∧ previous_nmf (self w') = Some est ∧
               topic_count (self w') = Some (a + Z.of_nat n' * st)%Z
    end.
Proof.
  induction n as [| n IH]; intros a w w'.
  - simpl. unfold ret. intros ?. simplify_eq. by rewrite app_nil_r.
  - rewrite progression_cons. simpl. unfold bind.
    destruct (iteration m a w) as [[[v |] | e] w1] eqn:Hit; simpl; [done | | done].
    intros Hrest.
    destruct (iteration_returns_none _ _ _ _ Hit)
      as (est & Hfit & Hp1 & Hnmf1 & Htc1 & _ & Hcalls1).
    destruct (IH (a + st)%Z w1 w' Hrest) as [Hcalls Hlast].
    split.
    + rewrite Hcalls, Hcalls1, <- app_assoc. done.
    + destruct n as [| n'].
      * subst w'. exists est.
        replace (a + Z.of_nat 0 * st)%Z with a by lia. done.
      * destruct Hlast as (est' & Hfit' & Hnmf' & Hprev' & Htc').
        replace (a + st + Z.of_nat n' * st)%Z
          with (a + Z.of_nat (S n') * st)%Z in * by lia.
        by exists est'.
Qed.

(** X4. On an estimator without a previous factorization, a topic count
    that [evaluate] returns is one of the counts it tried, and not the last
    one tried: [start + i * step] for some [i] with [i + 2 <= max_steps].
    It is also what [self.topic_count] holds, and [self.nmf] is an
    estimator with exactly that many components, fitted on the matrix. *)
Theorem evaluate_result_consistent (m : matrix) (w w' : world) (r : Z) :
  previous_nmf (self w) = None →
  evaluate m w = (Returns (Some r), w') →
  ∃ (st : Z) (i : nat) (e : NMF),
    step (self w') = Explicit st ∧
    r = (start (self w) + Z.of_nat i * st)%Z ∧
    i + 2 ≤ Z.to_nat (max_steps (self w)) ∧
    topic_count (self w') = Some r ∧
    nmf (self w') = Some e ∧ fitted_at m r e.
Proof.
  intros Hnone. unfold evaluate, bind.
  pose proof (evaluate_setup_keeps (λ w, previous_nmf (self w)) m
                (λ _ _, eq_refl) (λ _ _, eq_refl) (λ _ _, eq_refl)
                (λ _ _, eq_refl) (λ _ _, eq_refl) w) as Hprev0.
  destruct (evaluate_setup m w) as [[ta | e] w0] eqn:Hsetup; simpl; [| done].
  unfold keeps in Hprev0. simpl in Hprev0. rewrite Hnone in Hprev0.
  destruct (evaluate_setup_returns m w w0 ta Hsetup)
    as (np & st & _ & Hst & Harange).
  assert (Hne : st ≠ 0%Z).
  { intros ->. unfold np_arange in Harange. simpl in Harange. done. }
  rewrite np_arange_progression in Harange by done. simplify_eq.
  intros Hloop.
  pose proof (for_each_iteration_keeps step m
                (progression (start (self w)) st (Z.to_nat (max_steps (self w))))
                (λ _ _, eq_refl) (λ _ _, eq_refl) (λ _ _, eq_refl)
                (λ _ _, eq_refl) (λ _ _, eq_refl) (λ _ _, eq_refl) w0) as Hkeep.
  fold (progression (start (self w)) st (Z.to_nat (max_steps (self w)))) in Hloop.
  unfold keeps in Hkeep. rewrite Hloop in Hkeep. simpl in Hkeep.
  destruct (for_each_returns_some m st (Z.to_nat (max_steps (self w)))
              (start (self w)) w0 w' r Hst)
    as (i & e & Hi & Hr & Hpos & Htc & Hnmf & Hfit).
  - intros e He. rewrite Hprev0 in He. done.
  - exact Hloop.
  - specialize (Hpos Hprev0).
    destruct i as [| i]; [lia |].
    exists st, i, e. rewrite Hkeep, Hst.
    split; [done |]. split; [lia |]. split; [lia |]. done.
Qed.

(** X5. When [evaluate] returns [None], it has tried every one of the
    [max_steps] counts of [topic_array] and made no other sklearn call;
    if there was at least one, [self.topic_count] is the last count tried
    and [self.nmf] its estimator. *)
Theorem evaluate_exhausted_state (m : matrix) (w w' : world) :
  evaluate m w = (Returns None, w') →
  ∃ st : Z,
    step (self w') = Explicit st ∧
    new_calls w w' =
      FitTransform <$> progression (start (self w)) st
                         (Z.to_nat (max_steps (self w))) ∧
    ((0 < max_steps (self w))%Z →
     let k := (start (self w) + (max_steps (self w) - 1) * st)%Z in
     topic_count (self w') = Some k ∧
     ∃ est, nmf (self w') = Some est ∧ fitted_at m k est).
Proof.
  unfold evaluate, bind.
  pose proof (evaluate_setup_keeps sk_calls m
                (λ _ _, eq_refl) (λ _ _, eq_refl) (λ _ _, eq_refl)
                (λ _ _, eq_refl) (λ _ _, eq_refl) w) as Hcalls0.
  destruct (evaluate_setup m w) as [[ta | e] w0] eqn:Hsetup; simpl; [| done].
  unfold keeps in Hcalls0. simpl in Hcalls0.
  destruct (evaluate_setup_returns m w w0 ta Hsetup)
    as (np & st & _ & Hst & Harange).
  assert (Hne : st ≠ 0%Z).
  { intros ->. unfold np_arange in Harange. simpl in Harange. done. }
  rewrite np_arange_progression in Harange by done. simplify_eq.
  intros Hloop.
  pose proof (for_each_iteration_keeps step m
                (progression (start (self w)) st (Z.to_nat (max_steps (self w))))
                (λ _ _, eq_refl) (λ _ _, eq_refl) (λ _ _, eq_refl)
                (λ _ _, eq_refl) (λ _ _, eq_refl) (λ _ _, eq_refl) w0) as Hkeep.
  fold (progression (start (self w)) st (Z.to_nat (max_steps (self w)))) in Hloop.
  unfold keeps in Hkeep. rewrite Hloop in Hkeep. simpl in Hkeep.
  destruct (for_each_returns_none m st (Z.to_nat (max_steps (self w)))
              (start (self w)) w0 w' Hloop)
    as [Hcalls Hlast].
  exists st. rewrite Hkeep, Hst. split; [done |]. split.
  - apply new_calls_app. by rewrite Hcalls, Hcalls0.
  - intros Hpos.
    destruct (Z.to_nat (max_steps (self w))) as [| n'] eqn:Hn; [lia |].
    destruct Hlast as (est & Hfit & Hnmf & _ & Htc).
    replace (start (self w) + (max_steps (self w) - 1) * st)%Z
      with (start (self w) + Z.of_nat n' * st)%Z by lia.
    split; [done |]. by exists est.
Qed.
End Outcome.

(** X4 on four documents with the default settings: the count returned
    is 4, the second of the three counts tried. *)
Lemma evaluate_result_consistent_witness :
  ∃ (st : Z) (i : nat) (e : NMF),
    4%Z = (2 + Z.of_nat i * st)%Z ∧
    i + 2 ≤ 100 ∧
    nmf (self (snd (@evaluate round_robin (docs 4) (fresh default_ParetoNMF))))
      = Some e ∧
    fitted_at (docs 4) 4 e.
Proof.
  destruct (@evaluate_result_consistent round_robin (docs 4)
              (fresh default_ParetoNMF)
              (snd (@evaluate round_robin (docs 4) (fresh default_ParetoNMF)))
              4)
    as (st & i & e & _ & Hr & Hi & _ & Hnmf & Hfit).
  - reflexivity.
  - vm_compute. reflexivity.
  - exists st, i, e. repeat split; try assumption. apply Hfit. apply Hfit.
Defined.

(** X5 on four documents with [max_steps = 2]: both counts are tried and
    the estimator for 4 topics is left behind. *)
Lemma evaluate_exhausted_state_witness :
  ∃ st : Z,
    new_calls (fresh (ParetoNMF_with 2 2))
        (snd (@evaluate round_robin (docs 4) (fresh (ParetoNMF_with 2 2))))
      = FitTransform <$> progression 2 st 2 ∧
    ∃ est,
      nmf (self (snd (@evaluate round_robin (docs 4) (fresh (ParetoNMF_with 2 2)))))
        = Some est ∧
      fitted_at (docs 4) (2 + (2 - 1) * st) est.
Proof.
  destruct (@evaluate_exhausted_state round_robin (docs 4)
              (fresh (ParetoNMF_with 2 2))
              (snd (@evaluate round_robin (docs 4) (fresh (ParetoNMF_with 2 2)))))
    as (st & _ & Hcalls & Hlast).
  - vm_compute. reflexivity.
  - exists st. split; [exact Hcalls |].
    destruct Hlast as [_ Hest]; [reflexivity |]. exact Hest.
Defined.

(** ** When the stability check finds no rich topic *)

Lemma leading_below_zero_iff (l : list Z) (t : Z) :
  leading_below 0 l t = 0 ↔ l = [] ∨ ∃ x rest, l = x :: rest ∧ (t ≤ x)%Z.
Proof.
  destruct l as [| x rest]; simpl.
  - split; [by left | done].
  - destruct (decide (0 + x < t)%Z) as [Hlt | Hge].
    + split; [done |]. intros [? | (y & rest' & ? & Hy)]; simplify_eq. lia.
    + split; [| done]. intros _. right. exists x, rest. split; [done | lia].
Qed.

Lemma values_empty_iff (summary : gmap nat nat) :
  values summary = [] ↔ summary = ∅.
Proof.
  unfold values. split.
  - intros Hnil. apply fmap_nil_inv, fmap_nil_inv in Hnil.
    by apply map_to_list_empty_iff.
  - intros ->. by rewrite map_to_list_empty.
Qed.

Lemma elem_of_values (summary : gmap nat nat) (x : Z) :
  x ∈ values summary ↔ ∃ k c, summary !! k = Some c ∧ x = Z.of_nat c.
Proof.
  unfold values. rewrite list_elem_of_fmap. split.
  - intros (c & -> & Hc). apply list_elem_of_fmap in Hc as ([k c'] & -> & Hkc).
    apply elem_of_map_to_list in Hkc. by exists k, c'.
  - intros (k & c & Hkc & ->). exists c. split; [done |].
    apply list_elem_of_fmap. exists (k, c). split; [done |].
    by apply elem_of_map_to_list.
Qed.

(** No running total is below the threshold exactly when there is no topic
    or some topic, hence the largest, holds at least [rc] documents. *)
Lemma topics_with_rich_content_zero_iff (summary : gmap nat nat) (rc : Z) :
  topics_with_rich_content summary rc = 0%Z ↔
  summary = ∅ ∨ ∃ k c, summary !! k = Some c ∧ (rc ≤ Z.of_nat c)%Z.
Proof.
  destruct (np_sort_reversed_desc (values summary)) as [Hs Hp].
  rewrite (topics_with_rich_content_leading summary rc _ Hp Hs).
  assert (Hz : ∀ n : nat, Z.of_nat n = 0%Z ↔ n = 0) by lia.
  rewrite Hz, leading_below_zero_iff. split.
  - intros [Hnil | (x & rest & Hdesc & Hx)].
    + left. apply values_empty_iff. apply Permutation_nil_r.
      by rewrite <- Hp, Hnil.
    + right. assert (Hin : x ∈ values summary).
      { rewrite <- Hp, Hdesc. by left. }
      apply elem_of_values in Hin as (k & c & Hkc & ->). by exists k, c.
  - intros [-> | (k & c & Hkc & Hc)].
    + left. apply Permutation_nil_r. rewrite Hp.
      by rewrite (proj2 (values_empty_iff ∅) eq_refl).
    + assert (Hin : Z.of_nat c ∈ reverse (np_sort (values summary))).
      { rewrite Hp. apply elem_of_values. by exists k, c. }
      destruct (reverse (np_sort (values summary))) as [| x rest] eqn:Hdesc;
        [by apply not_elem_of_nil in Hin |].
      right. exists x, rest. split; [done |].
      apply elem_of_cons in Hin as [<- | Hin]; [done |].
      apply Sorted_StronglySorted in Hs; [| apply _].
      apply StronglySorted_inv in Hs as [_ Hall].
      rewrite Forall_forall in Hall. specialize (Hall _ Hin). lia.
Qed.

(** X6. While [rich_topics] is 0, as on a new estimator, the stability
    check answers "stable" exactly when no topic was found or some topic
    (hence the largest) holds at least [rich_content] documents. *)
Theorem stopping_condition_zero_iff (w : world) (summary : gmap nat nat)
    (rc : Z) :
  topic_summary (self w) = Some summary →
  rich_content (self w) = Some rc →
  rich_topics (self w) = 0%Z →
  fst (_stopping_condition w) = Returns true ↔
  summary = ∅ ∨ ∃ k c, summary !! k = Some c ∧ (rc ≤ Z.of_nat c)%Z.
Proof.
  intros Hsum Hrc Hrt.
  rewrite <- topics_with_rich_content_zero_iff.
  unfold _stopping_condition. run_monad. rewrite Hsum, Hrc, Hrt.
  destruct (topics_with_rich_content summary rc =? 0)%Z eqn:Heq; simpl.
  - apply Z.eqb_eq in Heq. done.
  - apply Z.eqb_neq in Heq. split; [done | by intros ?].
Qed.

(** X6 on two topics of five documents: with threshold 5 the first check
    is stable, the largest topic reaching the threshold. *)
Lemma stopping_condition_zero_iff_witness :
  fst (_stopping_condition (checking summary_5_5 5 0)) = Returns true ↔
  summary_5_5 = ∅ ∨ ∃ k c, summary_5_5 !! k = Some c ∧ (5 ≤ Z.of_nat c)%Z.
Proof.
  exact (stopping_condition_zero_iff (checking summary_5_5 5 0) summary_5_5 5
           eq_refl eq_refl eq_refl).
Defined.

Section NoRichContent.
Context `{Sklearn}.

(** What the first half of an iteration answers. *)
Lemma probe_answer (m : matrix) (k : Z) (w w' : world) (est : NMF) (b : bool) :
  probe m k w = (Returns (est, b), w') →
  ∃ summary rc,
    topic_summary (self w') = Some summary ∧
    rich_content (self w) = Some rc ∧
    b = (topics_with_rich_content summary rc =? rich_topics (self w))%Z.
Proof.
  unfold probe, NMF_new, fit_transform, sk_run, _stopping_condition.
  run_monad.
  repeat (case_match; simpl in *; simplify_eq; try done);
    intros; simplify_eq; simpl; eauto 10.
Qed.

(** Without a previous estimator the stable branch always raises. *)
Lemma back_off_without_previous (m : matrix) (w : world) :
  previous_nmf (self w) = None → ∃ e w', back_off m w = (Raises e, w').
Proof.
  intros Hnone. unfold back_off, NMF_new, fit, sk_run. run_monad.
  destruct (topic_count (self w)); simpl; [| eauto].
  destruct (step (self w)); simpl; [eauto |].
  destruct (sk_fit _ _ _ _); simpl; [| eauto].
  rewrite Hnone. eauto.
Qed.

(** X7. On a new estimator (no previous factorization, [rich_topics = 0])
    whose threshold [rich_content] is not positive, as for a single
    document under the default noise fraction, [evaluate] never returns:
    if the loop runs at all, its first check is stable and the back-off
    raises. *)
Theorem evaluate_raises_without_rich_content (m : matrix) (w w0 : world)
    (ta : list Z) (rc : Z) :
  previous_nmf (self w) = None →
  rich_topics (self w) = 0%Z →
  evaluate_setup m w = (Returns ta, w0) →
  ta ≠ [] →
  rich_content (self w0) = Some rc → (rc ≤ 0)%Z →
  ∃ e w', evaluate m w = (Raises e, w').
Proof.
  intros Hnone Hrt Hsetup Hta Hrc Hle.
  pose proof (evaluate_setup_keeps (λ w, previous_nmf (self w)) m
                (λ _ _, eq_refl) (λ _ _, eq_refl) (λ _ _, eq_refl)
                (λ _ _, eq_refl) (λ _ _, eq_refl) w) as Hprev0.
  pose proof (evaluate_setup_keeps (λ w, rich_topics (self w)) m
                (λ _ _, eq_refl) (λ _ _, eq_refl) (λ _ _, eq_refl)
                (λ _ _, eq_refl) (λ _ _, eq_refl) w) as Hrt0.
  unfold keeps in *. rewrite Hsetup in Hprev0, Hrt0. simpl in *.
  rewrite Hnone in Hprev0. rewrite Hrt in Hrt0.
  unfold evaluate, bind. rewrite Hsetup.
  destruct ta as [| k rest]; [done |]. simpl. unfold bind, iteration, bind.
  pose proof (probe_keeps previous_nmf m k
                (λ _ _, eq_refl) (λ _ _, eq_refl) (λ _ _, eq_refl)
                (λ _ _, eq_refl) (λ _ _, eq_refl) w0) as Hprev2.
  unfold keeps in Hprev2.
  destruct (probe m k w0) as [[[est b] | e] w2] eqn:Hprobe; simpl in *; [| eauto].
  destruct (probe_answer _ _ _ _ _ _ Hprobe) as (summary & rc' & _ & Hrc' & ->).
  rewrite Hrc in Hrc'. simplify_eq.
  assert (Hzero : topics_with_rich_content summary rc' = 0%Z).
  { unfold topics_with_rich_content, np_cumsum.
    destruct (np_sort_reversed_desc (values summary)) as [_ Hp].
    assert (Hnn : Forall (λ x, (0 ≤ x)%Z) (reverse (np_sort (values summary)))).
    { rewrite Hp. apply values_nonneg. }
    rewrite count_lt_leading by done.
    rewrite leading_below_nonpos; [done | done | lia | done]. }
  rewrite Hzero, Hrt0. simpl.
  rewrite Hprev0 in Hprev2.
  destruct (back_off_without_previous m w2 Hprev2) as (e & w' & Hraise).
  rewrite Hraise. eauto.
Qed.
End NoRichContent.

(** X7 on a single document with the default settings, where
    [rich_content = int(1 * 0.8) = 0]. *)
Lemma evaluate_raises_without_rich_content_witness :
  ∃ e w', @evaluate round_robin (docs 1) (fresh default_ParetoNMF)
            = (Raises e, w').
Proof.
  apply (@evaluate_raises_without_rich_content round_robin (docs 1)
           (fresh default_ParetoNMF)
           (snd (evaluate_setup (docs 1) (fresh default_ParetoNMF)))
           (progression 2 2 100) 0).
  - reflexivity.
  - reflexivity.
  - vm_compute. reflexivity.
  - discriminate.
  - vm_compute. reflexivity.
  - lia.
Defined.

(** ** The range of the rich-topic count *)

Lemma leading_below_mono (l : list Z) (acc t t' : Z) :
  (t ≤ t')%Z → leading_below acc l t ≤ leading_below acc l t'.
Proof.
  intros Ht. revert acc. induction l as [| x l IH]; intros acc; simpl; [done |].
  destruct (decide (acc + x < t)%Z), (decide (acc + x < t')%Z); try lia.
  specialize (IH (acc + x)%Z). lia.
Qed.

Lemma leading_below_le_length (l : list Z) (acc t : Z) :
  leading_below acc l t ≤ length l.
Proof.
  revert acc. induction l as [| x l IH]; intros acc; simpl; [done |].
  destruct (decide (acc + x < t)%Z); [| lia].
  specialize (IH (acc + x)%Z). lia.
Qed.

Lemma leading_below_lt_length (l : list Z) (acc t : Z) :
  l ≠ [] → (t ≤ acc + np_sum l)%Z → leading_below acc l t < length l.
Proof.
  revert acc. induction l as [| x l IH]; intros acc Hne Ht; [done |].
  simpl in *. destruct (decide (acc + x < t)%Z) as [Hlt | Hge]; [| lia].
  destruct l as [| y l']; [simpl in *; lia |].
  assert (Hrec : leading_below (acc + x) (y :: l') t < length (y :: l')).
  { apply IH; [done |]. unfold np_sum in *. simpl in *. lia. }
  simpl in *. lia.
Qed.

Lemma np_sum_permutation (l1 l2 : list Z) : l1 ≡ₚ l2 → np_sum l1 = np_sum l2.
Proof.
  unfold np_sum. induction 1 as [| x l1 l2 _ IH | x y l | l1 l2 l3 _ IH1 _ IH2];
    simpl; lia.
Qed.

Lemma length_values (summary : gmap nat nat) :
  length (values summary) = size summary.
Proof. unfold values. by rewrite !length_fmap, length_map_to_list. Qed.

(** X8. The number of rich topics lies between 0 and the number of topics
    found; it does not decrease when the threshold grows; and as long as
    the threshold does not exceed the number of documents counted, at least
    one topic stays outside. *)
Theorem topics_with_rich_content_range (summary : gmap nat nat) (rc rc' : Z) :
  (0 ≤ topics_with_rich_content summary rc ≤ Z.of_nat (size summary))%Z ∧
  ((rc ≤ rc')%Z →
   (topics_with_rich_content summary rc
    ≤ topics_with_rich_content summary rc')%Z) ∧
  (summary ≠ ∅ → (rc ≤ np_sum (values summary))%Z →
   (topics_with_rich_content summary rc < Z.of_nat (size summary))%Z).
Proof.
  destruct (np_sort_reversed_desc (values summary)) as [Hs Hp].
  rewrite !(topics_with_rich_content_leading summary _ _ Hp Hs).
  rewrite <- length_values, <- (Permutation_length Hp).
  split; [| split].
  - pose proof (leading_below_le_length
                  (reverse (np_sort (values summary))) 0 rc). lia.
  - intros Hle.
    pose proof (leading_below_mono
                  (reverse (np_sort (values summary))) 0 rc rc' Hle). lia.
  - intros Hne Hsum.
    assert (Hlt : leading_below 0 (reverse (np_sort (values summary))) rc
                  < length (reverse (np_sort (values summary)))).
    { apply leading_below_lt_length.
      - intros Hnil. apply Hne, values_empty_iff, Permutation_nil_r.
        by rewrite <- Hp, Hnil.
      - by rewrite (np_sum_permutation _ _ Hp). }
    lia.
Qed.

(** X8 on topics of 10, 8 and 2 documents with thresholds 15 and 20. *)
Lemma topics_with_rich_content_range_witness :
  (topics_with_rich_content summary_10_8_2 15
   ≤ topics_with_rich_content summary_10_8_2 20)%Z ∧
  (topics_with_rich_content summary_10_8_2 20 < 3)%Z.
Proof.
  destruct (topics_with_rich_content_range summary_10_8_2 15 20)
    as (_ & Hmono & _).
  destruct (topics_with_rich_content_range summary_10_8_2 20 20)
    as (_ & _ & Hlt).
  split; [apply Hmono; lia |].
  apply Hlt; [discriminate | vm_compute; discriminate].
Defined.

(** ** Labels and topic sizes *)

Lemma argmax_from_spec (row : list Q) :
  ∀ (best : Q) (besti i : nat) (pre : list Q),
    length pre = i → besti < i →
    pre !! besti = Some best →
    (∀ j x, pre !! j = Some x → (x <= best)%Q ∧ (j < besti → (x < best)%Q)) →
    let l := argmax_from best besti i row in
    l < i + length row ∧
    ∃ y, (pre ++ row) !! l = Some y ∧
         ∀ j x, (pre ++ row) !! j = Some x →
                (x <= y)%Q ∧ (j < l → (x < y)%Q).
Proof.
  induction row as [| x row IH]; intros best besti i pre Hlen Hlt Hbest Hall; simpl.
  - split; [lia |]. exists best. rewrite app_nil_r. done.
  - destruct (decide (best < x)%Q) as [Hbx | Hnbx].
    + destruct (IH x i (S i) (pre ++ [x])) as [Hl Hy].
      * rewrite length_app. simpl. lia.
      * lia.
      * rewrite lookup_app_r by lia. by replace (i - length pre) with 0 by lia.
      * intros j z Hj. destruct (decide (j < i)) as [Hji | Hji].
        -- rewrite lookup_app_l in Hj by lia.
           destruct (Hall j z Hj) as [Hle _]. split.
           ++ apply Qlt_le_weak. by eapply Qle_lt_trans.
           ++ intros _. by eapply Qle_lt_trans.
        -- rewrite lookup_app_r in Hj by lia.
           destruct (j - length pre) as [| n] eqn:Hn; simpl in Hj; [| by destruct n].
           simplify_eq. split; [apply Qle_refl | lia].
      * rewrite <- app_assoc in Hy. simpl in Hy. split; [lia | done].
    + destruct (IH best besti (S i) (pre ++ [x])) as [Hl Hy].
      * rewrite length_app. simpl. lia.
      * lia.
      * by rewrite lookup_app_l by lia.
      * intros j z Hj. destruct (decide (j < i)) as [Hji | Hji].
        -- rewrite lookup_app_l in Hj by lia. by apply Hall.
        -- rewrite lookup_app_r in Hj by lia.
           destruct (j - length pre) as [| n] eqn:Hn; simpl in Hj; [| by destruct n].
           simplify_eq. split; [by apply Qnot_lt_le | lia].
      * rewrite <- app_assoc in Hy. simpl in Hy. split; [lia | done].
Qed.

(** [np.argmax] yields the first position of a largest entry. *)
Lemma np_argmax_spec (row : list Q) (l : nat) :
  np_argmax row = Returns l →
  ∃ y, row !! l = Some y ∧
       ∀ j x, row !! j = Some x → (x <= y)%Q ∧ (j < l → (x < y)%Q).
Proof.
  destruct row as [| x row]; simpl; [done |]. intros ?. simplify_eq.
  destruct (argmax_from_spec row x 0 1 [x]) as [_ Hy]; try done; [lia |].
  intros [| j] z Hj; simpl in Hj; [| done]. simplify_eq.
  split; [apply Qle_refl | lia].
Qed.

Lemma argmax_rows_spec (W : list (list Q)) (labels : list nat) :
  argmax_rows W = Returns labels →
  length labels = length W ∧
  ∀ d row l, W !! d = Some row → labels !! d = Some l →
             np_argmax row = Returns l.
Proof.
  revert labels. induction W as [| row W IH]; intros labels; simpl.
  - intros ?. simplify_eq. done.
  - destruct (np_argmax row) as [i | e] eqn:Hrow; [| done].
    destruct (argmax_rows W) as [ls | e]; [| done].
    intros ?. simplify_eq. destruct (IH ls eq_refl) as [Hlen Hrows].
    split; [simpl; by rewrite Hlen |].
    intros [| d] row' l; simpl; intros ? ?; simplify_eq; [done |].
    by eapply Hrows.
Qed.

(** X9. When the labelling of the documents returns, there is one label
    per row of [W], and the label of a row is the first position of its
    largest loading: no loading of the row is larger and every earlier one
    is strictly smaller. It fails with [ValueError] when [W] has no row. *)
Theorem apply_argmax_spec (W : list (list Q)) (labels : list nat) :
  apply_argmax [] = Raises ValueError ∧
  (apply_argmax W = Returns labels →
   length labels = length W ∧
   ∀ d row l, W !! d = Some row → labels !! d = Some l →
     ∃ y, row !! l = Some y ∧
          ∀ j x, row !! j = Some x → (x <= y)%Q ∧ (j < l → (x < y)%Q)).
Proof.
  split; [done |]. intros Hret.
  assert (Hrows : argmax_rows W = Returns labels).
  { destruct W; [done | exact Hret]. }
  destruct (argmax_rows_spec W labels Hrows) as [Hlen Hlab].
  split; [done |]. intros d row l Hd Hl.
  apply np_argmax_spec. by eapply Hlab.
Qed.

(** X9 on two rows, the second with its largest loading twice. *)
Lemma apply_argmax_spec_witness :
  apply_argmax [[1; 3; 2]; [2; 5; 5]]%Q = Returns [1; 1] ∧
  ∃ y, [2; 5; 5]%Q !! 1 = Some y ∧
       ∀ j x, [2; 5; 5]%Q !! j = Some x → (x <= y)%Q ∧ (j < 1 → (x < y)%Q).
Proof.
  split; [reflexivity |].
  destruct (apply_argmax_spec [[1; 3; 2]; [2; 5; 5]]%Q [1; 1]) as [_ Hspec].
  destruct (Hspec eq_refl) as [_ Hrows].
  exact (Hrows 1 [2; 5; 5]%Q 1 eq_refl eq_refl).
Defined.

(** How often a label occurs. *)
Lemma counter_step_lookup (c : gmap nat nat) (l l' : nat) :
  <[l := S (default 0 (c !! l))]> c !! l' =
    if decide (l = l') then Some (S (default 0 (c !! l))) else c !! l'.
Proof. apply lookup_insert. Qed.

Lemma counter_foldl_lookup (labels : list nat) :
  ∀ (c : gmap nat nat) (l : nat),
    foldl (λ m x, <[x := S (default 0 (m !! x))]> m) c labels !! l =
      match length (filter (λ x, x = l) labels) with
      | 0 => c !! l
      | S n => Some (S n + default 0 (c !! l))
      end.
Proof.
  induction labels as [| x labels IH]; intros c l; simpl; [done |].
  rewrite IH, filter_cons, counter_step_lookup.
  destruct (decide (x = l)) as [-> | Hne]; simpl.
  - destruct (length (filter (λ x, x = l) labels)); simpl; f_equal; lia.
  - done.
Qed.

Lemma counter_step_sum (c : gmap nat nat) (l : nat) :
  np_sum (values (<[l := S (default 0 (c !! l))]> c)) = (np_sum (values c) + 1)%Z.
Proof.
  unfold values. destruct (c !! l) as [n |] eqn:Hl; simpl.
  - rewrite <- (insert_delete_eq c l (S n)).
    rewrite (np_sum_permutation _ (Z.of_nat <$> ((l, S n) :: map_to_list (delete l c)).*2)).
    2:{ do 2 apply fmap_Permutation. apply map_to_list_insert, lookup_delete_eq. }
    rewrite (np_sum_permutation (Z.of_nat <$> (map_to_list c).*2)
               (Z.of_nat <$> ((l, n) :: map_to_list (delete l c)).*2)).
    2:{ do 2 apply fmap_Permutation. symmetry. by apply map_to_list_delete. }
    unfold np_sum. rewrite !fmap_cons. cbn [foldr snd].
    rewrite Nat2Z.inj_succ. lia.
  - rewrite (np_sum_permutation _ (Z.of_nat <$> ((l, 1) :: map_to_list c).*2)).
    2:{ do 2 apply fmap_Permutation. by apply map_to_list_insert. }
    unfold np_sum. rewrite !fmap_cons. cbn [foldr snd]. lia.
Qed.

Lemma counter_foldl_sum (labels : list nat) :
  ∀ c : gmap nat nat,
    np_sum (values (foldl (λ m x, <[x := S (default 0 (m !! x))]> m) c labels))
      = (np_sum (values c) + Z.of_nat (length labels))%Z.
Proof.
  induction labels as [| x labels IH]; intros c; simpl; [lia |].
  rewrite IH, counter_step_sum. lia.
Qed.

(** A [Counter] holds, for each label that occurs, how often it occurs;
    the counts add up to the number of labels. *)
Lemma Counter_spec (labels : list nat) :
  np_sum (values (Counter labels)) = Z.of_nat (length labels) ∧
  ∀ l c, Counter labels !! l = Some c ↔
         c = length (filter (λ x, x = l) labels) ∧ 0 < c.
Proof.
  unfold Counter. split.
  - rewrite counter_foldl_sum. unfold values. by rewrite map_to_list_empty.
  - intros l c. rewrite counter_foldl_lookup, lookup_empty. simpl.
    destruct (length (filter (λ x, x = l) labels)) as [| n].
    + split; [done | lia].
    + split; [intros ?; simplify_eq; lia | intros [-> _]; f_equal; lia].
Qed.

Section TopicSizes.
Context `{Sklearn}.

(** X10. When the first half of an iteration returns, [topic_labels] holds
    the labels of the rows of the [W] that sklearn returned, and
    [topic_summary] maps every label that occurs, and no other, to the
    number of documents carrying it; the topic sizes add up to the number of
    rows of [W]. *)
Theorem probe_topic_sizes (m : matrix) (k : Z) (w w' : world) (est : NMF)
    (b : bool) :
  probe m k w = (Returns (est, b), w') →
  ∃ fct labels,
    sk_fit (length (sk_calls w)) (hyper (self w)) k m = Returns fct ∧
    apply_argmax (fact_W fct) = Returns labels ∧
    topic_labels (self w') = Some labels ∧
    topic_summary (self w') = Some (Counter labels) ∧
    np_sum (values (Counter labels)) = Z.of_nat (length (fact_W fct)) ∧
    ∀ l c, Counter labels !! l = Some c ↔
           c = length (filter (λ x, x = l) labels) ∧ 0 < c.
Proof.
  intros Hprobe.
  assert (Hrun : ∃ fct labels,
            sk_fit (length (sk_calls w)) (hyper (self w)) k m = Returns fct ∧
            apply_argmax (fact_W fct) = Returns labels ∧
            topic_labels (self w') = Some labels ∧
            topic_summary (self w') = Some (Counter labels)).
  { revert Hprobe.
    unfold probe, NMF_new, fit_transform, sk_run, _stopping_condition.
    run_monad.
    destruct (sk_fit _ _ _ _) as [fct | e] eqn:Hfit; simpl; [| done].
    destruct (apply_argmax (fact_W fct)) as [labels | e] eqn:Hlab; simpl; [| done].
    repeat (case_match; simpl in *; simplify_eq; try done);
      intros; simplify_eq; simpl; eauto 10. }
  destruct Hrun as (fct & labels & Hfit & Hlab & Hlabels & Hsummary).
  exists fct, labels. destruct (Counter_spec labels) as [Hsum Hlook].
  split; [done |]. split; [done |]. split; [done |]. split; [done |].
  split; [| exact Hlook].
  rewrite Hsum. f_equal.
  assert (Hrows : argmax_rows (fact_W fct) = Returns labels).
  { destruct (fact_W fct); [done | exact Hlab]. }
  by destruct (argmax_rows_spec _ _ Hrows).
Qed.
End TopicSizes.

(** X10 on four documents at two topics: two documents per topic. *)
Lemma probe_topic_sizes_witness :
  ∃ labels,
    topic_labels (self (snd (@probe round_robin (docs 4) 2
                               (snd (evaluate_setup (docs 4)
                                       (fresh default_ParetoNMF))))))
      = Some labels ∧
    np_sum (values (Counter labels)) = 4%Z ∧
    Counter labels !! 0 = Some 2.
Proof.
  pose (w0 := snd (evaluate_setup (docs 4) (fresh default_ParetoNMF))).
  pose (r := @probe round_robin (docs 4) 2 w0).
  pose (est := match fst r with
               | Returns (e, _) => e
               | Raises _ => {| n_components := 0; nmf_hyper := default_hyper;
                                nmf_fitted := None |}
               end).
  destruct (@probe_topic_sizes round_robin (docs 4) 2 w0 (snd r) est false)
    as (fct & labels & Hfit & _ & Hlabels & _ & Hsum & Hlook).
  - vm_compute. reflexivity.
  - exists labels. split; [exact Hlabels |].
    vm_compute in Hfit. injection Hfit as <-.
    split; [exact Hsum |].
    vm_compute in Hlabels. injection Hlabels as <-.
    vm_compute. reflexivity.
Defined.

(** * Properties of the text processing *)

(** ** Splitting and joining *)

Lemma py_split_from_word (t : str) (cur s : str) :
  Forall (λ c, py_isspace c = false) t →
  py_split_from cur (t ++ s) = py_split_from (cur ++ t) s.
Proof.
  intros Ht. revert cur. induction Ht as [| c t Hc _ IH]; intros cur; simpl.
  - by rewrite app_nil_r.
  - rewrite Hc, IH, <- app_assoc. done.
Qed.

Lemma py_split_from_space (c : Ascii.ascii) (cur s : str) :
  py_isspace c = true →
  py_split_from cur (c :: s) =
    match cur with [] => py_split s | _ => cur :: py_split s end.
Proof. intros Hc. simpl. rewrite Hc. by destruct cur. Qed.

(** Splitting distributes over whitespace between two strings. *)
Lemma py_split_app_space (s1 s2 : str) (c : Ascii.ascii) :
  py_isspace c = true →
  py_split (s1 ++ c :: s2) = py_split s1 ++ py_split s2.
Proof.
  intros Hc. unfold py_split. generalize (@nil Ascii.ascii) at 1 2 as acc.
  induction s1 as [| d s1 IH]; intros acc; simpl.
  - rewrite Hc. by destruct acc.
  - destruct (py_isspace d); [| apply IH].
    destruct acc; simpl; by rewrite (IH []).
Qed.

Lemma py_split_app_lit_space (s1 s2 : str) :
  py_split (s1 ++ lit " " ++ s2) = py_split s1 ++ py_split s2.
Proof. exact (py_split_app_space s1 s2 (Ascii.ascii_of_nat 32) eq_refl). Qed.

Lemma py_join_cons (sep t t' : str) (ts : list str) :
  py_join sep (t :: t' :: ts) = t ++ sep ++ py_join sep (t' :: ts).
Proof. reflexivity. Qed.

Lemma py_split_word (t : str) : is_word t → py_split t = [t].
Proof.
  intros [Hne Ht]. unfold py_split.
  rewrite <- (app_nil_r t) at 1. rewrite py_split_from_word by done. simpl.
  by destruct t.
Qed.

(** What [split] returns are words. *)
Lemma py_split_from_words (s cur : str) :
  Forall (λ c, py_isspace c = false) cur →
  Forall is_word (py_split_from cur s).
Proof.
  revert cur. induction s as [| c s IH]; intros cur Hcur; simpl.
  - destruct cur; [done |]. constructor; [by split | constructor].
  - destruct (py_isspace c) eqn:Hc.
    + destruct cur; [by apply IH |].
      constructor; [by split | by apply IH].
    + apply IH. apply Forall_app. split; [done |]. by constructor.
Qed.

Lemma py_split_words (s : str) : Forall is_word (py_split s).
Proof. by apply py_split_from_words. Qed.

(** Joining words with a space and splitting again gives the words back. *)
Lemma py_split_join (ts : list str) :
  Forall is_word ts → py_split (py_join (lit " ") ts) = ts.
Proof.
  induction 1 as [| t ts Ht Hts IH]; [done |].
  destruct ts as [| t' ts'].
  - simpl. by apply py_split_word.
  - rewrite py_join_cons, py_split_app_lit_space.
    by rewrite IH, py_split_word.
Qed.

(** The words of the joined tweets are the words of all tweets. *)
Lemma py_split_join_tweets (tweets : list str) :
  py_split (py_join (lit " ") tweets) = corpus tweets.
Proof.
  unfold corpus. induction tweets as [| t ts IH]; [done |].
  destruct ts as [| t' ts'].
  - simpl. by rewrite app_nil_r.
  - rewrite py_join_cons, py_split_app_lit_space. rewrite IH. done.
Qed.

(** ** Replacing infrequent words *)

Lemma word_counter_foldl_lookup (words : list str) :
  ∀ (c : gmap str nat) (t : str),
    foldl (λ m x, <[x := S (default 0 (m !! x))]> m) c words !! t =
      match occurrences t words with
      | 0 => c !! t
      | S n => Some (S n + default 0 (c !! t))
      end.
Proof.
  unfold occurrences.
  induction words as [| x words IH]; intros c t; simpl; [done |].
  rewrite IH, filter_cons, lookup_insert.
  destruct (decide (x = t)) as [-> | Hne]; simpl.
  - destruct (length (filter (λ x, x = t) words)); simpl; f_equal; lia.
  - done.
Qed.

Lemma word_Counter_lookup (words : list str) (t : str) :
  word_Counter words !! t =
    match occurrences t words with 0 => None | S n => Some (S n) end.
Proof.
  unfold word_Counter. rewrite word_counter_foldl_lookup, lookup_empty. simpl.
  destruct (occurrences t words); [done | f_equal; lia].
Qed.

Lemma occurrences_pos (t : str) (words : list str) :
  t ∈ words ↔ 0 < occurrences t words.
Proof.
  unfold occurrences. induction words as [| x words IH].
  - simpl. split; [by intros ?%not_elem_of_nil | lia].
  - rewrite filter_cons, elem_of_cons.
    destruct (decide (x = t)) as [-> | Hne]; simpl.
    + split; [lia | by left].
    + rewrite IH. split; [intros [? | ?]; [done | lia] | by right].
Qed.

(** The infrequent words are the words that occur, at most four times. *)
Lemma infrequent_words_spec (words : list str) (t : str) :
  t ∈ (dom (filter (λ kv : str * nat, kv.2 ≤ 4) (word_Counter words)) : gset str)
  ↔ 0 < occurrences t words ≤ 4.
Proof.
  rewrite elem_of_dom. unfold is_Some.
  setoid_rewrite map_lookup_filter_Some. rewrite word_Counter_lookup. simpl.
  destruct (occurrences t words) as [| n].
  - split; [by intros (? & ? & _) | lia].
  - split.
    + intros (c & ? & Hc). simplify_eq. lia.
    + intros [_ Hle]. exists (S n). done.
Qed.

Lemma is_word_tkn : is_word (lit "_tkn_").
Proof. split; [done | by repeat constructor]. Qed.

Lemma keep_or_tkn_words (words ts : list str) :
  Forall is_word ts → Forall is_word (keep_or_tkn words <$> ts).
Proof.
  intros Hts. apply Forall_fmap. eapply Forall_impl; [exact Hts |].
  intros t Ht. simpl. unfold keep_or_tkn.
  destruct (decide (occurrences t words ≤ 4)); [apply is_word_tkn | done].
Qed.

Lemma elem_of_corpus (tweets : list str) (tweet t : str) :
  tweet ∈ tweets → t ∈ py_split tweet → t ∈ corpus tweets.
Proof.
  intros Htweet Ht. unfold corpus.
  induction tweets as [| tw tweets IH]; [by apply not_elem_of_nil in Htweet |].
  rewrite fmap_cons. simpl. apply elem_of_app.
  apply elem_of_cons in Htweet as [<- | Htweet]; [by left | right; by apply IH].
Qed.

(** The function, tweet by tweet. *)
Lemma replace_infrequent_words_unfold (tweets : list str) (n_words : Z) :
  replace_infrequent_words_with_tkn tweets n_words =
    (λ tweet, py_join (lit " ")
                (keep_or_tkn (corpus tweets) <$> py_split tweet)) <$> tweets.
Proof.
  unfold replace_infrequent_words_with_tkn.
  rewrite py_split_join_tweets.
  apply list_fmap_ext. intros i tweet Htweet. f_equal.
  apply list_fmap_ext. intros j t Ht.
  assert (Hocc : 0 < occurrences t (corpus tweets)).
  { apply occurrences_pos. eapply elem_of_corpus.
    - by eapply list_elem_of_lookup_2.
    - by eapply list_elem_of_lookup_2. }
  unfold keep_or_tkn.
  destruct (decide (t ∈ _)) as [Hin | Hnin];
    destruct (decide (occurrences t (corpus tweets) ≤ 4)) as [Hle | Hgt];
    try done.
  - apply infrequent_words_spec in Hin. lia.
  - exfalso. apply Hnin. apply infrequent_words_spec. lia.
Qed.

(** X11. Whatever [n_words] is, the result has one entry per tweet, and the
    words of an entry are the words of the tweet, in order, each kept if it
    occurs more than four times in all tweets together and replaced by
    [_tkn_] otherwise. *)
Theorem replace_infrequent_words_spec (tweets : list str) (n_words : Z) :
  length (replace_infrequent_words_with_tkn tweets n_words) = length tweets ∧
  ∀ i tweet, tweets !! i = Some tweet →
    ∃ out, replace_infrequent_words_with_tkn tweets n_words !! i = Some out ∧
           py_split out = keep_or_tkn (corpus tweets) <$> py_split tweet.
Proof.
  rewrite replace_infrequent_words_unfold. split; [by rewrite length_fmap |].
  intros i tweet Htweet. eexists. rewrite list_lookup_fmap, Htweet. simpl.
  split; [done |].
  apply py_split_join, keep_or_tkn_words, py_split_words.
Qed.

Lemma occurrences_fmap_fixed (f : str → str) (t : str) (words : list str) :
  f t = t → occurrences t words ≤ occurrences t (f <$> words).
Proof.
  intros Hf. unfold occurrences. induction words as [| x words IH]; [done |].
  rewrite fmap_cons, !filter_cons.
  destruct (decide (x = t)) as [-> | Hne].
  - rewrite Hf. destruct (decide (t = t)); [simpl; lia | done].
  - destruct (decide (f x = t)); simpl; lia.
Qed.

Lemma keep_or_tkn_tkn (words : list str) :
  keep_or_tkn words (lit "_tkn_") = lit "_tkn_".
Proof. unfold keep_or_tkn. by destruct (decide _). Qed.

Lemma keep_or_tkn_cases (words : list str) (t : str) :
  keep_or_tkn words t = lit "_tkn_" ∨
  (keep_or_tkn words t = t ∧ 4 < occurrences t words).
Proof.
  unfold keep_or_tkn. destruct (decide (occurrences t words ≤ 4)); [by left |].
  right. split; [done | lia].
Qed.

Lemma corpus_keep_or_tkn (words : list str) (tweets : list str) :
  corpus ((λ tweet, py_join (lit " ") (keep_or_tkn words <$> py_split tweet))
            <$> tweets)
  = keep_or_tkn words <$> corpus tweets.
Proof.
  unfold corpus. induction tweets as [| tweet tweets IH]; [done |].
  rewrite !fmap_cons, !concat_cons, fmap_app, IH. f_equal.
  apply py_split_join, keep_or_tkn_words, py_split_words.
Qed.

Lemma corpus_replaced (tweets : list str) (n_words : Z) :
  corpus (replace_infrequent_words_with_tkn tweets n_words) =
    keep_or_tkn (corpus tweets) <$> corpus tweets.
Proof.
  rewrite replace_infrequent_words_unfold. apply corpus_keep_or_tkn.
Qed.

(** X12. Replacing the infrequent words a second time changes nothing. *)
Theorem replace_infrequent_words_idempotent (tweets : list str)
    (n_words n_words' : Z) :
  replace_infrequent_words_with_tkn
    (replace_infrequent_words_with_tkn tweets n_words) n_words'
  = replace_infrequent_words_with_tkn tweets n_words.
Proof.
  rewrite (replace_infrequent_words_unfold
             (replace_infrequent_words_with_tkn tweets n_words)).
  rewrite corpus_replaced.
  rewrite !replace_infrequent_words_unfold.
  rewrite <- list_fmap_compose.
  apply list_fmap_ext. intros i tweet Htweet. simpl. f_equal.
  rewrite py_split_join by apply keep_or_tkn_words, py_split_words.
  rewrite <- list_fmap_compose.
  apply list_fmap_ext. intros j t Ht. simpl.
  set (C := corpus tweets).
  destruct (keep_or_tkn_cases C t) as [Htkn | [Hfix Hocc]].
  - rewrite Htkn. apply keep_or_tkn_tkn.
  - rewrite Hfix.
    pose proof (occurrences_fmap_fixed (keep_or_tkn C) t C Hfix).
    destruct (keep_or_tkn_cases (keep_or_tkn C <$> C) t) as [Htkn | [Hfix' _]];
      [| done].
    unfold keep_or_tkn at 1 in Htkn.
    destruct (decide (occurrences t (keep_or_tkn C <$> C) ≤ 4)); [lia |].
    rewrite Htkn. apply keep_or_tkn_tkn.
Qed.

(** ** Runs of equal bytes *)

Lemma unruns_cons (cn : Ascii.ascii * nat) (g : list (Ascii.ascii * nat)) :
  unruns (cn :: g) = replicate cn.2 cn.1 ++ unruns g.
Proof. reflexivity. Qed.

Lemma unruns_runs (s : str) : unruns (runs s) = s.
Proof.
  induction s as [| c s IH]; [done |]. simpl.
  destruct (runs s) as [| [c' n] g]; [by rewrite <- IH |].
  destruct (decide (c = c')) as [<- | Hne]; rewrite <- IH; done.
Qed.

Lemma canonical_runs (s : str) : canonical (runs s).
Proof.
  induction s as [| c s IH]; [done |]. simpl.
  destruct (runs s) as [| [c' n] g]; [simpl; auto with lia |].
  destruct IH as (Hn & Hnext & Hg).
  destruct (decide (c = c')) as [<- | Hne]; simpl in *; auto with lia.
Qed.

Lemma runs_replicate_app (c : Ascii.ascii) (n : nat) (s : str) :
  0 < n →
  match runs s with [] => True | cn :: _ => c ≠ cn.1 end →
  runs (replicate n c ++ s) = (c, n) :: runs s.
Proof.
  intros Hn Hs. induction n as [| n IH]; [lia |]. simpl.
  destruct n as [| n'].
  - simpl. destruct (runs s) as [| [c' k] g]; [done |].
    simpl in Hs. by destruct (decide (c = c')).
  - rewrite IH by lia. by destruct (decide (c = c)).
Qed.

Lemma runs_unruns (g : list (Ascii.ascii * nat)) :
  canonical g → runs (unruns g) = g.
Proof.
  induction g as [| [c n] g IH]; [done |]. intros (Hn & Hnext & Hg).
  rewrite unruns_cons. simpl in *. rewrite runs_replicate_app; [| done |].
  - by rewrite IH.
  - rewrite IH by done. by destruct g.
Qed.

Lemma canonical_fmap (f : Ascii.ascii * nat → Ascii.ascii * nat)
    (g : list (Ascii.ascii * nat)) :
  (∀ cn, (f cn).1 = cn.1) → (∀ cn, 0 < cn.2 → 0 < (f cn).2) →
  canonical g → canonical (f <$> g).
Proof.
  intros Hchar Hpos. induction g as [| cn g IH]; [done |].
  intros (Hn & Hnext & Hg). rewrite fmap_cons. simpl. split; [by apply Hpos |].
  split; [| by apply IH].
  destruct g as [| cn' g']; [done |]. rewrite fmap_cons. simpl.
  by rewrite !Hchar.
Qed.

Lemma cap_run_of_char (letter : Ascii.ascii) (cn : Ascii.ascii * nat) :
  (cap_run_of letter cn).1 = cn.1.
Proof. unfold cap_run_of, cap_run. by destruct (decide _). Qed.

Lemma cap_run_of_pos (letter : Ascii.ascii) (cn : Ascii.ascii * nat) :
  0 < cn.2 → 0 < (cap_run_of letter cn).2.
Proof.
  unfold cap_run_of, cap_run. destruct (decide _); [| done]. simpl.
  destruct (decide (3 ≤ cn.2)); lia.
Qed.

(** ** Replacing a run *)

Section ReplaceRun.
Context (c : Ascii.ascii) (L : nat) (new : str).
Hypothesis HL : 3 ≤ L.

Lemma py_starts_with_other (x : Ascii.ascii) (s : str) :
  x ≠ c → py_starts_with (replicate L c) (x :: s) = false.
Proof.
  intros Hx. destruct L as [| L']; [lia |]. simpl.
  destruct (decide (c = x)); [congruence | done].
Qed.

Lemma py_starts_with_run (n : nat) (s : str) :
  py_starts_with (replicate n c) (replicate n c ++ s) = true.
Proof.
  induction n as [| n IH]; [done |]. simpl.
  by destruct (decide (c = c)).
Qed.

Lemma py_starts_with_short_run (k n : nat) (s : str) :
  n < k →
  match s with [] => True | y :: _ => y ≠ c end →
  py_starts_with (replicate k c) (replicate n c ++ s) = false.
Proof.
  revert k. induction n as [| n IH]; intros k Hk Hs; simpl.
  - destruct k as [| k']; [lia |]. simpl. destruct s as [| y s']; [done |].
    destruct (decide (c = y)); [congruence | done].
  - destruct k as [| k']; [lia |]. simpl.
    destruct (decide (c = c)); [| done]. apply IH; [lia | done].
Qed.

Lemma py_replace_from_skip (t s : str) :
  py_replace_from (length t) (replicate L c) new (t ++ s)
  = py_replace_from 0 (replicate L c) new s.
Proof. induction t as [| x t IH]; [done |]. simpl. exact IH. Qed.

(** A run of another byte, and a run of [c] shorter than [L], are copied. *)
Lemma py_replace_from_copy (x : Ascii.ascii) (n : nat) (s : str) :
  (x = c → n < L) →
  match s with [] => True | y :: _ => y ≠ x end →
  py_replace_from 0 (replicate L c) new (replicate n x ++ s)
  = replicate n x ++ py_replace_from 0 (replicate L c) new s.
Proof.
  intros Hx Hs. induction n as [| n IH]; [done |].
  assert (Hno : py_starts_with (replicate L c) (replicate (S n) x ++ s) = false).
  { destruct (decide (x = c)) as [-> | Hne].
    - apply py_starts_with_short_run; auto.
    - by apply py_starts_with_other. }
  change (replicate (S n) x ++ s) with (x :: (replicate n x ++ s)) in *.
  cbn [py_replace_from]. rewrite Hno.
  rewrite IH by (intros Heq; specialize (Hx Heq); lia). done.
Qed.

(** A run of exactly [L] bytes [c] is replaced. *)
Lemma py_replace_from_hit (s : str) :
  py_replace_from 0 (replicate L c) new (replicate L c ++ s)
  = new ++ py_replace_from 0 (replicate L c) new s.
Proof.
  destruct L as [| L'] eqn:HLeq; [lia |].
  pose proof (py_starts_with_run (S L') s) as Hyes.
  change (replicate (S L') c ++ s) with (c :: (replicate L' c ++ s)) in *.
  cbn [py_replace_from]. rewrite Hyes. f_equal.
  rewrite length_replicate. replace (S L' - 1) with L' by lia.
  rewrite <- (length_replicate L' c) at 1.
  rewrite <- HLeq. rewrite <- HLeq in HL.
  pose proof (py_replace_from_skip (replicate L' c) s) as Hskip.
  rewrite HLeq. rewrite HLeq in Hskip. exact Hskip.
Qed.
End ReplaceRun.

Lemma unruns_head (g : list (Ascii.ascii * nat)) (x : Ascii.ascii) :
  canonical g →
  match g with [] => True | cn :: _ => x ≠ cn.1 end →
  match unruns g with [] => True | y :: _ => y ≠ x end.
Proof.
  destruct g as [| [c' n] g']; [done |]. intros (Hn & _ & _) Hx.
  rewrite unruns_cons. simpl in *. destruct n as [| n']; [lia |]. simpl.
  congruence.
Qed.

Lemma collapse_exact_hit (c : Ascii.ascii) (L : nat) :
  collapse_exact c L (c, L) = (c, 2).
Proof.
  unfold collapse_exact. simpl.
  destruct (decide (c = c ∧ L = L)) as [| Hno]; [done |]. by destruct Hno.
Qed.

Lemma collapse_exact_miss (c x : Ascii.ascii) (L n : nat) :
  ¬ (x = c ∧ n = L) → collapse_exact c L (x, n) = (x, n).
Proof. intros Hno. unfold collapse_exact. simpl. by destruct (decide _). Qed.

(** Replacing the runs of exactly [L] bytes [c] in a string whose runs of
    [c] are no longer than [L]. *)
Lemma py_replace_runs (c : Ascii.ascii) (L : nat) (g : list (Ascii.ascii * nat)) :
  3 ≤ L → canonical g →
  Forall (λ cn, cn.1 = c → cn.2 ≤ L) g →
  py_replace (replicate L c) [c; c] (unruns g)
  = unruns (collapse_exact c L <$> g).
Proof.
  intros HL Hcan Hall.
  assert (Hfrom : py_replace (replicate L c) [c; c] (unruns g)
                  = py_replace_from 0 (replicate L c) [c; c] (unruns g)).
  { unfold py_replace. destruct L; [lia | done]. }
  rewrite Hfrom. clear Hfrom.
  induction g as [| [x n] g IH]; [done |].
  destruct Hcan as (Hn & Hnext & Hcan). apply Forall_cons in Hall as [Hx Hall].
  rewrite fmap_cons, !unruns_cons. simpl in *.
  pose proof (unruns_head g x Hcan Hnext) as Hhead.
  destruct (decide (x = c ∧ n = L)) as [[-> ->] | Hno].
  - rewrite collapse_exact_hit, py_replace_from_hit by done.
    by rewrite IH.
  - rewrite collapse_exact_miss by done.
    rewrite py_replace_from_copy; [by rewrite IH | done | | done].
    intros ->. specialize (Hx eq_refl). destruct (decide (n = L)); [| lia].
    by destruct Hno.
Qed.

Lemma canonical_collapse_exact (c : Ascii.ascii) (L : nat)
    (g : list (Ascii.ascii * nat)) :
  canonical g → canonical (collapse_exact c L <$> g).
Proof.
  apply canonical_fmap.
  - intros cn. unfold collapse_exact. destruct (decide _) as [[-> _] |]; done.
  - intros cn Hpos. unfold collapse_exact. destruct (decide _); simpl; lia.
Qed.

Lemma cap_run_of_collapse_exact (c : Ascii.ascii) (L : nat)
    (cn : Ascii.ascii * nat) :
  3 ≤ L → cap_run_of c (collapse_exact c L cn) = cap_run_of c cn.
Proof.
  intros HL. destruct cn as [x n]. unfold collapse_exact. simpl.
  destruct (decide (x = c ∧ n = L)) as [[-> ->] | Hno]; [| done].
  unfold cap_run_of, cap_run. simpl.
  destruct (decide (c = c)); [| done].
  destruct (decide (3 ≤ 2)); [lia |]. destruct (decide (3 ≤ L)); [done | lia].
Qed.

(** ** Sorting by length *)

#[local] Instance longer_first_trans : Transitive longer_first.
Proof. intros a b d. unfold longer_first. lia. Qed.

Lemma insert_by_len_perm (x : str) (l : list str) :
  insert_by_len x l ≡ₚ x :: l.
Proof.
  induction l as [| y l IH]; [done |]. simpl.
  destruct (decide (length x ≤ length y)); [| done].
  rewrite IH. apply Permutation_swap.
Qed.

Lemma insert_by_len_sorted (x : str) (l : list str) :
  StronglySorted longer_first l → StronglySorted longer_first (insert_by_len x l).
Proof.
  induction 1 as [| y l Hl IH Hy]; simpl.
  - by repeat constructor.
  - destruct (decide (length x ≤ length y)) as [Hle | Hgt].
    + constructor; [done |]. rewrite insert_by_len_perm. by constructor.
    + constructor; [by constructor |]. constructor; [unfold longer_first; lia |].
      eapply Forall_impl; [exact Hy |]. unfold longer_first. simpl. intros. lia.
Qed.

Lemma sort_by_len_reverse_spec (l : list str) :
  sort_by_len_reverse l ≡ₚ l ∧ StronglySorted longer_first (sort_by_len_reverse l).
Proof.
  unfold sort_by_len_reverse.
  assert (Hgen : ∀ acc, StronglySorted longer_first acc →
            foldl (λ acc x, insert_by_len x acc) acc l ≡ₚ acc ++ l ∧
            StronglySorted longer_first
              (foldl (λ acc x, insert_by_len x acc) acc l)).
  { induction l as [| x l IH]; intros acc Hacc; simpl.
    - by rewrite app_nil_r.
    - destruct (IH (insert_by_len x acc)) as [Hp Hs];
        [by apply insert_by_len_sorted |].
      split; [| done]. rewrite Hp, insert_by_len_perm. simpl.
      apply Permutation_middle. }
  apply (Hgen []). constructor.
Qed.

(** ** Collapsing the runs of one byte *)

Lemma cap_run_of_short (c : Ascii.ascii) (g : list (Ascii.ascii * nat)) :
  Forall (λ cn, cn.1 = c → cn.2 < 3) g → cap_run_of c <$> g = g.
Proof.
  induction 1 as [| [x n] g Hx _ IH]; [done |].
  rewrite fmap_cons, IH. f_equal.
  unfold cap_run_of, cap_run. simpl in *.
  destruct (decide (x = c)) as [Heq | Hne]; [| done].
  specialize (Hx Heq). destruct (decide (3 ≤ n)); [lia | done].
Qed.

(** Replacing, longest first, every run of [c] of at least three bytes by
    two bytes leaves the runs of [c] cut down to two. *)
Lemma replace_runs_longest_first (c : Ascii.ascii) (T : list str) :
  ∀ g : list (Ascii.ascii * nat),
    canonical g →
    StronglySorted longer_first T →
    Forall (λ t, ∃ n, 3 ≤ n ∧ t = replicate n c) T →
    Forall (λ cn, cn.1 = c → 3 ≤ cn.2 → replicate cn.2 c ∈ T) g →
    foldl (λ word char, py_replace char [c; c] word) (unruns g) T
    = unruns (cap_run_of c <$> g).
Proof.
  induction T as [| t T IH]; intros g Hcan Hsorted Hform Hcover; simpl.
  - rewrite cap_run_of_short; [done |].
    eapply Forall_impl; [exact Hcover |]. simpl. intros cn Hcn Hc.
    destruct (decide (3 ≤ cn.2)) as [H3 |]; [| lia].
    by apply Hcn, not_elem_of_nil in H3.
  - apply StronglySorted_inv in Hsorted as [Hsorted Hlonger].
    apply Forall_cons in Hform as [(L & HL & ->) Hform].
    rewrite py_replace_runs; [| done | done |].
    + rewrite IH; [| by apply canonical_collapse_exact | done | done |].
      * f_equal. rewrite <- list_fmap_compose. apply list_fmap_ext.
        intros i cn _. simpl. by apply cap_run_of_collapse_exact.
      * apply Forall_fmap. eapply Forall_impl; [exact Hcover |].
        intros [x n] Hcn. unfold collapse_exact. simpl in *.
        destruct (decide (x = c ∧ n = L)) as [[-> ->] | Hno]; simpl; [lia |].
        intros -> H3. specialize (Hcn eq_refl H3).
        apply elem_of_cons in Hcn as [Heq | Hin]; [| done].
        exfalso. apply Hno. split; [done |].
        apply (f_equal length) in Heq. by rewrite !length_replicate in Heq.
    + eapply Forall_impl; [exact Hcover |]. intros [x n] Hcn. simpl in *.
      intros ->. destruct (decide (3 ≤ n)) as [H3 |]; [| lia].
      specialize (Hcn eq_refl H3).
      apply elem_of_cons in Hcn as [Heq | Hin].
      * apply (f_equal length) in Heq. rewrite !length_replicate in Heq. lia.
      * rewrite Forall_forall in Hlonger. specialize (Hlonger _ Hin).
        unfold longer_first in Hlonger. rewrite !length_replicate in Hlonger.
        done.
Qed.

Lemma findall_runs_spec (c : Ascii.ascii) (g : list (Ascii.ascii * nat)) :
  canonical g →
  Forall (λ t, ∃ n, 3 ≤ n ∧ t = replicate n c) (findall_runs c (unruns g)) ∧
  Forall (λ cn, cn.1 = c → 3 ≤ cn.2 →
                replicate cn.2 c ∈ findall_runs c (unruns g)) g.
Proof.
  intros Hcan. unfold findall_runs. rewrite runs_unruns by done. split.
  - apply Forall_forall. intros t Ht.
    apply list_elem_of_omap in Ht as ([x n] & _ & Hsome). simpl in Hsome.
    destruct (decide (x = c ∧ 3 ≤ n)) as [[-> H3] |]; [| done].
    simplify_eq. by exists n.
  - apply Forall_forall. intros [x n] Hin. simpl. intros -> H3.
    apply list_elem_of_omap. exists (c, n). split; [done |]. simpl.
    destruct (decide (c = c ∧ 3 ≤ n)) as [|Hno]; [done |]. by destruct Hno.
Qed.

(** ** Collapsing the runs of every byte *)

Section Collapse.
Context `{PythonRuntime}.

(** One pass of the loop body, for a byte that stands for itself in a
    pattern. *)
Lemma collapse_letter_runs (c : Ascii.ascii) (g : list (Ascii.ascii * nat)) :
  re_special c = false → canonical g →
  collapse_letter c (unruns g) = Returns (unruns (cap_run_of c <$> g)).
Proof.
  intros Hc Hcan. unfold collapse_letter, re_findall_repeat. rewrite Hc.
  destruct (findall_runs_spec c g Hcan) as [Hform Hcover].
  destruct (sort_by_len_reverse_spec (findall_runs c (unruns g))) as [Hp Hs].
  f_equal. apply replace_runs_longest_first; [done | done | |].
  - by rewrite Hp.
  - eapply Forall_impl; [exact Hcover |]. simpl. intros cn Hcn Hx H3.
    rewrite Hp. by apply Hcn.
Qed.

Lemma collapse_letters_runs (letters : list Ascii.ascii) :
  ∀ g : list (Ascii.ascii * nat),
    Forall (λ c, re_special c = false) letters → canonical g →
    foldl (λ acc letter,
             match acc with
             | Raises e => Raises e
             | Returns word => collapse_letter letter word
             end)
          (Returns (unruns g)) letters
    = Returns (unruns ((λ cn, foldl (λ cn c, cap_run_of c cn) cn letters) <$> g)).
Proof.
  induction letters as [| c letters IH]; intros g Hall Hcan; simpl.
  - by rewrite list_fmap_id.
  - apply Forall_cons in Hall as [Hc Hall].
    rewrite collapse_letter_runs by done.
    rewrite IH; [| done |].
    + by rewrite <- list_fmap_compose.
    + apply canonical_fmap; [apply cap_run_of_char | apply cap_run_of_pos | done].
Qed.

End Collapse.

Lemma cap_run_char (cn : Ascii.ascii * nat) : (cap_run cn).1 = cn.1.
Proof. done. Qed.

Lemma cap_run_pos (cn : Ascii.ascii * nat) : 0 < cn.2 ↔ 0 < (cap_run cn).2.
Proof. unfold cap_run. simpl. destruct (decide (3 ≤ cn.2)); lia. Qed.

Lemma cap_run_le (cn : Ascii.ascii * nat) :
  (cap_run cn).2 ≤ 2 ∧ (cap_run cn).2 ≤ cn.2.
Proof. unfold cap_run. simpl. destruct (decide (3 ≤ cn.2)); lia. Qed.

Lemma cap_run_idemp (cn : Ascii.ascii * nat) : cap_run (cap_run cn) = cap_run cn.
Proof.
  unfold cap_run. simpl. destruct (decide (3 ≤ cn.2)); [| by destruct (decide _)].
  destruct (decide (3 ≤ 2)); [lia | done].
Qed.

Lemma cap_run_of_cap_run (c : Ascii.ascii) (cn : Ascii.ascii * nat) :
  cap_run_of c (cap_run cn) = cap_run cn.
Proof.
  unfold cap_run_of. destruct (decide _); [apply cap_run_idemp | done].
Qed.

(** Once every byte has had its turn, every run is cut down. *)
Lemma cap_run_of_all (letters : list Ascii.ascii) (cn : Ascii.ascii * nat) :
  cn.1 ∈ letters → foldl (λ cn c, cap_run_of c cn) cn letters = cap_run cn.
Proof.
  assert (Hfix : ∀ l, foldl (λ cn c, cap_run_of c cn) (cap_run cn) l = cap_run cn).
  { induction l as [| c l IH]; [done |]. simpl. by rewrite cap_run_of_cap_run. }
  induction letters as [| c letters IH]; intros Hin.
  - by apply not_elem_of_nil in Hin.
  - simpl. unfold cap_run_of at 2.
    destruct (decide (cn.1 = c)) as [Heq | Hne]; [apply Hfix |].
    apply IH. apply elem_of_cons in Hin as [Heq | Hin]; [done | done].
Qed.

Lemma runs_elem (s : str) : Forall (λ cn, cn.1 ∈ s) (runs s).
Proof.
  induction s as [| c s IH]; [constructor |]. simpl.
  assert (Hweak : ∀ g, Forall (λ cn : Ascii.ascii * nat, cn.1 ∈ s) g →
                       Forall (λ cn : Ascii.ascii * nat, cn.1 ∈ c :: s) g).
  { intros g Hg. eapply Forall_impl; [exact Hg |].
    intros cn Hcn. by apply elem_of_cons; right. }
  destruct (runs s) as [| [c' n] g]; [repeat constructor |].
  apply Forall_cons in IH as [Hc' Hg].
  destruct (decide (c = c')) as [<- | Hne].
  - constructor; [apply elem_of_cons; left; reflexivity | by apply Hweak].
  - constructor; [apply elem_of_cons; left; reflexivity |]. apply Hweak. by constructor.
Qed.

Lemma elem_of_unruns (c : Ascii.ascii) (g : list (Ascii.ascii * nat)) :
  c ∈ unruns g ↔ ∃ n, (c, n) ∈ g ∧ 0 < n.
Proof.
  induction g as [| [x k] g IH].
  - split; [by intros ?%not_elem_of_nil |].
    by intros (n & ?%not_elem_of_nil & _).
  - rewrite unruns_cons, elem_of_app, elem_of_replicate, IH. simpl. split.
    + intros [[-> Hk] | (n & Hin & Hn)].
      * exists k. split; [apply elem_of_cons; left; reflexivity | lia].
      * exists n. split; [by apply elem_of_cons; right | done].
    + intros (n & Hin & Hn). apply elem_of_cons in Hin as [Heq | Hin].
      * left. simplify_eq. split; [done | lia].
      * right. by exists n.
Qed.

Lemma length_unruns_le (f : Ascii.ascii * nat → Ascii.ascii * nat)
    (g : list (Ascii.ascii * nat)) :
  (∀ cn, (f cn).2 ≤ cn.2) → length (unruns (f <$> g)) ≤ length (unruns g).
Proof.
  intros Hf. induction g as [| cn g IH]; [done |].
  rewrite fmap_cons, !unruns_cons, !length_app, !length_replicate.
  specialize (Hf cn). lia.
Qed.

(** ** Three equal bytes in a row *)

Lemma runs_cons_run (c : Ascii.ascii) (n : nat) (g : list (Ascii.ascii * nat))
    (s : str) :
  runs s = (c, n) :: g → runs (c :: s) = (c, S n) :: g.
Proof. intros Hs. simpl. rewrite Hs. by destruct (decide (c = c)). Qed.

Lemma runs_head (c : Ascii.ascii) (s : str) :
  ∃ n g, runs (c :: s) = (c, S n) :: g.
Proof.
  simpl. destruct (runs s) as [| [c' n] g]; [by exists 0, [] |].
  destruct (decide (c = c')); eauto.
Qed.

Lemma runs_tail_le (k : nat) (x : Ascii.ascii) (s : str) :
  Forall (λ cn, cn.2 ≤ k) (runs (x :: s)) → Forall (λ cn, cn.2 ≤ k) (runs s).
Proof.
  simpl. destruct (runs s) as [| [c' n] g]; [done |].
  destruct (decide (x = c')); intros [Hh Ht]%Forall_cons; [| done].
  constructor; [simpl in *; lia | done].
Qed.

Lemma short_runs_no_triple (s : str) :
  Forall (λ cn, cn.2 ≤ 2) (runs s) → ∀ p c t, s ≠ p ++ c :: c :: c :: t.
Proof.
  intros Hs p. revert s Hs. induction p as [| x p IH]; intros s Hs c t ->.
  - destruct (runs_head c t) as (n & g & Hr).
    apply runs_cons_run, runs_cons_run in Hr. simpl app in Hs.
    rewrite Hr in Hs. apply Forall_cons in Hs as [Hn _]. simpl in Hn. lia.
  - apply runs_tail_le in Hs. by eapply IH.
Qed.

Lemma no_triple_short_runs (s : str) :
  (∀ p c t, s ≠ p ++ c :: c :: c :: t) → Forall (λ cn, cn.2 ≤ 2) (runs s).
Proof.
  intros Hs. rewrite <- (unruns_runs s) in Hs.
  generalize dependent (runs s). intros g.
  induction g as [| [c n] g IH]; intros Hs; [constructor |].
  constructor.
  - simpl. destruct (decide (n ≤ 2)) as [| Hn]; [done |]. exfalso.
    apply (Hs [] c (replicate (n - 3) c ++ unruns g)).
    rewrite unruns_cons. simpl.
    replace n with (3 + (n - 3)) at 1 by lia. done.
  - apply IH. intros p x t Heq.
    apply (Hs (replicate n c ++ p) x t).
    rewrite unruns_cons, Heq. simpl. by rewrite <- app_assoc.
Qed.

(** ** Lower case *)

Lemma re_special_lower (c : Ascii.ascii) :
  re_special c = false → re_special (lower_byte c) = false.
Proof. destruct c as [[] [] [] [] [] [] [] []]; vm_compute; done. Qed.

Lemma lower_byte_idemp (c : Ascii.ascii) :
  lower_byte (lower_byte c) = lower_byte c.
Proof. destruct c as [[] [] [] [] [] [] [] []]; vm_compute; done. Qed.

Lemma py_lower_idemp (s : str) : py_lower (py_lower s) = py_lower s.
Proof.
  unfold py_lower. rewrite <- list_fmap_compose. apply list_fmap_ext.
  intros i c _. apply lower_byte_idemp.
Qed.

Lemma py_lower_fixed (s : str) :
  Forall (λ c, lower_byte c = c) s → py_lower s = s.
Proof.
  induction 1 as [| c s Hc _ IH]; [done |]. unfold py_lower in *.
  by rewrite fmap_cons, Hc, IH.
Qed.

(** ** The whole function *)

Section Fix.
Context `{PythonRuntime}.

Lemma fix_the_sequence_runs (word : str) :
  Forall (λ c, re_special c = false) word →
  fix_the_sequence_of_repeated_characters word
  = Returns (unruns (cap_run <$> runs (py_lower word))).
Proof.
  intros Hword. unfold fix_the_sequence_of_repeated_characters.
  set (w := py_lower word).
  rewrite <- (unruns_runs w) at 1.
  rewrite collapse_letters_runs; [| | apply canonical_runs].
  - do 2 f_equal. apply list_fmap_ext. intros i cn Hcn. simpl.
    apply cap_run_of_all, set_iter_elem.
    pose proof (runs_elem w) as Helem. rewrite Forall_forall in Helem.
    by eapply Helem, list_elem_of_lookup_2.
  - apply Forall_forall. intros c Hc.
    apply (proj1 (set_iter_elem _ _)) in Hc. unfold w, py_lower in Hc.
    apply list_elem_of_fmap in Hc as (c0 & -> & Hc0).
    rewrite Forall_forall in Hword. by apply re_special_lower, Hword.
Qed.

End Fix.

Lemma runs_capped (g : list (Ascii.ascii * nat)) :
  canonical g → runs (unruns (cap_run <$> g)) = cap_run <$> g.
Proof.
  intros Hcan. apply runs_unruns, canonical_fmap; [done | | done].
  intros cn. apply cap_run_pos.
Qed.

Lemma elem_of_capped (c : Ascii.ascii) (g : list (Ascii.ascii * nat)) :
  c ∈ unruns (cap_run <$> g) ↔ c ∈ unruns g.
Proof.
  rewrite !elem_of_unruns. split.
  - intros (n & Hin & Hn). apply list_elem_of_fmap in Hin as ([x k] & Heq & Hin).
    exists k. pose proof (proj2 (cap_run_pos (x, k))) as Hpos.
    rewrite <- Heq in Hpos. unfold cap_run in Heq. simpl in *. simplify_eq.
    split; [done | by apply Hpos].
  - intros (n & Hin & Hn). exists (cap_run (c, n)).2. split.
    + apply list_elem_of_fmap. by exists (c, n).
    + by apply (cap_run_pos (c, n)).
Qed.

Lemma capped_fixed (g : list (Ascii.ascii * nat)) :
  Forall (λ cn, cn.2 ≤ 2) g ↔ cap_run <$> g = g.
Proof.
  induction g as [| [c n] g IH]; [done |].
  rewrite fmap_cons, Forall_cons, IH.
  assert (Hone : n ≤ 2 ↔ cap_run (c, n) = (c, n)).
  { unfold cap_run. simpl. destruct (decide (3 ≤ n)); split; intros Hn;
      try done; try lia. simplify_eq. lia. }
  simpl. rewrite Hone. split.
  - by intros [-> ->].
  - intros Heq. by simplify_eq.
Qed.

Section FixProperties.
Context `{PythonRuntime}.

(** X13. On a word that holds no byte with a meaning of its own in a
    regular expression, and whatever the order in which the set of its
    letters is iterated, [fix_the_sequence_of_repeated_characters] returns
    the word in lower case with every maximal run of three or more equal
    bytes cut down to two and every other run as it was. *)
Theorem fix_the_sequence_spec (word : str) :
  Forall (λ c, re_special c = false) word →
  ∃ res, fix_the_sequence_of_repeated_characters word = Returns res ∧
         runs res = cap_run <$> runs (py_lower word).
Proof.
  intros Hword. eexists. split; [by apply fix_the_sequence_runs |].
  apply runs_capped, canonical_runs.
Qed.

(** X14. The result of [fix_the_sequence_of_repeated_characters] never
    holds the same byte three times in a row, is no longer than the word,
    and holds exactly the bytes of the word in lower case. *)
Theorem fix_the_sequence_no_triple (word res : str) :
  Forall (λ c, re_special c = false) word →
  fix_the_sequence_of_repeated_characters word = Returns res →
  (∀ p c t, res ≠ p ++ c :: c :: c :: t) ∧
  length res ≤ length word ∧
  (∀ c, c ∈ res ↔ c ∈ py_lower word).
Proof.
  intros Hword Hres. rewrite fix_the_sequence_runs in Hres by done.
  injection Hres as <-. split; [| split].
  - apply short_runs_no_triple. rewrite runs_capped by apply canonical_runs.
    apply Forall_fmap, Forall_forall. intros cn _. apply cap_run_le.
  - etrans; [apply length_unruns_le; intros cn; apply cap_run_le |].
    rewrite unruns_runs. unfold py_lower. by rewrite length_fmap.
  - intros c. by rewrite elem_of_capped, unruns_runs.
Qed.

(** X15. [fix_the_sequence_of_repeated_characters] is idempotent: applied
    to its own result it returns that result. *)
Theorem fix_the_sequence_idempotent (word res : str) :
  Forall (λ c, re_special c = false) word →
  fix_the_sequence_of_repeated_characters word = Returns res →
  fix_the_sequence_of_repeated_characters res = Returns res.
Proof.
  intros Hword Hres. rewrite fix_the_sequence_runs in Hres by done.
  injection Hres as <-.
  set (g := runs (py_lower word)).
  assert (Hin : ∀ c, c ∈ unruns (cap_run <$> g) → ∃ c0, c = lower_byte c0 ∧ c0 ∈ word).
  { intros c Hc. apply (proj1 (elem_of_capped _ _)) in Hc. unfold g in Hc.
    rewrite unruns_runs in Hc. by apply list_elem_of_fmap in Hc. }
  rewrite fix_the_sequence_runs.
  - rewrite py_lower_fixed.
    + rewrite runs_capped by apply canonical_runs.
      rewrite <- list_fmap_compose. do 2 f_equal. apply list_fmap_ext.
      intros i cn _. apply cap_run_idemp.
    + apply Forall_forall. intros c (c0 & -> & _)%Hin. apply lower_byte_idemp.
  - apply Forall_forall. intros c (c0 & -> & Hc0)%Hin.
    rewrite Forall_forall in Hword. by apply re_special_lower, Hword.
Qed.

(** X16. [fix_the_sequence_of_repeated_characters] only puts a word in
    lower case exactly when the word in lower case has no byte three times
    in a row. *)
Theorem fix_the_sequence_lower_only (word : str) :
  Forall (λ c, re_special c = false) word →
  fix_the_sequence_of_repeated_characters word = Returns (py_lower word)
  ↔ ∀ p c t, py_lower word ≠ p ++ c :: c :: c :: t.
Proof.
  intros Hword. rewrite fix_the_sequence_runs by done. split.
  - intros Heq. injection Heq as Heq. apply short_runs_no_triple.
    apply capped_fixed. rewrite <- Heq at 2.
    by rewrite runs_capped by apply canonical_runs.
  - intros Hno. apply no_triple_short_runs, capped_fixed in Hno.
    by rewrite Hno, unruns_runs.
Qed.

End FixProperties.

Lemma fix_the_sequence_example :
  @fix_the_sequence_of_repeated_characters first_occurrence
    (lit "Sooooo   COOOLLL aaa-aaaaa!!!!")
  = Returns (lit "soo  cooll aa-aa!!").
Proof. vm_compute. reflexivity. Qed.

Lemma fix_the_sequence_spec_witness :
  ∃ res,
    @fix_the_sequence_of_repeated_characters first_occurrence
      (lit "Sooooo   COOOLLL aaa-aaaaa!!!!") = Returns res ∧
    runs res = cap_run <$> runs (py_lower (lit "Sooooo   COOOLLL aaa-aaaaa!!!!")).
Proof.
  apply (@fix_the_sequence_spec first_occurrence).
  apply Forall_forall. intros c Hc. vm_compute in Hc.
  repeat (apply elem_of_cons in Hc as [-> | Hc]; [reflexivity |]).
  by apply not_elem_of_nil in Hc.
Defined.

Lemma fix_the_sequence_no_triple_witness :
  (∀ p c t, lit "soo  cooll aa-aa!!" ≠ p ++ c :: c :: c :: t) ∧
  length (lit "soo  cooll aa-aa!!") ≤ length (lit "Sooooo   COOOLLL aaa-aaaaa!!!!") ∧
  (∀ c, c ∈ lit "soo  cooll aa-aa!!"
        ↔ c ∈ py_lower (lit "Sooooo   COOOLLL aaa-aaaaa!!!!")).
Proof.
  apply (@fix_the_sequence_no_triple first_occurrence).
  - apply Forall_forall. intros c Hc. vm_compute in Hc.
    repeat (apply elem_of_cons in Hc as [-> | Hc]; [reflexivity |]).
    by apply not_elem_of_nil in Hc.
  - vm_compute. reflexivity.
Defined.

Lemma fix_the_sequence_idempotent_witness :
  @fix_the_sequence_of_repeated_characters first_occurrence
    (lit "soo  cooll aa-aa!!")
  = Returns (lit "soo  cooll aa-aa!!").
Proof.
  apply (@fix_the_sequence_idempotent first_occurrence
           (lit "Sooooo   COOOLLL aaa-aaaaa!!!!")).
  - apply Forall_forall. intros c Hc. vm_compute in Hc.
    repeat (apply elem_of_cons in Hc as [-> | Hc]; [reflexivity |]).
    by apply not_elem_of_nil in Hc.
  - vm_compute. reflexivity.
Defined.

Lemma fix_the_sequence_lower_only_witness :
  @fix_the_sequence_of_repeated_characters first_occurrence (lit "Hello World")
  = Returns (py_lower (lit "Hello World"))
  ↔ ∀ p c t, py_lower (lit "Hello World") ≠ p ++ c :: c :: c :: t.
Proof.
  apply (@fix_the_sequence_lower_only first_occurrence).
  apply Forall_forall. intros c Hc. vm_compute in Hc.
  repeat (apply elem_of_cons in Hc as [-> | Hc]; [reflexivity |]).
  by apply not_elem_of_nil in Hc.
Defined.

(** * Properties of [split_list] *)

Lemma py_slice_inside {A : Type} (l : list A) (a b : nat) :
  a ≤ b → b ≤ length l →
  py_slice l (Z.of_nat a) (Z.of_nat b) = take (b - a) (drop a l).
Proof.
  intros Hab Hb. unfold py_slice, py_slice_bound.
  destruct (Z.ltb_spec (Z.of_nat a) 0); [lia |].
  destruct (Z.ltb_spec (Z.of_nat b) 0); [lia |].
  rewrite !Z.min_l by lia. rewrite Nat2Z.id.
  by replace (Z.to_nat (Z.of_nat b - Z.of_nat a)) with (b - a) by lia.
Qed.

Lemma take_take_drop_app {A : Type} (l : list A) (a b : nat) :
  take a l ++ take b (drop a l) = take (a + b) l.
Proof.
  revert l. induction a as [| a IH]; intros l; [done |].
  destruct l as [| x l]; [simpl; by destruct b |]. simpl. by rewrite IH.
Qed.

Lemma concat_chunks {A : Type} (q : nat) (l : list A) (n : nat) :
  concat (chunk q l <$> seq 0 n) = take (n * q) l.
Proof.
  induction n as [| n IH]; [done |].
  rewrite seq_S, fmap_app, concat_app, IH. simpl. rewrite app_nil_r.
  unfold chunk. rewrite take_take_drop_app. f_equal. lia.
Qed.

Lemma length_chunk {A : Type} (q : nat) (l : list A) (i : nat) :
  (i + 1) * q ≤ length l → length (chunk q l i) = q.
Proof.
  intros Hi. unfold chunk. rewrite length_take, length_drop. lia.
Qed.

Section SplitEven.
Context {A : Type} (doc_list : list A) (n q : nat).
Hypothesis Hq : 0 < q.
Hypothesis Hlen : length doc_list = n * q.

(** From the [i]-th piece on, the loop appends the pieces that are left. *)
Lemma split_list_loop_even (fuel i : nat) (avg last : Q)
    (split_lists : list (list A)) :
  (avg == inject_Z (Z.of_nat q))%Q →
  (last == inject_Z (Z.of_nat (i * q)))%Q →
  i ≤ n → n - i < fuel →
  split_list_loop fuel doc_list avg last split_lists
  = Some (split_lists ++ (chunk q doc_list <$> seq i (n - i))).
Proof.
  intros Havg. revert i last split_lists.
  induction fuel as [| fuel IH]; intros i last split_lists Hlast Hi Hfuel;
    [lia |].
  simpl. rewrite Hlen.
  destruct (decide (last < inject_Z (Z.of_nat (n * q)))%Q) as [Hlt | Hge].
  - rewrite Hlast in Hlt. rewrite <- Zlt_Qlt in Hlt.
    assert (Hin : i < n) by nia.
    assert (Hnext : (last + avg == inject_Z (Z.of_nat (S i * q)))%Q).
    { rewrite Hlast, Havg, <- inject_Z_plus. apply inject_Z_injective. lia. }
    rewrite (IH (S i)); [| done | lia | lia].
    rewrite (py_int_comp _ _ Hlast), (py_int_comp _ _ Hnext).
    rewrite !py_int_nonneg by (rewrite <- (Zle_Qle 0); lia).
    rewrite !Qfloor_Z.
    rewrite py_slice_inside; [| lia | rewrite Hlen; nia].
    replace (S i * q - i * q) with q by lia.
    replace (n - i) with (S (n - S i)) by lia.
    rewrite <- app_assoc. done.
  - rewrite Hlast in Hge. rewrite <- Zlt_Qlt in Hge.
    assert (i = n) as -> by nia.
    by rewrite Nat.sub_diag, app_nil_r.
Qed.

Lemma split_list_chunks (fuel : nat) :
  0 < n → n < fuel →
  split_list fuel doc_list (Z.of_nat n)
  = Some (Returns (chunk q doc_list <$> seq 0 n)).
Proof.
  intros Hn Hfuel. unfold split_list.
  destruct (decide (Z.of_nat n = 0)%Z); [lia |].
  rewrite (split_list_loop_even fuel 0); [by rewrite Nat.sub_0_r | | done | lia | lia].
  rewrite Hlen, Nat2Z.inj_mul, inject_Z_mult.
  field. intros Hz. change 0%Q with (inject_Z 0) in Hz.
  apply (proj1 (inject_Z_injective _ _)) in Hz. lia.
Qed.

End SplitEven.

(** X17. When the number of groups is positive and divides the number of
    documents, [split_list] returns (its loop ends after as many rounds as
    there are groups) exactly that many groups, all of the same size, which
    put one after the other give the documents back. *)
Theorem split_list_even {A : Type} (doc_list : list A) (n q fuel : nat) :
  0 < n → 0 < q → length doc_list = n * q → n < fuel →
  ∃ groups,
    split_list fuel doc_list (Z.of_nat n) = Some (Returns groups) ∧
    length groups = n ∧
    Forall (λ g, length g = q) groups ∧
    concat groups = doc_list.
Proof.
  intros Hn Hq Hlen Hfuel. eexists. split; [by apply split_list_chunks |].
  split; [by rewrite length_fmap, length_seq |]. split.
  - apply Forall_fmap, Forall_forall. intros i Hi. simpl.
    apply elem_of_seq in Hi. apply length_chunk. rewrite Hlen. nia.
  - rewrite concat_chunks, <- Hlen. apply firstn_all.
Qed.

Lemma split_list_even_witness :
  ∃ groups,
    split_list 4 [1; 2; 3; 4; 5; 6] (Z.of_nat 3) = Some (Returns groups) ∧
    length groups = 3 ∧
    Forall (λ g, length g = 2) groups ∧
    concat groups = [1; 2; 3; 4; 5; 6].
Proof.
  apply (split_list_even [1; 2; 3; 4; 5; 6] 3 2 4); simpl; lia.
Defined.

(** * Properties of [tokenize_tweet] *)

Lemma capped_no_triple (g : list (Ascii.ascii * nat)) :
  canonical g → ∀ p c t, unruns (cap_run <$> g) ≠ p ++ c :: c :: c :: t.
Proof.
  intros Hcan. apply short_runs_no_triple. rewrite runs_capped by done.
  apply Forall_fmap, Forall_forall. intros cn _. apply cap_run_le.
Qed.

(** Replacing the newlines by spaces does not change the tokens. *)
Lemma py_split_replace_newline (text : str) :
  py_split (py_replace [Ascii.ascii_of_nat 10] (lit " ") text) = py_split text.
Proof.
  unfold py_split, py_replace.
  assert (Hgen : ∀ cur,
            py_split_from cur
              (py_replace_from 0 [Ascii.ascii_of_nat 10] (lit " ") text)
            = py_split_from cur text); [| apply Hgen].
  induction text as [| c text IH]; intros cur; [done |].
  cbn [py_replace_from py_starts_with].
  destruct (decide (Ascii.ascii_of_nat 10 = c)) as [<- | Hne].
  - cbn [length Nat.sub lit String.list_ascii_of_string app].
    rewrite !py_split_from_space by done. unfold py_split. by rewrite IH.
  - simpl. destruct (py_isspace c); [destruct cur |]; by rewrite ?IH.
Qed.

(** The table of [tokenize_tweet] leaves no punctuation behind, and so no
    byte with a meaning of its own in a regular expression. *)
Lemma maketrans_punctuation :
  ∃ table,
    string_maketrans string_punctuation
      (py_repeat (lit " ") (length string_punctuation)) = Returns table ∧
    ∀ c, re_special (table c) = false ∧
         lower_byte (table c) ∉ string_punctuation.
Proof.
  unfold string_maketrans.
  destruct (decide _) as [_ | Hne]; [| by exfalso; apply Hne].
  eexists. split; [done |].
  intros c. split.
  - destruct c as [[] [] [] [] [] [] [] []]; vm_compute; reflexivity.
  - apply (bool_decide_eq_false (_ ∈ _)).
    destruct c as [[] [] [] [] [] [] [] []]; vm_compute; reflexivity.
Qed.

Lemma answer_map_app {A B : Type} (f : A → answer B) (l1 l2 : list A) :
  answer_map f (l1 ++ l2)
  = match answer_map f l1 with
    | Gives ys1 =>
        match answer_map f l2 with
        | Gives ys2 => Gives (ys1 ++ ys2)
        | RaisesIndexError => RaisesIndexError
        | RaisesOther e => RaisesOther e
        end
    | RaisesIndexError => RaisesIndexError
    | RaisesOther e => RaisesOther e
    end.
Proof.
  induction l1 as [| x l1 IH]; simpl.
  - by destruct (answer_map f l2).
  - destruct (f x); [| done | done]. rewrite IH.
    destruct (answer_map f l1); [| done | done].
    by destruct (answer_map f l2).
Qed.

(** Mapping over the groups and flattening is mapping over the whole. *)
Lemma answer_map_concat {A B : Type} (f : A → answer B) (ls : list (list A)) :
  match answer_map (answer_map f) ls with
  | Gives yss => Gives (concat yss)
  | RaisesIndexError => RaisesIndexError
  | RaisesOther e => RaisesOther e
  end = answer_map f (concat ls).
Proof.
  induction ls as [| l ls IH]; [done |]. simpl. rewrite answer_map_app, <- IH.
  destruct (answer_map f l); [| done | done].
  by destruct (answer_map (answer_map f) ls).
Qed.

Section TokenizeProperties.
Context `{PythonRuntime} `{Twokenize}.

Lemma tokenize_token_gives (token : str) :
  token ≠ [] →
  ∃ r, tokenize_token token = Gives r ∧ ∀ piece, r = Some piece → piece_ok piece.
Proof.
  intros Hne. unfold tokenize_token, type_is_int.
  assert (Hmark : ∀ m, marker m →
            ∃ r, Gives (Some m) = @Gives (option str) r ∧
                 ∀ piece, r = Some piece → piece_ok piece).
  { intros m Hm. eexists. split; [done |]. intros piece [= <-]. by left. }
  assert (Hpass : ∃ r, Gives None = @Gives (option str) r ∧
                       ∀ piece, r = Some piece → piece_ok piece).
  { eexists. split; [done |]. by intros piece [=]. }
  destruct (Url_RE_search token).
  { apply Hmark. unfold marker. rewrite !elem_of_cons. auto. }
  destruct token as [| first rest]; [done |].
  destruct (decide _). { apply Hmark. unfold marker. rewrite !elem_of_cons. auto. }
  destruct (Time_RE_search _); [done |].
  destruct (Separators_RE_search _); [done |].
  destruct (NumberWithCommas_RE_search _); [done |].
  destruct (NumNum_RE_search _); [done |].
  destruct (decide _). { apply Hmark. unfold marker. rewrite !elem_of_cons. auto. }
  destruct (Entity_RE_search _). { apply Hmark. unfold marker. rewrite !elem_of_cons. auto. }
  destruct (decide _); [done |].
  destruct (decide _); [done |].
  destruct (Emoticon_RE_search _).
  { eexists. split; [done |]. intros piece [= <-]. right. left. by eexists. }
  destruct maketrans_punctuation as (table & -> & Htable).
  set (w := py_translate table (first :: rest)).
  assert (Hw : Forall (λ c, re_special c = false) w).
  { apply Forall_fmap, Forall_forall. intros c _. apply Htable. }
  rewrite (fix_the_sequence_runs w Hw).
  remember (unruns (cap_run <$> runs (py_lower w))) as res eqn:Hres.
  eexists. split; [done |]. intros piece [= <-]. right. right. split.
  - apply Forall_forall. intros c Hc. rewrite Hres in Hc.
    apply (proj1 (elem_of_capped _ _)) in Hc. rewrite unruns_runs in Hc.
    unfold py_lower, w, py_translate in Hc.
    apply list_elem_of_fmap in Hc as (c1 & -> & Hc1).
    apply list_elem_of_fmap in Hc1 as (c0 & -> & _).
    split; [apply Htable | apply lower_byte_idemp].
  - rewrite Hres. apply capped_no_triple, canonical_runs.
Qed.

Lemma tokenize_tokens_gives (tokens : list str) :
  ∀ token_list : list str,
    Forall (λ token, token ≠ []) tokens →
    ∃ more,
      tokenize_tokens tokens token_list = Gives (token_list ++ more) ∧
      Forall piece_ok more ∧ length more ≤ length tokens.
Proof.
  induction tokens as [| token tokens IH]; intros token_list Hne.
  - exists []. simpl. by rewrite app_nil_r.
  - apply Forall_cons in Hne as [Htoken Hne]. simpl.
    destruct (tokenize_token_gives token Htoken) as (r & -> & Hr).
    destruct r as [piece |].
    + destruct (IH (token_list ++ [piece]) Hne) as (more & -> & Hmore & Hlen).
      exists (piece :: more). rewrite <- app_assoc. split; [done |].
      split; [constructor; [by apply Hr | done] | simpl; lia].
    + destruct (IH token_list Hne) as (more & -> & Hmore & Hlen).
      exists more. split; [done |]. split; [done | simpl; lia].
Qed.

(** X18. [tokenize_tweet] raises on no text: it returns pieces joined by
    single spaces, at most one for each token of the text, and each piece
    is a marker ([_url_], [_hash_], [_user_]), an emoticon analysis in
    lower case, or a token without punctuation, without capitals and
    without a byte three times in a row. *)
Theorem tokenize_tweet_returns (text : str) :
  ∃ token_list,
    tokenize_tweet text = Gives (py_join (lit " ") token_list) ∧
    length token_list ≤ length (py_split text) ∧
    Forall piece_ok token_list.
Proof.
  unfold tokenize_tweet. rewrite py_split_replace_newline.
  destruct (tokenize_tokens_gives (py_split text) []) as (more & -> & Hok & Hlen).
  - eapply Forall_impl; [apply py_split_words |]. by intros token [Hne _].
  - exists more. done.
Qed.

(** X19. When the number of processors divides the number of documents,
    [multiprocess_tokenize_tweet] returns what [tokenize_tweet_list]
    returns on all the documents: the tokenized tweets in the order of the
    documents. *)
Theorem multiprocess_is_sequential `{Multiprocessing} (documents : list str)
    (fuel q : nat) :
  length documents = cpu_count * q → cpu_count < fuel →
  multiprocess_tokenize_tweet fuel documents
  = Some (tokenize_tweet_list documents).
Proof.
  intros Hlen Hfuel. unfold multiprocess_tokenize_tweet.
  pose proof cpu_count_pos as Hpos.
  assert (Hsplit : ∃ groups,
            split_list fuel documents (Z.of_nat cpu_count)
            = Some (Returns groups) ∧ concat groups = documents).
  { destruct q as [| q'].
    - assert (documents = []) as ->.
      { apply length_zero_iff_nil. lia. }
      exists []. split; [| done]. unfold split_list.
      destruct (decide _); [lia |]. destruct fuel as [| fuel']; [lia |]. done.
    - eexists. split; [apply (split_list_chunks documents cpu_count (S q')); lia |].
      rewrite concat_chunks, <- Hlen. apply firstn_all. }
  destruct Hsplit as (groups & -> & Hconcat). f_equal.
  unfold tokenize_tweet_list at 2. rewrite <- Hconcat.
  apply answer_map_concat.
Qed.

End TokenizeProperties.

Lemma tokenize_tweet_example :
  @tokenize_tweet first_occurrence http_only
    (lit "RT @bob: Sooo coool!!! http://t.co/x #wow")
  = Gives (lit "_user_ soo cool   _url_ _hash_").
Proof. vm_compute. reflexivity. Qed.

Lemma multiprocess_is_sequential_witness :
  @multiprocess_tokenize_tweet first_occurrence http_only two_processors 3
    [lit "Sooo coool"; lit "RT @bob: hi"; lit "see http://t.co/x"; lit "#wow!!!"]
  = Some (@tokenize_tweet_list first_occurrence http_only
            [lit "Sooo coool"; lit "RT @bob: hi"; lit "see http://t.co/x";
             lit "#wow!!!"]).
Proof.
  apply (@multiprocess_is_sequential first_occurrence http_only two_processors
           _ 3 2); [reflexivity | simpl; lia].
Defined.
